(** * Second Brain: the [memories] schema and the [match_memories] search

    A shallow embedding of the SQL schema of the repository (the [memories]
    table, its row-level-security policy and the PL/pgSQL function
    [match_memories]) and of the retention engine that the specification
    describes on top of it.

    - [Float8]   : PostgreSQL's [float] (double precision) values with the
                   total order PostgreSQL uses to compare and sort them.
    - [Sql]      : NULL, strict operators and the outcome of a statement.
    - [Ordering] : ORDER BY as a stable insertion sort.
    - [Schema]   : the table, INSERT under its column constraints, the
                   policy, and [match_memories].
    - [Engine]   : the retention scorer, the resurfacing selector and the
                   reinforcement updater, from the specification.
    - [Examples] : sample tables.
    - [Chronology] : the grouping of memories by year and month that the
                   chronology view shows.
    - [Client]   : the session storage, the interceptors of the HTTP client
                   and the sign-in service.
    - [Views]    : the handlers and the rendering of the oracle, the studio,
                   the feed, a card, the chronology and the application.

    The modules named [...Facts] hold the proofs. *)

From Stdlib Require Import ZArith QArith List String Ascii Bool Lia.
From Stdlib Require Import Sorting.Sorted Sorting.Permutation.
From Stdlib Require Import Reals Psatz.
Import ListNotations.

(* ------------------------------------------------------------------ *)
(** ** PostgreSQL [float] values *)

Module Float8.

(** A [float] column or parameter holds a finite number, one of the two
    infinities, or NaN.  Finite values are rationals, kept in lowest terms;
    arithmetic on them is exact here (rounding to 53 bits is not modelled). *)
Inductive float8 : Type :=
| Finite (q : Q)
| PosInf
| NegInf
| NaN.

(** The comparison behind [<], [>], [=] and ORDER BY on [float]:
    NaN is equal to itself and greater than every other value. *)
Definition float8_cmp (a b : float8) : comparison :=
  match a, b with
  | NaN, NaN => Eq
  | NaN, _ => Gt
  | _, NaN => Lt
  | PosInf, PosInf => Eq
  | PosInf, _ => Gt
  | _, PosInf => Lt
  | NegInf, NegInf => Eq
  | NegInf, _ => Lt
  | _, NegInf => Gt
  | Finite x, Finite y => (x ?= y)%Q
  end.

Definition float8_gt (a b : float8) : bool :=
  match float8_cmp a b with Gt => true | _ => false end.

Definition float8_le (a b : float8) : bool :=
  match float8_cmp a b with Gt => false | _ => true end.

Definition float8_eq (a b : float8) : bool :=
  match float8_cmp a b with Eq => true | _ => false end.

(** [a - b] on [float]. *)
Definition float8_mi (a b : float8) : float8 :=
  match a, b with
  | NaN, _ | _, NaN => NaN
  | Finite x, Finite y => Finite (Qred (x - y))
  | PosInf, PosInf => NaN
  | NegInf, NegInf => NaN
  | PosInf, _ => PosInf
  | NegInf, _ => NegInf
  | Finite _, PosInf => NegInf
  | Finite _, NegInf => PosInf
  end.

Definition one : float8 := Finite 1.

(** [a > b] as a comparison of numbers: it holds of no pair with a NaN. *)
Definition number_gt (a b : float8) : Prop :=
  match a, b with
  | NaN, _ | _, NaN => False
  | PosInf, PosInf => False
  | PosInf, _ => True
  | _, PosInf => False
  | NegInf, _ => False
  | Finite _, NegInf => True
  | Finite x, Finite y => (y < x)%Q
  end.

End Float8.

(* ------------------------------------------------------------------ *)
(** ** SQL values, three-valued logic, statement outcomes *)

Module Sql.

(** Errors a statement over [memories] can raise. *)
Inductive pg_error : Type :=
| LimitNegative                              (* LIMIT must not be negative *)
| DifferentDimensions (a b : nat)            (* <=> on vectors of unequal length *)
| DimensionMismatch (expected actual : nat)  (* value does not fit vector(n) *)
| NotNullViolation (column : string)
| IntegerOutOfRange
| UniqueViolation
| RlsViolation.                              (* new row violates the policy *)

Inductive result (A : Type) : Type :=
| Ok (a : A)
| Err (e : pg_error).

Arguments Ok {A} a.
Arguments Err {A} e.

Definition bind {A B : Type} (r : result A) (k : A -> result B) : result B :=
  match r with
  | Ok a => k a
  | Err e => Err e
  end.

(** A SQL boolean is [Some true], [Some false] or NULL ([None]). *)
Definition sql_bool : Type := option bool.

(** A WHERE clause keeps a row only when the condition is TRUE. *)
Definition is_true (b : sql_bool) : bool :=
  match b with Some true => true | _ => false end.

(** A strict binary operator: NULL as soon as one operand is NULL. *)
Definition strict2 {A B C : Type} (f : A -> B -> C)
  (a : option A) (b : option B) : option C :=
  match a, b with
  | Some x, Some y => Some (f x y)
  | _, _ => None
  end.

End Sql.

Declare Scope pg_scope.
Delimit Scope pg_scope with pg.
Notation "x <- r ;; k" := (Sql.bind r (fun x => k))
  (at level 61, r at next level, right associativity) : pg_scope.

(* ------------------------------------------------------------------ *)
(** ** Ordering rows *)

Module Ordering.

(** Stable insertion of [x] into a list sorted by [le]. *)
Fixpoint insert_sorted {A : Type} (le : A -> A -> bool) (x : A) (l : list A)
  : list A :=
  match l with
  | [] => [x]
  | y :: l' => if le x y then x :: l else y :: insert_sorted le x l'
  end.

(** ORDER BY: rows with equal keys keep the order of the scan (PostgreSQL
    itself promises no order among them). *)
Fixpoint order_by {A : Type} (le : A -> A -> bool) (l : list A) : list A :=
  match l with
  | [] => []
  | x :: l' => insert_sorted le x (order_by le l')
  end.

End Ordering.

(* ------------------------------------------------------------------ *)
(** ** The schema *)

Module Schema.

Import Float8 Sql Ordering.
Local Open Scope pg_scope.

Definition uuid : Type := N.

(** [timestamptz]: microseconds since the epoch. *)
Definition timestamptz : Type := Z.

(** A pgvector [vector]: a list of finite numbers. *)
Definition vector : Type := list Q.

Definition dims (v : vector) : nat := List.length v.

(** The dimension written in the column type [vector(1536)]. *)
Definition embedding_dims : nat := 1536.

(** One row of [memories].  Every column but [embedding] is declared
    NOT NULL, so only [embedding] is optional. *)
Record memories_row : Type := mk_row {
  id : Z;
  user_id : uuid;
  raw_text : string;
  summary : string;
  embedding : option vector;
  importance : float8;
  access_count : Z;
  summary_count : Z;
  created_at : timestamptz;
  last_accessed_at : timestamptz
}.

Definition table : Type := list memories_row.

(** *** Row level security *)

(** The role a statement runs as: the table owner or a role with BYPASSRLS
    skips the policy; for the others [auth.uid()] is the caller's identity,
    NULL when there is none. *)
Record session : Type := mk_session {
  bypass_rls : bool;
  auth_uid : option uuid
}.

(** USING (auth.uid() = user_id) *)
Definition user_isolation_policy (s : session) (owner : option uuid) : sql_bool :=
  strict2 N.eqb (auth_uid s) owner.

(** The rows a statement of session [s] can see. *)
Definition visible (s : session) (t : table) : table :=
  if bypass_rls s then t
  else filter (fun m => is_true (user_isolation_policy s (Some (user_id m)))) t.

(** *** INSERT *)

(** What an INSERT gives for a column: nothing (or DEFAULT), or a value,
    which may be NULL. *)
Inductive col (A : Type) : Type :=
| Default
| Value (v : option A).

Arguments Default {A}.
Arguments Value {A} v.

(** [id] is GENERATED ALWAYS: an INSERT cannot give it. *)
Record insert_values : Type := mk_insert {
  i_user_id : col uuid;
  i_raw_text : col string;
  i_summary : col string;
  i_embedding : col vector;
  i_importance : col float8;
  i_access_count : col Z;
  i_summary_count : col Z;
  i_created_at : col timestamptz;
  i_last_accessed_at : col timestamptz
}.

Definition with_default {A : Type} (d : option A) (c : col A) : option A :=
  match c with
  | Default => d
  | Value v => v
  end.

(** Assignment to a [vector(n)] column. *)
Definition coerce_vector (n : nat) (v : option vector) : result (option vector) :=
  match v with
  | None => Ok None
  | Some e =>
      if Nat.eqb (dims e) n then Ok (Some e)
      else Err (DimensionMismatch n (dims e))
  end.

(** Assignment to an [int] column. *)
Definition coerce_int4 (v : option Z) : result (option Z) :=
  match v with
  | None => Ok None
  | Some z =>
      if ((-2147483648 <=? z) && (z <=? 2147483647))%Z then Ok (Some z)
      else Err IntegerOutOfRange
  end.

Definition not_null {A : Type} (column : string) (v : option A) : result A :=
  match v with
  | Some a => Ok a
  | None => Err (NotNullViolation column)
  end.

(** The row an INSERT builds: defaults applied, values coerced to the column
    types, the policy's check (WITH CHECK defaults to the USING expression),
    then the NOT NULL constraints in column order.  [txn_now] is the value of
    [now()], the same for both timestamp defaults; [new_id] is the value
    drawn from the identity sequence. *)
Definition build_row (s : session) (txn_now : timestamptz) (new_id : Z)
  (v : insert_values) : result memories_row :=
  e <- coerce_vector embedding_dims (with_default None (i_embedding v)) ;;
  ac <- coerce_int4 (with_default (Some 0%Z) (i_access_count v)) ;;
  sc <- coerce_int4 (with_default (Some 0%Z) (i_summary_count v)) ;;
  let u := with_default None (i_user_id v) in
  if negb (bypass_rls s) && negb (is_true (user_isolation_policy s u))
  then Err RlsViolation
  else
    u' <- not_null "user_id"%string u ;;
    rt <- not_null "raw_text"%string (with_default None (i_raw_text v)) ;;
    sm <- not_null "summary"%string (with_default None (i_summary v)) ;;
    im <- not_null "importance"%string (with_default (Some one) (i_importance v)) ;;
    ac' <- not_null "access_count"%string ac ;;
    sc' <- not_null "summary_count"%string sc ;;
    ca <- not_null "created_at"%string (with_default (Some txn_now) (i_created_at v)) ;;
    la <- not_null "last_accessed_at"%string
            (with_default (Some txn_now) (i_last_accessed_at v)) ;;
    Ok (mk_row new_id u' rt sm e im ac' sc' ca la).

(** INSERT INTO memories ...: the table afterwards and the outcome.  A
    failed statement leaves the table as it was. *)
Definition exec_insert (s : session) (txn_now : timestamptz) (new_id : Z)
  (v : insert_values) (t : table) : table * result memories_row :=
  match build_row s txn_now new_id v with
  | Err e => (t, Err e)
  | Ok m =>
      if existsb (fun m' => (id m' =? new_id)%Z) t then (t, Err UniqueViolation)
      else (t ++ [m], Ok m)
  end.

(** The ingestion path: only the owner, the text, the summary and the
    embedding are given; every other column takes its default. *)
Definition ingest_values (owner : uuid) (text sum : string) (e : option vector)
  : insert_values :=
  mk_insert (Value (Some owner)) (Value (Some text)) (Value (Some sum)) (Value e)
            Default Default Default Default Default.

(** *** match_memories *)

(** A row of RETURNS TABLE (...). *)
Record match_row : Type := mk_match {
  out_id : Z;
  out_user_id : uuid;
  out_raw_text : string;
  out_summary : string;
  out_importance : float8;
  out_created_at : timestamptz;
  out_last_accessed_at : timestamptz;
  out_access_count : Z;
  out_summary_count : Z;
  similarity : float8
}.

Section MatchMemories.

(** pgvector's cosine distance of two vectors of the same dimension; it is
    NaN when one of them has norm zero. *)
Variable cosine_distance : vector -> vector -> float8.

(** The operator [<=>]: strict, and an error on unequal dimensions. *)
Definition cosine_op (a b : option vector) : result (option float8) :=
  match a, b with
  | Some x, Some y =>
      if Nat.eqb (dims x) (dims y) then Ok (Some (cosine_distance x y))
      else Err (DifferentDimensions (dims x) (dims y))
  | _, _ => Ok None
  end.

(** 1 - d *)
Definition similarity_of (d : float8) : float8 := float8_mi one d.

(** FROM memories m WHERE m.user_id = p_user_id
      AND 1 - (m.embedding <=> query_embedding) > match_threshold.
    The distance is evaluated for the rows of the requested owner only, once
    per row; a row is kept with its distance when the condition is TRUE.
    (With a NULL threshold the planner may fold the comparison to NULL and
    read no row: whether [<=>] is evaluated, and can fail, is then up to the
    plan, and no fact on an error is stated for a NULL threshold.) *)
Fixpoint scan (query_embedding : option vector) (match_threshold : option float8)
  (p_user_id : option uuid) (t : table) : result (list (memories_row * float8)) :=
  match t with
  | [] => Ok []
  | m :: t' =>
      if is_true (strict2 N.eqb (Some (user_id m)) p_user_id) then
        d <- cosine_op (embedding m) query_embedding ;;
        rest <- scan query_embedding match_threshold p_user_id t' ;;
        match d with
        | Some d' =>
            if is_true (strict2 float8_gt (Some (similarity_of d')) match_threshold)
            then Ok ((m, d') :: rest)
            else Ok rest
        | None => Ok rest
        end
      else scan query_embedding match_threshold p_user_id t'
  end.

(** ORDER BY m.embedding <=> query_embedding (ascending). *)
Definition by_distance (a b : memories_row * float8) : bool :=
  float8_le (snd a) (snd b).

(** LIMIT match_count: an error when negative, no limit when NULL, and no
    row is fetched at all when it is zero. *)
Definition matching_rows (query_embedding : option vector)
  (match_threshold : option float8) (match_count : option Z)
  (p_user_id : option uuid) (t : table) : result (list (memories_row * float8)) :=
  match match_count with
  | Some n =>
      if (n <? 0)%Z then Err LimitNegative
      else if (n =? 0)%Z then Ok []
      else
        rows <- scan query_embedding match_threshold p_user_id t ;;
        Ok (firstn (Z.to_nat n) (order_by by_distance rows))
  | None =>
      rows <- scan query_embedding match_threshold p_user_id t ;;
      Ok (order_by by_distance rows)
  end.

(** The SELECT list. *)
Definition select_row (md : memories_row * float8) : match_row :=
  let (m, d) := md in
  mk_match (id m) (user_id m) (raw_text m) (summary m) (importance m)
           (created_at m) (last_accessed_at m) (access_count m)
           (summary_count m) (similarity_of d).

Definition match_memories (query_embedding : option vector)
  (match_threshold : option float8) (match_count : option Z)
  (p_user_id : option uuid) (t : table) : result (list match_row) :=
  rows <- matching_rows query_embedding match_threshold match_count p_user_id t ;;
  Ok (map select_row rows).

(** A call by session [s]: the function runs with the caller's rights, so it
    reads the rows the policy lets the caller see; it writes nothing. *)
Definition call_match_memories (s : session) (query_embedding : option vector)
  (match_threshold : option float8) (match_count : option Z)
  (p_user_id : option uuid) (t : table) : table * result (list match_row) :=
  (t, match_memories query_embedding match_threshold match_count p_user_id
        (visible s t)).

(** What the WHERE clause lets through. *)
Definition passes (q : option vector) (thr : option float8) (uid : option uuid)
  (md : memories_row * float8) : Prop :=
  uid = Some (user_id (fst md)) /\
  exists e qv th,
    embedding (fst md) = Some e /\ q = Some qv /\ thr = Some th /\
    snd md = cosine_distance e qv /\
    float8_gt (similarity_of (snd md)) th = true.

(** What holds of a returned row: it is the SELECT list of a row [m] of the
    table that has an embedding [e]; its similarity is
    [1 - cosine_distance e query]; and this similarity is a number greater
    than the threshold, or it is NaN, as it is when the distance is NaN (a
    vector of norm zero), which the comparison of PostgreSQL ranks above
    every number. *)
Definition above_threshold_or_nan (query_embedding : option vector)
  (match_threshold : option float8) (t : table) (r : match_row) : Prop :=
  exists m e qv th,
    In m t /\ embedding m = Some e /\ query_embedding = Some qv /\
    match_threshold = Some th /\
    r = select_row (m, cosine_distance e qv) /\
    similarity r = float8_mi one (cosine_distance e qv) /\
    (number_gt (similarity r) th
     \/ (similarity r = NaN /\ cosine_distance e qv = NaN /\ th <> NaN)).

End MatchMemories.



(** No two of the rows are at the same distance: the sort key tells every
    pair of them apart. *)
Definition no_ties (rows : list (memories_row * float8)) : Prop :=
  ForallOrdPairs (fun a b => float8_eq (snd a) (snd b) = false) rows.


(** A row that carries an embedding of the dimension of the column. *)
Definition has_embedding (m : memories_row) : Prop :=
  exists e, embedding m = Some e /\ dims e = embedding_dims.

(** What the column type [vector(1536)] promises of a stored row. *)
Definition embedding_ok (m : memories_row) : Prop :=
  match embedding m with
  | None => True
  | Some e => dims e = embedding_dims
  end.

(** A distance to run examples with: on vectors of norm one the cosine
    distance is one minus the dot product. *)
Fixpoint dot (a b : vector) : Q :=
  match a, b with
  | x :: a', y :: b' => x * y + dot a' b'
  | _, _ => 0
  end.

Definition unit_cosine_distance (a b : vector) : float8 :=
  if Qeq_bool (dot a a) 0 || Qeq_bool (dot b b) 0 then NaN
  else Finite (Qred (1 - dot a b)).

End Schema.

(* ------------------------------------------------------------------ *)
(** ** The retention engine *)

Module Engine.

Import Ordering.
Local Open Scope R_scope.

(** Modelled from the spec: the Memory of section 3 (the server code that
    holds it is not in the repository).  Timestamps are microseconds since
    the epoch, as in the table; floats are real numbers. *)
Record Memory : Type := mk_memory {
  id : Z;
  owner_id : N;
  raw_text : string;
  summary : string;
  embedding : list Q;
  importance : R;
  access_count : Z;
  summary_count : Z;
  created_at : Z;
  last_accessed_at : Z
}.

(** Modelled from the spec: the configuration constants of sections 4.2,
    4.4 and 4.5, fixed process-wide. *)
Record config : Type := mk_config {
  base_stability : R;
  importance_cap : R;
  resurface_threshold : R;
  resurface_importance_floor : R;
  reinforcement_increment : R
}.

(** Modelled from the spec: what the constants must satisfy for the formulas
    of section 4.2 and 4.5 to make sense (a positive stability and cap, an
    increment that increases). *)
Definition valid_config (c : config) : Prop :=
  0 < base_stability c /\ 0 < importance_cap c /\ 0 <= reinforcement_increment c.

(** Modelled from the spec: the example constants of sections 4.2, 4.4, 4.5
    (7 days, cap 5.0, threshold 0.5, floor 1.0, increment 0.1). *)
Definition example_config : config := mk_config 7 5 (1 / 2) 1 (1 / 10).

Definition microseconds_per_day : Z := 86400000000.

(** Modelled from the spec: [elapsed_days = max(0, now - last_accessed_at)],
    in days, fractional. *)
Definition elapsed_days (last_accessed_at now : Z) : R :=
  Rmax 0 (IZR (now - last_accessed_at) / IZR microseconds_per_day).

(** Modelled from the spec: [stability = base_stability * (1 + access_count)]. *)
Definition stability (c : config) (access_count : Z) : R :=
  base_stability c * (1 + IZR access_count).

(** Modelled from the spec:
    [importance_normalized = min(importance, importance_cap) / importance_cap]. *)
Definition importance_normalized (c : config) (importance : R) : R :=
  Rmin importance (importance_cap c) / importance_cap c.

(** Modelled from the spec: the Retention Scorer of section 4.2,
    [retention = importance_normalized * exp(-elapsed_days / stability)]. *)
Definition score (c : config) (importance : R) (access_count : Z)
  (last_accessed_at now : Z) : R :=
  importance_normalized c importance
  * exp (- elapsed_days last_accessed_at now / stability c access_count).

(** Modelled from the spec: the derived field [retention_score] of a Memory
    at the instant [now] (section 3). *)
Definition retention_score (c : config) (now : Z) (m : Memory) : R :=
  score c (importance m) (access_count m) (last_accessed_at m) now.

(** Modelled from the spec: [list(owner_id)] of section 4.1. *)
Definition list_memories (owner : N) (store : list Memory) : list Memory :=
  filter (fun m => N.eqb (owner_id m) owner) store.

(** Modelled from the spec: a Memory qualifies for resurfacing when
    [retention_score < resurface_threshold] and
    [importance >= resurface_importance_floor] (section 4.4). *)
Definition qualifies (c : config) (now : Z) (m : Memory) : bool :=
  if Rlt_dec (retention_score c now m) (resurface_threshold c) then
    if Rle_dec (resurface_importance_floor c) (importance m) then true else false
  else false.

(** Modelled from the spec: lowest [retention_score] first, ties broken by
    [created_at] ascending (section 4.4). *)
Definition fades_before (c : config) (now : Z) (a b : Memory) : bool :=
  if Rlt_dec (retention_score c now a) (retention_score c now b) then true
  else if Rlt_dec (retention_score c now b) (retention_score c now a) then false
  else (created_at a <=? created_at b)%Z.

(** Modelled from the spec: a returned object, the Memory with its derived,
    transient fields [retention_score] and [is_resurfaced] (section 3). *)
Record annotated : Type := mk_annotated {
  memory : Memory;
  retention : R;
  is_resurfaced : bool
}.

Definition annotate (c : config) (now : Z) (m : Memory) : annotated :=
  mk_annotated m (retention_score c now m) true.

(** Modelled from the spec: the Resurfacing Selector of section 4.4, over
    the whole Memory set of the owner; it returns the store as it found it
    and the [n] selected Memories. *)
Definition resurface (c : config) (now : Z) (n : nat) (owner : N)
  (store : list Memory) : list Memory * list annotated :=
  (store,
   map (annotate c now)
     (firstn n (order_by (fades_before c now)
                  (filter (qualifies c now) (list_memories owner store))))).

(** Modelled from the spec: the effects of one reinforcement on a Memory
    (section 4.5): [access_count += 1]; [last_accessed_at = now] only if
    [now] is strictly later; [importance] increased by the increment and
    capped at [importance_cap]. *)
Definition reinforce_memory (c : config) (now : Z) (m : Memory) : Memory :=
  mk_memory (id m) (owner_id m) (raw_text m) (summary m) (embedding m)
    (Rmin (importance m + reinforcement_increment c) (importance_cap c))
    (access_count m + 1)%Z
    (summary_count m) (created_at m)
    (if (last_accessed_at m <? now)%Z then now else last_accessed_at m).

(** Modelled from the spec: the two failures of [reinforce] (section 4.5). *)
Inductive engine_error : Type :=
| NotFound
| Conflict.

Inductive outcome : Type :=
| Updated (store : list Memory)
| Failed (e : engine_error).

(** Modelled from the spec: [reinforce(owner_id, id, now)] of section 4.5;
    it fails with [NotFound] when no Memory has this id and this owner, and
    otherwise replaces that Memory by its reinforced version in one step.
    ([Conflict] needs a concurrent writer; a call that runs alone never
    meets one.) *)
Fixpoint reinforce (c : config) (owner : N) (i : Z) (now : Z)
  (store : list Memory) : outcome :=
  match store with
  | [] => Failed NotFound
  | m :: rest =>
      if ((id m =? i)%Z && N.eqb (owner_id m) owner)%bool
      then Updated (reinforce_memory c now m :: rest)
      else match reinforce c owner i now rest with
           | Updated rest' => Updated (m :: rest')
           | Failed e => Failed e
           end
  end.

(** One call: who asks, for which Memory, when. *)
Record call : Type := mk_call {
  call_owner : N;
  call_id : Z;
  call_now : Z
}.

(** The store after a call; a failed call changes nothing. *)
Definition after_call (c : config) (store : list Memory) (k : call) : list Memory :=
  match reinforce c (call_owner k) (call_id k) (call_now k) store with
  | Updated store' => store'
  | Failed _ => store
  end.

Definition after_calls (c : config) (calls : list call) (store : list Memory)
  : list Memory :=
  fold_left (after_call c) calls store.

(** A Memory whose three reinforced fields are not below those of an
    earlier version of the same Memory. *)
Definition not_decreased (m m' : Memory) : Prop :=
  id m' = id m /\ owner_id m' = owner_id m /\
  (access_count m <= access_count m')%Z /\
  importance m <= importance m' /\
  (last_accessed_at m <= last_accessed_at m')%Z.

Definition within_cap (c : config) (m : Memory) : Prop :=
  importance m <= importance_cap c.

(** The order of the selection as a relation on the returned objects. *)
Definition fading_order (a b : annotated) : Prop :=
  retention a < retention b
  \/ (retention a = retention b
      /\ (created_at (memory a) <= created_at (memory b))%Z).

(** Sample Memories: one as ingestion leaves it, created and last accessed
    at time 0, and one whose importance is above the example cap. *)
Definition fresh_memory : Memory := mk_memory 1 1 "text" "summary" [] 1 0 0 0 0.
Definition heavy_memory : Memory := mk_memory 2 1 "text" "summary" [] 6 0 0 0 0.

(** A Memory of the same owner whose importance is below the example floor. *)
Definition faint_memory : Memory :=
  mk_memory 3 1 "text" "summary" [] (1 / 2) 0 0 0 0.

Definition fourteen_days : Z := 14 * microseconds_per_day.

End Engine.

(* ------------------------------------------------------------------ *)
(** ** Sample data *)

Module Examples.

Import Float8 Sql Schema.
Local Open Scope Z_scope.

Definition alice : uuid := 1%N.
Definition bob : uuid := 2%N.

(** The backend role, which the policy does not bind, and a signed-in user. *)
Definition service : session := mk_session true None.
Definition as_alice : session := mk_session false (Some alice).

(** A vector of 1536 dimensions from its first components. *)
Definition pad (v : vector) : vector :=
  (v ++ repeat 0%Q (embedding_dims - List.length v))%list.

Definition east : vector := pad [1%Q; 0%Q].
Definition north : vector := pad [0%Q; 1%Q].
Definition north_east : vector := pad [4 # 5; 3 # 5].

Definition note (owner : uuid) (e : option vector) : insert_values :=
  ingest_values owner "text" "summary" e.


(** Notes of two owners; the last one of alice has no embedding. *)
Definition library : table :=
  let t1 := fst (exec_insert service 10 1 (note alice (Some north)) []) in
  let t2 := fst (exec_insert service 20 2 (note bob (Some east)) t1) in
  let t3 := fst (exec_insert service 30 3 (note alice (Some north_east)) t2) in
  let t4 := fst (exec_insert service 40 4 (note alice (Some east)) t3) in
  fst (exec_insert service 50 5 (note alice None) t4).

Definition threshold : float8 := Finite (7 # 10).

(** What [match_memories] answers on [library] for alice, query [east],
    threshold 0.7 and at most 5 rows. *)
Definition library_matches : list match_row :=
  [ mk_match 4 alice "text" "summary" one 40 40 0 0 (Finite 1);
    mk_match 3 alice "text" "summary" one 30 30 0 0 (Finite (4 # 5)) ].


(** The note of alice that has no embedding, as [library] stores it. *)
Definition blank_note : memories_row :=
  mk_row 5 alice "text" "summary" None one 0 0 50 50.

(** A table with a note whose embedding is the zero vector, stored before a
    note that matches the query exactly. *)
Definition with_zero_vector : table :=
  let t1 := fst (exec_insert service 10 1 (note alice (Some (pad []))) []) in
  fst (exec_insert service 20 2 (note alice (Some east)) t1).

(** What [match_memories] answers on it for alice, query [east] and
    threshold 0.7: the note of the zero vector is returned, with similarity
    NaN. *)
Definition zero_vector_matches : list match_row :=
  [ mk_match 2 alice "text" "summary" one 20 20 0 0 (Finite 1);
    mk_match 1 alice "text" "summary" one 10 10 0 0 NaN ].

End Examples.

(* ------------------------------------------------------------------ *)
(** ** More sample data *)

Module Samples.

Import Float8 Sql Schema Examples.
Local Open Scope Z_scope.

Definition as_bob : session := mk_session false (Some bob).

(** A visitor who is not signed in: [auth.uid()] is NULL. *)
Definition anonymous : session := mk_session false None.

(** A query of two dimensions only. *)
Definition short_query : vector := [1%Q; 0%Q].

(** An INSERT that gives the four content columns, each possibly NULL, and
    leaves the others to their defaults. *)
Definition partial_note (u : option uuid) (text sum : option string)
  (e : option vector) : insert_values :=
  mk_insert (Value u) (Value text) (Value sum) (Value e)
            Default Default Default Default Default.

(** What [match_memories] answers on [library] for alice and the query
    [east] when the threshold is 0 and the count is NULL: the note at a right
    angle (similarity 0) stays out. *)
(** The rows of [library] that pass the WHERE clause for alice, the query
    [east] and the threshold 0.7, with their distances, in table order. *)
Definition library_scan : list (memories_row * float8) :=
  [ (mk_row 3 alice "text" "summary" (Some north_east) one 0 0 30 30,
     Finite (1 # 5));
    (mk_row 4 alice "text" "summary" (Some east) one 0 0 40 40, Finite 0) ].

Definition library_all_matches : list match_row :=
  [ mk_match 4 alice "text" "summary" one 40 40 0 0 (Finite 1);
    mk_match 3 alice "text" "summary" one 30 30 0 0 (Finite (4 # 5)) ].

End Samples.

(* ------------------------------------------------------------------ *)
(** ** The chronology view: grouping memories by year and month *)

Module Chronology.

Import Ordering.
Local Open Scope Z_scope.

(** *** Property keys *)

Definition digit (c : ascii) : option N :=
  let n := N_of_ascii c in
  if ((48 <=? n) && (n <=? 57))%N then Some (n - 48)%N else None.

Fixpoint decimal (acc : N) (s : string) : option N :=
  match s with
  | EmptyString => Some acc
  | String c s' =>
      match digit c with
      | Some d => decimal (10 * acc + d)%N s'
      | None => None
      end
  end.

(** The array index a property key denotes, if any: a decimal numeral
    without leading zero, below 2^32 - 1. *)
Definition array_index (key : string) : option N :=
  match key with
  | EmptyString => None
  | String c rest =>
      if (Ascii.eqb c "0" && negb (String.eqb rest ""))%bool then None
      else match decimal 0 key with
           | Some n => if (n <=? 4294967294)%N then Some n else None
           | None => None
           end
  end.

(** The same for the key a year is turned into ([yearGroups[year]] keeps
    the year under its decimal numeral; the model keeps the number). *)
Definition year_index (y : Z) : option N :=
  if (0 <=? y) && (y <=? 4294967294) then Some (Z.to_N y) else None.

(** An object as the list of its own properties, in the order they were
    created. *)
Definition object (K V : Type) : Type := list (K * V).

Definition is_index {K V : Type} (index_of : K -> option N) (kv : K * V) : bool :=
  match index_of (fst kv) with Some _ => true | None => false end.

Definition index_leb {K V : Type} (index_of : K -> option N) (a b : K * V) : bool :=
  match index_of (fst a), index_of (fst b) with
  | Some i, Some j => (i <=? j)%N
  | _, _ => true
  end.

(** [Object.entries]: the array indices first, in ascending order, then the
    other keys in the order of their creation. *)
Definition entries {K V : Type} (index_of : K -> option N) (o : object K V)
  : list (K * V) :=
  (order_by (index_leb index_of) (filter (is_index index_of) o)
   ++ filter (fun kv => negb (is_index index_of kv)) o)%list.

Section GroupMemories.

(** A memory as the server sends it, and the time value (milliseconds) of
    [new Date(memory.created_at)].  The time value is a number here: the
    model is of memories whose dates are valid (see [valid_dates] below). *)
Variable memory : Type.
Variable created_at : memory -> Z.

(** What the browser makes of a date: [getFullYear()], the long name of the
    month and the short date in upper case, in the local time zone and
    language.  A month label is a name: no member of [Object.prototype] is
    called so. *)
Variable year_of : Z -> Z.
Variable month_name : Z -> string.
Variable day_label : Z -> string.

(** [{ ...memory, dayLabel: day }] *)
Record item : Type := mk_item {
  item_memory : memory;
  dayLabel : string
}.

(** The comparator [(a, b) => new Date(b.created_at) - new Date(a.created_at)]
    puts [a] before [b] when it is not positive; [sort] is stable. *)
Definition newest_first (a b : memory) : bool :=
  created_at b <=? created_at a.

(** [if (!months[month]) months[month] = []; months[month].push(it)] *)
Fixpoint push_item (month : string) (it : item) (months : object string (list item))
  : object string (list item) :=
  match months with
  | [] => [(month, [it])]
  | (k, its) :: rest =>
      if String.eqb k month then (k, (its ++ [it])%list) :: rest
      else (k, its) :: push_item month it rest
  end.

(** [if (!yearGroups[year]) yearGroups[year] = {}; ...] *)
Fixpoint file_under (year : Z) (month : string) (it : item)
  (years : object Z (object string (list item)))
  : object Z (object string (list item)) :=
  match years with
  | [] => [(year, [(month, [it])])]
  | (k, months) :: rest =>
      if k =? year then (k, push_item month it months) :: rest
      else (k, months) :: file_under year month it rest
  end.

(** The body of [sorted.forEach]. *)
Definition file_memory (years : object Z (object string (list item)))
  (m : memory) : object Z (object string (list item)) :=
  let date := created_at m in
  file_under (year_of date) (month_name date) (mk_item m (day_label date)) years.

Definition year_groups (memories : list memory)
  : object Z (object string (list item)) :=
  fold_left file_memory (order_by newest_first memories) [].

Record month_group : Type := mk_month_group {
  month : string;
  items : list item
}.

Record year_group : Type := mk_year_group {
  year : Z;
  months : list month_group
}.

(** [([ya], [yb]) => yb - ya] *)
Definition latest_year_first (a b : Z * object string (list item)) : bool :=
  fst b <=? fst a.

Definition groupMemories (memories : list memory) : list year_group :=
  map (fun ym =>
         mk_year_group (fst ym)
           (map (fun mi => mk_month_group (fst mi) (snd mi))
              (entries array_index (snd ym))))
      (order_by latest_year_first
         (entries year_index (year_groups memories))).

(** Every item of the result, group after group. *)
Definition all_items (groups : list year_group) : list item :=
  List.concat (map (fun g => List.concat (map items (months g))) groups).

(** The memories of one year and month among [memories], in their order. *)
Definition of_month (y : Z) (label : string) (memories : list memory)
  : list memory :=
  filter (fun m => (year_of (created_at m) =? y)
                   && String.eqb (month_name (created_at m)) label)
         memories.

Definition as_item (m : memory) : item := mk_item m (day_label (created_at m)).

(** What an object holds under a key: [o[key]], or the default when the key
    is missing. *)
Definition get {K V : Type} (eqb : K -> K -> bool) (default : V) (key : K)
  (o : object K V) : V :=
  match find (fun kv => eqb (fst kv) key) o with
  | Some kv => snd kv
  | None => default
  end.

(** The items filed under a year and a month. *)
Definition cell (y : Z) (label : string)
  (years : object Z (object string (list item))) : list item :=
  get String.eqb [] label (get Z.eqb [] y years).

(** The items of an object of months, and of an object of years. *)
Definition flat_months (months : object string (list item)) : list item :=
  List.concat (map snd months).

Definition flat_years (years : object Z (object string (list item)))
  : list item :=
  List.concat (map (fun ym => flat_months (snd ym)) years).

(** What [file_memory] keeps true of the object it fills: no key twice, no
    year without month, no month without item. *)
Definition well_formed (years : object Z (object string (list item))) : Prop :=
  NoDup (map fst years) /\
  Forall (fun ym =>
            NoDup (map fst (snd ym)) /\ snd ym <> [] /\
            Forall (fun mi => snd mi <> []) (snd ym)) years.

(** The creation time of the first item of a month group. *)
Definition newest (its : list item) : option Z :=
  match its with
  | it :: _ => Some (created_at (item_memory it))
  | [] => None
  end.

(** Month groups whose first items go back in time. *)
Definition newest_month_first (a b : list item) : Prop :=
  match newest a, newest b with
  | Some ta, Some tb => tb <= ta
  | _, _ => True
  end.

(** [new Date(memory.created_at)] is an Invalid Date when [created_at] is
    absent or is not a date: its time value is NaN, the comparator of the
    sort returns NaN, which leaves the order to the engine, and
    [getFullYear()] is NaN.  With [date m] the time value of the date of
    [m], nothing standing for NaN, the memories all have valid dates when
    [created_at] is the time value of each of them. *)
Definition valid_dates (date : memory -> option Z) (memories : list memory)
  : Prop :=
  Forall (fun m => date m = Some (created_at m)) memories.

(** [x <= y] on time values: false as soon as one of them is NaN. *)
Definition not_later (x y : option Z) : Prop :=
  match x, y with
  | Some a, Some b => a <= b
  | _, _ => False
  end.

(** The date of the first item of a month group. *)
Definition newest_date (date : memory -> option Z) (its : list item)
  : option Z :=
  match its with
  | it :: _ => date (item_memory it)
  | [] => None
  end.

End GroupMemories.

Arguments mk_item {memory}.
Arguments item_memory {memory}.
Arguments dayLabel {memory}.
Arguments newest_first {memory}.
Arguments push_item {memory}.
Arguments file_under {memory}.
Arguments file_memory {memory}.
Arguments year_groups {memory}.
Arguments mk_month_group {memory}.
Arguments month {memory}.
Arguments items {memory}.
Arguments mk_year_group {memory}.
Arguments year {memory}.
Arguments months {memory}.
Arguments latest_year_first {memory}.
Arguments groupMemories {memory}.
Arguments all_items {memory}.
Arguments of_month {memory}.
Arguments as_item {memory}.
Arguments cell {memory}.
Arguments flat_months {memory}.
Arguments flat_years {memory}.
Arguments well_formed {memory}.
Arguments newest {memory}.
Arguments newest_month_first {memory}.
Arguments valid_dates {memory}.
Arguments newest_date {memory}.

End Chronology.

(* ------------------------------------------------------------------ *)
(** ** A calendar and memories to run the chronology on *)

Module ChronologySamples.

Import Chronology.
Local Open Scope Z_scope.

(** Days since 1970-01-01 of a date of the Gregorian calendar, and back. *)
Definition days_from_civil (y m d : Z) : Z :=
  let y' := if m <=? 2 then y - 1 else y in
  let era := y' / 400 in
  let yoe := y' - era * 400 in
  let doy := (153 * (if 2 <? m then m - 3 else m + 9) + 2) / 5 + d - 1 in
  let doe := yoe * 365 + yoe / 4 - yoe / 100 + doy in
  era * 146097 + doe - 719468.

Definition civil_from_days (z : Z) : Z * Z * Z :=
  let z' := z + 719468 in
  let era := z' / 146097 in
  let doe := z' - era * 146097 in
  let yoe := (doe - doe / 1460 + doe / 36524 - doe / 146096) / 365 in
  let doy := doe - (365 * yoe + yoe / 4 - yoe / 100) in
  let mp := (5 * doy + 2) / 153 in
  let d := doy - (153 * mp + 2) / 5 + 1 in
  let m := if mp <? 10 then mp + 3 else mp - 9 in
  (if m <=? 2 then yoe + era * 400 + 1 else yoe + era * 400, m, d).

Definition ms_per_day : Z := 86400000.

(** The time value of a date and time of day in UTC. *)
Definition utc (y m d hours minutes : Z) : Z :=
  days_from_civil y m d * ms_per_day + hours * 3600000 + minutes * 60000.

(** [getFullYear()] for a browser whose time zone is UTC. *)
Definition utc_year (t : Z) : Z :=
  let '(y, _, _) := civil_from_days (t / ms_per_day) in y.

Definition utc_month (t : Z) : Z :=
  let '(_, m, _) := civil_from_days (t / ms_per_day) in m.

Definition utc_day (t : Z) : Z :=
  let '(_, _, d) := civil_from_days (t / ms_per_day) in d.

Definition month_names : list string :=
  ["January"; "February"; "March"; "April"; "May"; "June"; "July"; "August";
   "September"; "October"; "November"; "December"]%string.

Definition short_month_names : list string :=
  ["JAN"; "FEB"; "MAR"; "APR"; "MAY"; "JUN"; "JUL"; "AUG"; "SEP"; "OCT";
   "NOV"; "DEC"]%string.

(** The long month name in English. *)
Definition english_month (t : Z) : string :=
  nth (Z.to_nat (utc_month t - 1)) month_names ""%string.

Definition digit_char (d : Z) : string :=
  String (ascii_of_N (48 + Z.to_N d)) EmptyString.

Definition day_number (d : Z) : string :=
  if d <? 10 then digit_char d
  else (digit_char (d / 10) ++ digit_char (d mod 10))%string.

(** The short month and the day in English, in upper case. *)
Definition english_day (t : Z) : string :=
  (nth (Z.to_nat (utc_month t - 1)) short_month_names "" ++ " "
   ++ day_number (utc_day t))%string.

(** A memory of the chronology: its id, its summary, the time value of its
    [created_at]. *)
Record note : Type := mk_note {
  note_id : Z;
  note_summary : string;
  note_created_at : Z
}.

(** The six memories the component falls back to, their summaries cut
    short. *)
Definition menagerie : note :=
  mk_note 1 "Finished reading The Paper Menagerie." (utc 2023 11 12 10 0).
Definition archives : note :=
  mk_note 2 "Idea for a new project." (utc 2023 11 15 14 30).
Definition coffee : note :=
  mk_note 3 "Coffee with Sarah." (utc 2023 11 20 16 0).
Definition chapter : note :=
  mk_note 4 "Drafted the first chapter of my book." (utc 2023 11 27 9 0).
Definition plasticity : note :=
  mk_note 5 "Observations on neural plasticity." (utc 2023 10 12 11 0).
Definition bookbinder : note :=
  mk_note 6 "Initial thoughts on the design system." (utc 2022 12 5 15 0).

Definition mock_memories : list note :=
  [menagerie; archives; coffee; chapter; plasticity; bookbinder].

Definition group_in_english (ms : list note) : list (year_group note) :=
  groupMemories note_created_at utc_year english_month english_day ms.

(** What the grouping makes of them. *)
Definition november : month_group note :=
  mk_month_group "November"
    [ mk_item chapter "NOV 27"; mk_item coffee "NOV 20";
      mk_item archives "NOV 15"; mk_item menagerie "NOV 12" ].

Definition october : month_group note :=
  mk_month_group "October" [ mk_item plasticity "OCT 12" ].

Definition december : month_group note :=
  mk_month_group "December" [ mk_item bookbinder "DEC 5" ].

Definition mock_groups : list (year_group note) :=
  [ mk_year_group 2023 [november; october]; mk_year_group 2022 [december] ].

End ChronologySamples.

(* ------------------------------------------------------------------ *)
(** ** The browser side: session storage, the HTTP client, sign-in *)

Module Client.

Local Open Scope string_scope.

(** A string-keyed store of strings, as [localStorage] and the headers of a
    request are: the entries with distinct keys, read by key only. *)
Definition store : Type := list (string * string).

Definition getItem (key : string) (st : store) : option string :=
  match find (fun kv => String.eqb (fst kv) key) st with
  | Some kv => Some (snd kv)
  | None => None
  end.

Definition removeItem (key : string) (st : store) : store :=
  filter (fun kv => negb (String.eqb (fst kv) key)) st.

Definition setItem (key value : string) (st : store) : store :=
  (key, value) :: removeItem key st.

(** A value found in a JSON answer where a token, an address or a message
    is expected: absent, null, a boolean, a string, or any other value (a
    number, an array, an object).  Of such a value the code observes two
    things only: whether it is truthy, and the string it is converted to
    when it is stored, if the conversion does not throw (it throws for an
    object whose [toString] and [valueOf] give no primitive). *)
Inductive value : Type :=
| Undefined
| Null
| Bool (b : bool)
| Str (s : string)
| Other (is_truthy : bool) (as_string : option string).

(** What [if (v)] and [v || w] test. *)
Definition truthy (v : value) : bool :=
  match v with
  | Undefined | Null => false
  | Bool b => b
  | Str s => negb (String.eqb s "")
  | Other b _ => b
  end.

(** The string [setItem] stores for a value; none when the conversion
    throws. *)
Definition to_string (v : value) : option string :=
  match v with
  | Undefined => Some "undefined"
  | Null => Some "null"
  | Bool true => Some "true"
  | Bool false => Some "false"
  | Str s => Some s
  | Other _ s => s
  end.

(** The empty array: truthy, and the empty string once converted. *)
Definition empty_array : value := Other true (Some "").

(** [a || b] *)
Definition or_else (a b : value) : value := if truthy a then a else b.

Definition TOKEN_KEY : string := "access_token".
Definition EMAIL_KEY : string := "user_email".

(** *** api.js *)

(** The headers [axios.create] is given; [auth_key] is the public key of
    the environment, which may be missing. *)
Definition default_headers (auth_key : option string) : store :=
  ("Content-Type", "application/json")
  :: match auth_key with
     | Some k => [("X-Auth-Key", k)]
     | None => []
     end.

(** The request interceptor: the token of the session, when there is one,
    goes into the [Authorization] header. *)
Definition inject_jwt (session : store) (headers : store) : store :=
  match getItem TOKEN_KEY session with
  | Some token =>
      if negb (String.eqb token "")
      then setItem "Authorization" ("Bearer " ++ token) headers
      else headers
  | None => headers
  end.

(** A failed request as the response interceptor sees it: the status of the
    response, if there was a response, its [data.detail], and the message
    of the error. *)
Record failure : Type := mk_failure {
  status : option Z;
  detail : value;
  message : value
}.

(** [error.response?.data?.detail || error.message || '...'] *)
Definition describe (e : failure) : value :=
  or_else (or_else (detail e) (message e)) (Str "An unexpected error occurred").

(** The response interceptor on a failure: a 401 clears the session and
    reloads the page; the failure is handed on in every case.  The result is
    the session afterwards and whether the page reloads. *)
Definition on_failure (e : failure) (session : store) : store * bool :=
  match status e with
  | Some 401%Z =>
      (removeItem EMAIL_KEY (removeItem TOKEN_KEY session), true)
  | _ => (session, false)
  end.

(** The data of an answer as [login] and [register] read it: null or
    undefined, off which no property can be read, or any other value, with
    what reading [access_token] and [email] off it gives.  (The data of an
    answer with an empty body is the empty string, off which both read as
    undefined, as they do off a number or an array.) *)
Inductive body : Type :=
| NullData
| Body (access_token email : value).

(** How a request ends. *)
Inductive reply (A : Type) : Type :=
| Resolved (data : A)
| Rejected (e : failure).

Arguments Resolved {A} data.
Arguments Rejected {A} e.

(** What comes back from [api.post]/[api.get] once the interceptors ran,
    given how the call ends: with the data it resolves to, or with the
    failure it is rejected with.  (Beneath the interceptors axios-retry
    sends a request again, up to three times, after a network error, a
    timeout or, for an idempotent request, an answer of status 5xx; how
    often a request is sent is not modelled, [r] is how the call ends in
    the end.) *)
Definition through_interceptors {A : Type} (r : reply A) (session : store)
  : store * bool * reply A :=
  match r with
  | Resolved d => (session, false, Resolved d)
  | Rejected e =>
      let (session', reload) := on_failure e session in
      (session', reload, Rejected e)
  end.

(** *** auth.js *)

Definition logout (session : store) : store :=
  removeItem EMAIL_KEY (removeItem TOKEN_KEY session).

Definition isAuthenticated (session : store) : bool :=
  match getItem TOKEN_KEY session with
  | Some token => negb (String.eqb token "")
  | None => false
  end.

Definition getUserEmail (session : store) : option string :=
  getItem EMAIL_KEY session.

(** How [login] and [register] end for their caller. *)
Inductive ending : Type :=
| Returned (data : body)
| Threw.

(** The common body of [login] and [register], given how the request to the
    server ends: the session afterwards, whether the page reloads, and the
    ending.  Reading [access_token] off null data throws, and so does
    [setItem] for a value that cannot be converted to a string; the [catch]
    clause treats both like a failed request. *)
Definition sign_in (r : reply body) (session : store) : store * bool * ending :=
  match through_interceptors r session with
  | (session', reload, Resolved (Body token email)) =>
      if truthy token
      then match to_string token with
           | Some t =>
               let with_token := setItem TOKEN_KEY t session' in
               match to_string email with
               | Some e =>
                   (setItem EMAIL_KEY e with_token, reload,
                    Returned (Body token email))
               | None => (logout with_token, reload, Threw)
               end
           | None => (logout session', reload, Threw)
           end
      else (session', reload, Returned (Body token email))
  | (session', reload, Resolved NullData) => (logout session', reload, Threw)
  | (session', reload, Rejected _) => (logout session', reload, Threw)
  end.

(** The request [login] and [register] post: the path and the fields. *)
Record request : Type := mk_request {
  url : string;
  fields : list (string * string);
  headers : store
}.

Definition login_request (auth_key : option string) (session : store)
  (email password : string) : request :=
  mk_request "/auth/login" [("email", email); ("password", password)]
    (inject_jwt session (default_headers auth_key)).

Definition register_request (auth_key : option string) (session : store)
  (email password name : string) : request :=
  mk_request "/auth/register"
    [("email", email); ("password", password); ("name", name)]
    (inject_jwt session (default_headers auth_key)).

Definition login (auth_key : option string) (email password : string)
  (server : request -> reply body) (session : store) : store * bool * ending :=
  sign_in (server (login_request auth_key session email password)) session.

Definition register (auth_key : option string) (email password name : string)
  (server : request -> reply body) (session : store) : store * bool * ending :=
  sign_in (server (register_request auth_key session email password name))
    session.

(** The token and the address are stored together or not at all. *)
Definition paired (session : store) : Prop :=
  getItem TOKEN_KEY session = None <-> getItem EMAIL_KEY session = None.

(** Sample servers and a sample session. *)
Definition grant (token email : string) (_ : request) : reply body :=
  Resolved (Body (Str token) (Str email)).

Definition refuse (code : Z) (_ : request) : reply body :=
  Rejected (mk_failure (Some code) (Str "Invalid credentials") (Str "Request failed")).

Definition signed_in : store :=
  [("theme", "dark"); ("access_token", "abc"); ("user_email", "a@archive.ai")].

End Client.

(* ------------------------------------------------------------------ *)
(** ** The views: the oracle, the studio, the feed, a card *)

Module Views.

Import Client.
Local Open Scope string_scope.

(** *** Text typed by the user *)

(** A JavaScript string as its UTF-16 code units. *)
Definition text : Type := list N.

(** The code units [trim] removes: white space and line terminators. *)
Definition is_space (c : N) : bool :=
  (existsb (N.eqb c)
     [9; 10; 11; 12; 13; 32; 160; 5760; 8232; 8233; 8239; 8287; 12288; 65279]
   || ((8192 <=? c) && (c <=? 8202)))%N.

Fixpoint trim_start (s : text) : text :=
  match s with
  | c :: rest => if is_space c then trim_start rest else s
  | [] => []
  end.

Definition trim_end (s : text) : text := rev (trim_start (rev s)).

(** [String.prototype.trim] *)
Definition trim (s : text) : text := trim_end (trim_start s).

(** [!s.trim()]: the empty string is falsy. *)
Definition blank (s : text) : bool :=
  match trim s with [] => true | _ => false end.

(** A text with no white space at either end. *)
Definition trimmed (s : text) : Prop :=
  (forall c rest, s = c :: rest -> is_space c = false) /\
  (forall c front, s = (front ++ [c])%list -> is_space c = false).

(** *** Oracle.jsx *)

(** The state of the component; [result] is what the server answered, none
    while there is no answer. *)
Record oracle (A : Type) : Type := mk_oracle {
  query : text;
  result : option A;
  oracle_loading : bool;
  oracle_error : string
}.

Arguments mk_oracle {A}.
Arguments query {A}.
Arguments result {A}.
Arguments oracle_loading {A}.
Arguments oracle_error {A}.

(** The body of the POST to [/query]. *)
Record inquiry : Type := mk_inquiry {
  inquiry_query : text;
  include_summary : bool;
  top_k : Z
}.

Definition silent : string :=
  "The Oracle is currently silent. Please try again later.".

(** [handleInquiry], given how the call of [api.post] ends for the body it
    is handed: the body handed to [api.post], if the handler gets that far,
    the state once the handler is through, the session storage and whether
    the page reloads (the call goes through the interceptors). *)
Definition handleInquiry {A : Type} (post : inquiry -> reply A)
  (st : oracle A) (session : store)
  : option inquiry * oracle A * store * bool :=
  if blank (query st) then (None, st, session, false)
  else
    let sent := mk_inquiry (trim (query st)) true 5 in
    match through_interceptors (post sent) session with
    | (session', reload, Resolved data) =>
        (Some sent, mk_oracle (query st) (Some data) false "", session',
         reload)
    | (session', reload, Rejected _) =>
        (Some sent, mk_oracle (query st) None false silent, session', reload)
    end.

(** *** Studio (in Layout.jsx) *)

Record studio : Type := mk_studio {
  content : text;
  studio_loading : bool;
  isFocused : bool
}.

(** [handleCommit], given how the call of [api.post] ends for the content
    it is handed: the content handed to [api.post] for [/upload], if the
    handler gets that far, the state afterwards, whether [onEntrySaved] was
    called ([has_callback] tells whether the parent gave one), the session
    storage and whether the page reloads. *)
Definition handleCommit {A : Type} (has_callback : bool)
  (post : text -> reply A) (st : studio) (session : store)
  : option text * studio * bool * store * bool :=
  if blank (content st) then (None, st, false, session, false)
  else
    let sent := trim (content st) in
    match through_interceptors (post sent) session with
    | (session', reload, Resolved _) =>
        (Some sent, mk_studio [] false (isFocused st), has_callback, session',
         reload)
    | (session', reload, Rejected _) =>
        (Some sent, mk_studio (content st) false (isFocused st), false,
         session', reload)
    end.

(** The seal button: [disabled={loading || !content.trim()}]. *)
Definition seal_disabled (st : studio) : bool :=
  studio_loading st || blank (content st).

(** *** MemoryFeed.jsx *)

Record feed (M : Type) : Type := mk_feed {
  memories : list M;
  feed_loading : bool;
  feed_error : string
}.

Arguments mk_feed {M}.
Arguments memories {M}.
Arguments feed_loading {M}.
Arguments feed_error {M}.

(** The state the component starts in. *)
Definition feed_mounted {M : Type} : feed M := mk_feed [] true "".

Definition unreachable : string := "The archives could not be reached.".

(** [fetchMemories], given how the GET of [/memories] ends and the
    memories the component falls back to. *)
Definition fetchMemories {M : Type} (mock : list M) (r : reply (list M))
  (st : feed M) (session : store) : feed M * store * bool :=
  match through_interceptors r session with
  | (session', reload, Resolved data) =>
      (mk_feed data false (feed_error st), session', reload)
  | (session', reload, Rejected _) =>
      (mk_feed mock false unreachable, session', reload)
  end.

(** What the component renders. *)
Inductive feed_view (M : Type) : Type :=
| Consulting
| Failed (message : string)
| Silent
| Stack (cards : list M).

Arguments Consulting {M}.
Arguments Failed {M} message.
Arguments Silent {M}.
Arguments Stack {M} cards.

Definition render_feed {M : Type} (st : feed M) : feed_view M :=
  if feed_loading st then Consulting
  else if negb (String.eqb (feed_error st) "") then Failed (feed_error st)
  else match memories st with
       | [] => Silent
       | cards => Stack cards
       end.

(** *** MemoryCard.jsx *)

(** The field [retention_score] of a memory as the server sent it: absent,
    null, or a number. *)
Inductive score_field : Type :=
| Absent
| JsonNull
| Number (q : Q).

(** The number a comparison makes of the field; none stands for NaN, which
    [undefined] turns into, and null turns into 0. *)
Definition to_number (v : score_field) : option Q :=
  match v with
  | Absent => None
  | JsonNull => Some 0%Q
  | Number q => Some q
  end.

(** [a < b]: false as soon as one side is NaN. *)
Definition less (a b : option Q) : bool :=
  match a, b with
  | Some x, Some y => match (x ?= y)%Q with Lt => true | _ => false end
  | _, _ => false
  end.

(** The literals [0.5] and [0.8] as the doubles they denote. *)
Definition half : Q := 1 # 2.
Definition four_fifths : Q := 3602879701896397 # 4503599627370496.

Definition isFading (retention_score : score_field) : bool :=
  less (to_number retention_score) (Some half).

Definition isStrong (retention_score : score_field) : bool :=
  less (Some four_fifths) (to_number retention_score).

(** The class attribute of the card. *)
Definition card_class (retention_score : score_field) (is_resurfaced : bool)
  : string :=
  "memory-card " ++ (if isFading retention_score then "fading" else "")
  ++ " " ++ (if is_resurfaced then "resurfaced" else "")
  ++ " " ++ (if isStrong retention_score then "strong" else "").

(** *** Chronology.jsx, the component *)

Section ChronologyView.

Variable memory : Type.
Variable created_at : memory -> Z.
Variable year_of : Z -> Z.
Variable month_name : Z -> string.
Variable day_label : Z -> string.

Record chronology : Type := mk_chronology {
  groups : list (Chronology.year_group memory);
  chronology_loading : bool;
  chronology_error : string
}.

Definition chronology_mounted : chronology := mk_chronology [] true "".

Definition unrolled : string := "The scrolls of time could not be unrolled.".

(** [fetchAndGroupMemories] *)
Definition fetchAndGroupMemories (mock : list memory) (r : reply (list memory))
  (st : chronology) (session : store) : chronology * store * bool :=
  match through_interceptors r session with
  | (session', reload, Resolved data) =>
      (mk_chronology
         (Chronology.groupMemories created_at year_of month_name day_label data)
         false (chronology_error st),
       session', reload)
  | (session', reload, Rejected _) =>
      (mk_chronology
         (Chronology.groupMemories created_at year_of month_name day_label mock)
         false unrolled,
       session', reload)
  end.

Inductive chronology_view : Type :=
| Unrolling
| Unreadable (message : string)
| Years (sections : list (Chronology.year_group memory)).

Definition render_chronology (st : chronology) : chronology_view :=
  if chronology_loading st then Unrolling
  else if negb (String.eqb (chronology_error st) "")
       then Unreadable (chronology_error st)
       else Years (groups st).

(** The memories a view shows, section after section. *)
Definition shown (v : chronology_view) : list memory :=
  match v with
  | Years sections =>
      map (@Chronology.item_memory memory) (Chronology.all_items sections)
  | _ => []
  end.

End ChronologyView.

Arguments groups {memory}.
Arguments chronology_loading {memory}.
Arguments chronology_error {memory}.
Arguments chronology_mounted {memory}.
Arguments fetchAndGroupMemories {memory}.
Arguments Unrolling {memory}.
Arguments Unreadable {memory} message.
Arguments Years {memory} sections.
Arguments render_chronology {memory}.
Arguments shown {memory}.

(** *** App.jsx: the session across a reload, signing out *)

Record app : Type := mk_app {
  isLogin : bool;
  view : string;
  email : string;
  password : string;
  name : string;
  user : option (option string);  (* null, or the object with its email *)
  app_error : string;
  app_loading : bool;
  refreshKey : nat
}.

(** The state [useState] starts the application in. *)
Definition app_started : app := mk_app true "feed" "" "" "" None "" false 0.

(** The effect that runs once the application is mounted. *)
Definition on_mount (session : store) (a : app) : app :=
  if isAuthenticated session
  then mk_app (isLogin a) (view a) (email a) (password a) (name a)
         (Some (getUserEmail session)) (app_error a) (app_loading a)
         (refreshKey a)
  else a.

Definition handleLogout (a : app) (session : store) : app * store :=
  (mk_app (isLogin a) "feed" "" "" "" None (app_error a) (app_loading a)
     (refreshKey a),
   logout session).

(** What the application shows after the page was loaded afresh on a
    session storage. *)
Definition reloaded (session : store) : app := on_mount session app_started.

(** Sample text: "hi" between a space and a line feed, and a call that ends
    with a network error, the server being down. *)
Definition padded : text := [32; 104; 105; 10]%N.

Definition down {A B : Type} (_ : A) : reply B :=
  Rejected (mk_failure None Undefined (Str "Network Error")).

End Views.

(* ------------------------------------------------------------------ *)
(** ** Facts on the order of [float] values *)

Module Float8Facts.

Import Float8.

Lemma float8_le_finite (x y : Q) :
  float8_le (Finite x) (Finite y) = true <-> (x <= y)%Q.
Proof.
  unfold float8_le; simpl. rewrite Qle_alt.
  destruct (x ?= y)%Q; split; intro H; try congruence; try discriminate.
Qed.

Lemma float8_le_total (a b : float8) :
  float8_le a b = true \/ float8_le b a = true.
Proof.
  destruct a as [x| | |], b as [y| | |]; simpl; auto.
  rewrite !float8_le_finite. destruct (Qlt_le_dec y x) as [H|H].
  - right. apply Qlt_le_weak, H.
  - left. exact H.
Qed.

Lemma float8_le_trans (a b c : float8) :
  float8_le a b = true -> float8_le b c = true -> float8_le a c = true.
Proof.
  destruct a as [x| | |], b as [y| | |], c as [z| | |];
    try (intros; reflexivity); try (intros; discriminate).
  rewrite !float8_le_finite. apply Qle_trans.
Qed.

Lemma float8_gt_not_le (a b : float8) :
  float8_gt a b = true <-> float8_le a b = false.
Proof.
  unfold float8_gt, float8_le. destruct (float8_cmp a b); split; congruence.
Qed.

(** What [>] says: greater as numbers, or NaN against a number. *)
Lemma float8_gt_cases (a b : float8) :
  float8_gt a b = true <-> number_gt a b \/ (a = NaN /\ b <> NaN).
Proof.
  unfold float8_gt.
  destruct a as [x| | |], b as [y| | |]; simpl;
    try (split; [discriminate|intros [[]|[H1 H2]]; congruence]);
    try (split; [intros _; left; exact I|reflexivity]);
    try (split; [intros _; right; split; congruence|reflexivity]).
  rewrite Qlt_alt.
  replace (y ?= x)%Q with (CompOpp (x ?= y)%Q) by apply Qcompare_antisym.
  destruct (x ?= y)%Q eqn:E; simpl; split; try discriminate; try reflexivity;
    try (intros _; left; reflexivity);
    intros [H|[H _]]; congruence.
Qed.

Lemma float8_cmp_antisym (a b : float8) :
  float8_cmp b a = CompOpp (float8_cmp a b).
Proof.
  destruct a as [x| | |], b as [y| | |]; simpl; try reflexivity.
  symmetry. apply Qcompare_antisym.
Qed.

(** Two values each of which is at most the other compare equal. *)
Lemma float8_le_antisym (a b : float8) :
  float8_le a b = true -> float8_le b a = true -> float8_eq a b = true.
Proof.
  unfold float8_le, float8_eq. rewrite (float8_cmp_antisym a b).
  destruct (float8_cmp a b); simpl; congruence.
Qed.

Lemma one_minus_nan (d : float8) : float8_mi one d = NaN -> d = NaN.
Proof. destruct d; simpl; intro H; congruence. Qed.


End Float8Facts.

(* ------------------------------------------------------------------ *)
(** ** Facts on [order_by] *)

Module OrderingFacts.

Import Ordering.

Section Sorting.

Variable A : Type.
Variable le : A -> A -> bool.

Lemma insert_sorted_perm (x : A) (l : list A) :
  Permutation (x :: l) (insert_sorted le x l).
Proof.
  induction l as [|y l IH]; simpl.
  - apply Permutation_refl.
  - destruct (le x y).
    + apply Permutation_refl.
    + eapply Permutation_trans; [apply perm_swap|].
      apply perm_skip, IH.
Qed.

Lemma order_by_perm (l : list A) : Permutation l (order_by le l).
Proof.
  induction l as [|x l IH]; simpl.
  - constructor.
  - eapply Permutation_trans; [apply perm_skip, IH|].
    apply insert_sorted_perm.
Qed.

Lemma order_by_length (l : list A) :
  List.length (order_by le l) = List.length l.
Proof. symmetry. apply Permutation_length, order_by_perm. Qed.

Lemma order_by_In (l : list A) (x : A) : In x (order_by le l) -> In x l.
Proof.
  intro H. eapply Permutation_in; [|exact H].
  apply Permutation_sym, order_by_perm.
Qed.

Lemma order_by_Forall (P : A -> Prop) (l : list A) :
  Forall P l -> Forall P (order_by le l).
Proof.
  intro H. eapply Permutation_Forall; [apply order_by_perm|exact H].
Qed.

Hypothesis le_total : forall a b, le a b = true \/ le b a = true.
Hypothesis le_trans : forall a b c, le a b = true -> le b c = true -> le a c = true.

Lemma insert_sorted_sorted (x : A) (l : list A) :
  StronglySorted (fun a b => le a b = true) l ->
  StronglySorted (fun a b => le a b = true) (insert_sorted le x l).
Proof.
  induction 1 as [|y l Hs IH Hy]; simpl.
  - constructor; constructor.
  - destruct (le x y) eqn:E.
    + constructor; [constructor; assumption|].
      constructor; [exact E|].
      eapply Forall_impl; [|exact Hy].
      intros z Hz. eapply le_trans; eassumption.
    + constructor; [exact IH|].
      eapply Permutation_Forall; [apply insert_sorted_perm|].
      constructor; [|exact Hy].
      destruct (le_total x y) as [H|H]; congruence.
Qed.

Lemma order_by_sorted (l : list A) :
  StronglySorted (fun a b => le a b = true) (order_by le l).
Proof.
  induction l as [|x l IH]; simpl.
  - constructor.
  - apply insert_sorted_sorted, IH.
Qed.

(** When the key tells every two elements apart there is one sorted
    arrangement only. *)
Lemma sorted_perm_unique (l1 l2 : list A) :
  (forall a b, In a l1 -> In b l1 -> le a b = true -> le b a = true -> a = b) ->
  StronglySorted (fun a b => le a b = true) l1 ->
  StronglySorted (fun a b => le a b = true) l2 ->
  Permutation l1 l2 -> l1 = l2.
Proof.
  revert l2. induction l1 as [|a l1 IH]; intros l2 Hanti H1 H2 Hp.
  - apply Permutation_nil in Hp. congruence.
  - destruct l2 as [|b l2].
    { apply Permutation_sym, Permutation_nil in Hp. discriminate. }
    inversion H1 as [|? ? Hs1 Ha]; subst.
    inversion H2 as [|? ? Hs2 Hb]; subst.
    rewrite Forall_forall in Ha, Hb.
    assert (Hab : a = b).
    { assert (Hina : In a (b :: l2))
        by (eapply Permutation_in; [exact Hp|left; reflexivity]).
      assert (Hinb : In b (a :: l1))
        by (eapply Permutation_in;
            [apply Permutation_sym, Hp|left; reflexivity]).
      destruct Hina as [E|Hina]; [congruence|].
      destruct Hinb as [E|Hinb]; [congruence|].
      apply Hanti.
      - left. reflexivity.
      - right. exact Hinb.
      - apply Ha, Hinb.
      - apply Hb, Hina. }
    subst b. f_equal. apply IH.
    + intros x y Hx Hy. apply Hanti; right; assumption.
    + exact Hs1.
    + exact Hs2.
    + eapply Permutation_cons_inv. exact Hp.
Qed.

End Sorting.

Section Lists.

Variable A : Type.
Variable R : A -> A -> Prop.

Lemma StronglySorted_firstn (n : nat) (l : list A) :
  StronglySorted R l -> StronglySorted R (firstn n l).
Proof.
  intro H. revert n. induction H as [|x l Hs IH Hx]; intro n.
  - rewrite firstn_nil. constructor.
  - destruct n as [|n]; simpl; [constructor|]. constructor.
    + apply IH.
    + rewrite Forall_forall in *. intros y Hy. apply Hx.
      rewrite <- (firstn_skipn n l). apply in_or_app. left. exact Hy.
Qed.

(** In a sorted list every element of a prefix is before every element of
    the rest. *)
Lemma StronglySorted_app (l1 l2 : list A) :
  StronglySorted R (l1 ++ l2) ->
  Forall (fun b => Forall (fun a => R a b) l1) l2.
Proof.
  induction l1 as [|x l1 IH]; simpl; intro H.
  - rewrite Forall_forall. intros; constructor.
  - inversion H as [|? ? Hs Hx]; subst.
    specialize (IH Hs). rewrite Forall_forall in *.
    intros b Hb. constructor.
    + apply Hx. apply in_or_app. right. exact Hb.
    + apply IH, Hb.
Qed.

Lemma StronglySorted_map (B : Type) (f : B -> A) (l : list B) :
  StronglySorted (fun a b => R (f a) (f b)) l -> StronglySorted R (map f l).
Proof.
  induction 1 as [|x l Hs IH Hx]; simpl; constructor.
  - exact IH.
  - rewrite Forall_forall in *. intros y Hy.
    apply in_map_iff in Hy. destruct Hy as [z [<- Hz]]. apply Hx, Hz.
Qed.

Lemma StronglySorted_impl (R' : A -> A -> Prop) (l : list A) :
  (forall a b, R a b -> R' a b) -> StronglySorted R l -> StronglySorted R' l.
Proof.
  intros HR. induction 1 as [|x l Hs IH Hx]; constructor.
  - exact IH.
  - eapply Forall_impl; [|exact Hx]. intros; apply HR; assumption.
Qed.

Lemma StronglySorted_impl_In (R' : A -> A -> Prop) (l : list A) :
  (forall a b, In a l -> In b l -> R a b -> R' a b) ->
  StronglySorted R l -> StronglySorted R' l.
Proof.
  intros HR Hs. induction Hs as [|x l Hs IH Hx]; constructor.
  - apply IH. intros a b Ha Hb. apply HR; right; assumption.
  - rewrite Forall_forall in *. intros y Hy.
    apply HR; [left; reflexivity|right; exact Hy|apply Hx, Hy].
Qed.

End Lists.


End OrderingFacts.

(* ------------------------------------------------------------------ *)
(** ** [match_memories]: threshold, limit, owner, order *)

Module MatchFacts.

Import Float8 Sql Ordering Schema Float8Facts OrderingFacts.

Create HintDb pg discriminated.
#[local] Hint Resolve float8_le_total float8_le_trans : pg.

Ltac inv_ok H := simpl in H; inversion H; subst; clear H.

Section Match.

Variable cosine_distance : vector -> vector -> float8.

Lemma scan_sound q thr uid t rows :
  scan cosine_distance q thr uid t = Ok rows ->
  Forall (fun md => In (fst md) t /\ passes cosine_distance q thr uid md) rows.
Proof.
  revert rows. induction t as [|m t IH]; intros rows H.
  - inv_ok H. constructor.
  - assert (Hweak : forall rs,
               Forall (fun md => In (fst md) t
                                 /\ passes cosine_distance q thr uid md) rs ->
               Forall (fun md => In (fst md) (m :: t)
                                 /\ passes cosine_distance q thr uid md) rs).
    { intros rs Hrs. eapply Forall_impl; [|exact Hrs].
      intros md [Hin Hp]. split; [right; exact Hin|exact Hp]. }
    simpl in H.
    destruct uid as [u|]; simpl in H; [|apply Hweak, IH, H].
    destruct (N.eqb (user_id m) u) eqn:Eu; [|apply Hweak, IH, H].
    apply N.eqb_eq in Eu.
    unfold cosine_op in H.
    destruct (embedding m) as [e|] eqn:Ee.
    + destruct q as [qv|].
      * destruct (Nat.eqb (dims e) (dims qv)); [|discriminate].
        simpl in H.
        destruct (scan cosine_distance (Some qv) thr (Some u) t)
          as [rest|] eqn:Er; [|discriminate].
        simpl in H. specialize (IH rest eq_refl).
        destruct thr as [th|]; simpl in H.
        -- destruct (float8_gt (similarity_of (cosine_distance e qv)) th) eqn:Eg;
             inv_ok H; [|apply Hweak, IH].
           constructor; [|apply Hweak, IH].
           split; [left; reflexivity|].
           split; [simpl; congruence|].
           exists e, qv, th. simpl. auto.
        -- inv_ok H. apply Hweak, IH.
      * simpl in H.
        destruct (scan cosine_distance None thr (Some u) t)
          as [rest|] eqn:Er; [|discriminate].
        inv_ok H. apply Hweak, IH. reflexivity.
    + simpl in H.
      destruct (scan cosine_distance q thr (Some u) t)
        as [rest|] eqn:Er; [|discriminate].
      inv_ok H. apply Hweak, IH. reflexivity.
Qed.

(** The scan misses no row of the owner whose similarity is above the
    threshold. *)
Lemma scan_complete q thr uid t rows m e qv th :
  scan cosine_distance q thr uid t = Ok rows ->
  In m t -> uid = Some (user_id m) -> embedding m = Some e ->
  q = Some qv -> thr = Some th ->
  float8_gt (similarity_of (cosine_distance e qv)) th = true ->
  In (m, cosine_distance e qv) rows.
Proof.
  intros H Hin -> He -> -> Hgt. revert rows H.
  induction t as [|m' t IH]; intros rows H; [contradiction|].
  simpl in H.
  destruct (N.eqb (user_id m') (user_id m)) eqn:Eu; simpl in H.
  - unfold cosine_op in H.
    destruct (embedding m') as [e'|] eqn:Ee'.
    + destruct (Nat.eqb (dims e') (dims qv)); [|discriminate]. simpl in H.
      destruct (scan cosine_distance (Some qv) (Some th) (Some (user_id m)) t)
        as [rest|] eqn:Er; [|discriminate].
      simpl in H.
      destruct Hin as [->|Hin].
      * rewrite He in Ee'. inversion Ee'; subst e'. rewrite Hgt in H.
        inv_ok H. left. reflexivity.
      * specialize (IH Hin rest eq_refl).
        destruct (float8_gt (similarity_of (cosine_distance e' qv)) th);
          inv_ok H; [right|]; exact IH.
    + simpl in H.
      destruct (scan cosine_distance (Some qv) (Some th) (Some (user_id m)) t)
        as [rest|] eqn:Er; [|discriminate].
      inv_ok H. destruct Hin as [->|Hin]; [congruence|]. apply IH; auto.
  - destruct Hin as [->|Hin]; [rewrite N.eqb_refl in Eu; discriminate|].
    apply IH; assumption.
Qed.

(** The rows [match_memories] is built from: none, or the first rows of the
    sorted scan. *)
Lemma matching_rows_inv q thr cnt uid t rows :
  matching_rows cosine_distance q thr cnt uid t = Ok rows ->
  rows = [] \/
  exists scanned,
    scan cosine_distance q thr uid t = Ok scanned /\
    ((cnt = None /\ rows = order_by by_distance scanned) \/
     (exists n, cnt = Some n /\ (0 < n)%Z /\
                rows = firstn (Z.to_nat n) (order_by by_distance scanned))).
Proof.
  unfold matching_rows. intro H.
  destruct cnt as [n|].
  - destruct (n <? 0)%Z eqn:En; [discriminate|].
    destruct (n =? 0)%Z eqn:E0; [inv_ok H; left; reflexivity|].
    destruct (scan cosine_distance q thr uid t) as [scanned|] eqn:Es; [|discriminate].
    inv_ok H. right. exists scanned. split; [reflexivity|]. right.
    exists n. repeat split. apply Z.ltb_ge in En. apply Z.eqb_neq in E0. lia.
  - destruct (scan cosine_distance q thr uid t) as [scanned|] eqn:Es; [|discriminate].
    inv_ok H. right. exists scanned. split; [reflexivity|]. left. auto.
Qed.

Lemma matching_rows_Forall (P : memories_row * float8 -> Prop)
  q thr cnt uid t rows :
  (forall scanned,
      scan cosine_distance q thr uid t = Ok scanned -> Forall P scanned) ->
  matching_rows cosine_distance q thr cnt uid t = Ok rows ->
  Forall P rows.
Proof.
  intros HP H. apply matching_rows_inv in H.
  destruct H as [->|[scanned [Hs [[_ ->]|[n [_ [_ ->]]]]]]].
  - constructor.
  - apply order_by_Forall, HP, Hs.
  - apply Forall_forall. intros x Hx.
    assert (Hall : Forall P (order_by by_distance scanned))
      by apply order_by_Forall, HP, Hs.
    rewrite Forall_forall in Hall. apply Hall.
    rewrite <- (firstn_skipn (Z.to_nat n) (order_by by_distance scanned)).
    apply in_or_app. left. exact Hx.
Qed.

Lemma matching_rows_sound q thr cnt uid t rows :
  matching_rows cosine_distance q thr cnt uid t = Ok rows ->
  Forall (fun md => In (fst md) t /\ passes cosine_distance q thr uid md) rows.
Proof.
  apply matching_rows_Forall. intros scanned Hs. apply scan_sound, Hs.
Qed.

Lemma matching_rows_limit q thr uid t rows k :
  matching_rows cosine_distance q thr (Some k) uid t = Ok rows ->
  (Z.of_nat (List.length rows) <= k)%Z.
Proof.
  unfold matching_rows. intro H.
  destruct (k <? 0)%Z eqn:En; [discriminate|]. apply Z.ltb_ge in En.
  destruct (k =? 0)%Z; [inv_ok H; simpl; lia|].
  destruct (scan cosine_distance q thr uid t) as [scanned|]; [|discriminate].
  inv_ok H. rewrite length_firstn. lia.
Qed.

Lemma match_memories_inv q thr cnt uid t out :
  match_memories cosine_distance q thr cnt uid t = Ok out ->
  exists rows, matching_rows cosine_distance q thr cnt uid t = Ok rows /\ out = map select_row rows.
Proof.
  unfold match_memories. intro H.
  destruct (matching_rows cosine_distance q thr cnt uid t) as [rows|]; [|discriminate].
  inv_ok H. exists rows. auto.
Qed.

Lemma scan_returns q thr uid t :
  (forall m e qv, In m t -> embedding m = Some e -> q = Some qv ->
                  dims e = dims qv) ->
  exists rows, scan cosine_distance q thr uid t = Ok rows.
Proof.
  induction t as [|m t IH]; intro Hd; simpl; [eexists; reflexivity|].
  destruct IH as [rest Hrest].
  { intros m' e qv Hin. apply Hd. right. exact Hin. }
  rewrite Hrest.
  destruct uid as [u|]; simpl; [|eexists; reflexivity].
  destruct (N.eqb (user_id m) u); simpl; [|eexists; reflexivity].
  unfold cosine_op.
  destruct (embedding m) as [e|] eqn:Ee; [|eexists; reflexivity].
  destruct q as [qv|]; [|eexists; reflexivity].
  rewrite (Hd m e qv (or_introl eq_refl) Ee eq_refl), Nat.eqb_refl. simpl.
  destruct thr as [th|]; simpl; [|eexists; reflexivity].
  destruct (float8_gt (similarity_of (cosine_distance e qv)) th);
    eexists; reflexivity.
Qed.

(** [match_memories] answers whenever the count is not negative and the
    query has the dimension of the stored embeddings. *)
Lemma match_memories_returns q thr cnt uid t :
  (forall n, cnt = Some n -> (0 <= n)%Z) ->
  (forall m e qv, In m t -> embedding m = Some e -> q = Some qv ->
                  dims e = dims qv) ->
  exists out, match_memories cosine_distance q thr cnt uid t = Ok out.
Proof.
  intros Hn Hd. destruct (@scan_returns q thr uid t Hd) as [rows Hrows].
  unfold match_memories, matching_rows. rewrite Hrows.
  destruct cnt as [n|]; simpl; [|eexists; reflexivity].
  specialize (Hn n eq_refl). apply Z.ltb_ge in Hn. rewrite Hn.
  destruct (n =? 0)%Z; eexists; reflexivity.
Qed.

Lemma passes_above_threshold_or_nan q thr uid t m d :
  In m t -> passes cosine_distance q thr uid (m, d) ->
  above_threshold_or_nan cosine_distance q thr t (select_row (m, d)).
Proof.
  intros Hin [_ [e [qv [th [He [Hq [Ht [Hd Hgt]]]]]]]]. simpl in *.
  exists m, e, qv, th. subst d. repeat split; auto.
  apply float8_gt_cases in Hgt. destruct Hgt as [Hgt|[Hnan Hth]].
  - left. exact Hgt.
  - right. split; [exact Hnan|]. split; [|exact Hth].
    apply one_minus_nan, Hnan.
Qed.

(** C1, as the code has it.  Every row that [match_memories] returns is a
    row of the table with an embedding; its similarity is
    [1 - cosine_distance], and it is the similarity, not the distance, that
    is compared with [match_threshold]: it is a number strictly greater than
    the threshold, or it is NaN, the distance being NaN and the threshold a
    number.  The rows returned are at most [match_count]. *)
Theorem match_memories_above_threshold_or_nan q thr cnt uid t out :
  match_memories cosine_distance q thr cnt uid t = Ok out ->
  Forall (above_threshold_or_nan cosine_distance q thr t) out /\
  (forall k, cnt = Some k -> (Z.of_nat (List.length out) <= k)%Z).
Proof.
  intro H. apply match_memories_inv in H. destruct H as [rows [Hr ->]].
  split.
  - apply Forall_map.
    eapply Forall_impl; [|apply (matching_rows_sound _ _ _ _ _ _ Hr)].
    intros [m d] [Hin Hp].
    apply passes_above_threshold_or_nan with (uid := uid); assumption.
  - intros k ->. rewrite length_map. eapply matching_rows_limit; eassumption.
Qed.

Lemma visible_owner s t m :
  bypass_rls s = false -> In m (visible s t) -> auth_uid s = Some (user_id m).
Proof.
  unfold visible. intros -> H. apply filter_In in H. destruct H as [_ H].
  unfold user_isolation_policy in H.
  destruct (auth_uid s) as [a|]; simpl in H; [|discriminate].
  destruct (N.eqb a (user_id m)) eqn:E; [|discriminate].
  apply N.eqb_eq in E. congruence.
Qed.

(** C2.  A call of [match_memories] for the owner [p_user_id] leaves the
    table as it is, and every row it returns has [user_id = p_user_id]: no
    row of another owner is returned.  When the policy binds the caller the
    rows are moreover the caller's own. *)
Theorem match_memories_owner_isolation s q thr cnt uid t :
  fst (call_match_memories cosine_distance s q thr cnt uid t) = t /\
  forall out,
    snd (call_match_memories cosine_distance s q thr cnt uid t) = Ok out ->
    Forall (fun r => uid = Some (out_user_id r)) out /\
    (forall a b, uid = Some a -> b <> a ->
                 Forall (fun r => out_user_id r <> b) out) /\
    (bypass_rls s = false ->
     Forall (fun r => auth_uid s = Some (out_user_id r)) out).
Proof.
  split; [reflexivity|]. simpl. intros out H.
  apply match_memories_inv in H. destruct H as [rows [Hr ->]].
  pose proof (matching_rows_sound _ _ _ _ _ _ Hr) as Hs.
  assert (Hown : Forall (fun r => uid = Some (out_user_id r))
                   (map select_row rows)).
  { apply Forall_map. eapply Forall_impl; [|exact Hs].
    intros [m d] [_ [Hu _]]. exact Hu. }
  split; [exact Hown|]. split.
  - intros a b -> Hb. eapply Forall_impl; [|exact Hown].
    intros r Hr' Heq. inversion Hr'. congruence.
  - intro Hb. apply Forall_map. eapply Forall_impl; [|exact Hs].
    intros [m d] [Hin _]. simpl in *. eapply visible_owner; eassumption.
Qed.

Lemma NoDup_map_injective (A B : Type) (f : A -> B) (l : list A) (a b : A) :
  NoDup (map f l) -> In a l -> In b l -> f a = f b -> a = b.
Proof.
  induction l as [|x l IH]; simpl; intros Hnd Ha Hb Hf; [contradiction|].
  inversion Hnd as [|? ? Hx Hnd']; subst.
  destruct Ha as [->|Ha], Hb as [->|Hb]; auto.
  - exfalso. apply Hx. rewrite Hf. apply in_map, Hb.
  - exfalso. apply Hx. rewrite <- Hf. apply in_map, Ha.
Qed.

(** C10.  A row whose [embedding] is NULL is never among the rows
    [match_memories] selects: every returned row is the SELECT list of a row
    that has an embedding, and, [id] being the primary key, the [id] of a row
    without embedding is not among the returned ones. *)
Theorem match_memories_skips_null_embedding q thr cnt uid t out :
  match_memories cosine_distance q thr cnt uid t = Ok out ->
  exists rows,
    matching_rows cosine_distance q thr cnt uid t = Ok rows /\
    out = map select_row rows /\
    Forall (fun md => In (fst md) t /\ embedding (fst md) <> None) rows /\
    (forall m, embedding m = None -> ~ In m (map fst rows)) /\
    (NoDup (map id t) ->
     forall m, In m t -> embedding m = None -> ~ In (id m) (map out_id out)).
Proof.
  intro H. apply match_memories_inv in H. destruct H as [rows [Hr ->]].
  pose proof (matching_rows_sound _ _ _ _ _ _ Hr) as Hs.
  assert (Hemb : Forall (fun md => In (fst md) t /\ embedding (fst md) <> None)
                   rows).
  { eapply Forall_impl; [|exact Hs].
    intros [m d] [Hin [_ [e [_ [_ [He _]]]]]]. simpl in *.
    split; [exact Hin|congruence]. }
  exists rows. repeat split; auto.
  - intros m Hm Hin. apply in_map_iff in Hin. destruct Hin as [md [<- Hmd]].
    rewrite Forall_forall in Hemb. apply (Hemb md Hmd). exact Hm.
  - intros Hnd m Hin Hm Hid. rewrite map_map in Hid.
    apply in_map_iff in Hid. destruct Hid as [[m' d] [Hid Hmd]]. simpl in Hid.
    rewrite Forall_forall in Hemb. destruct (Hemb _ Hmd) as [Hin' Hne].
    simpl in *.
    assert (m' = m) by (eapply NoDup_map_injective; eauto).
    congruence.
Qed.

Lemma by_distance_total (a b : memories_row * float8) :
  by_distance a b = true \/ by_distance b a = true.
Proof. unfold by_distance. auto with pg. Qed.

Lemma by_distance_trans (a b c : memories_row * float8) :
  by_distance a b = true -> by_distance b c = true -> by_distance a c = true.
Proof. unfold by_distance. eauto with pg. Qed.





End Match.

Import Examples.

Lemma match_memories_above_threshold_or_nan_witness :
  match_memories unit_cosine_distance (Some east) (Some threshold) (Some 5%Z)
    (Some alice) with_zero_vector = Ok zero_vector_matches /\
  Forall (above_threshold_or_nan unit_cosine_distance (Some east)
            (Some threshold) with_zero_vector)
    zero_vector_matches /\
  (Z.of_nat (List.length zero_vector_matches) <= 5)%Z.
Proof.
  assert (H : match_memories unit_cosine_distance (Some east) (Some threshold)
                (Some 5%Z) (Some alice) with_zero_vector
              = Ok zero_vector_matches)
    by (vm_compute; reflexivity).
  split; [exact H|].
  destruct (match_memories_above_threshold_or_nan
              unit_cosine_distance _ _ _ _ _ _ H) as [Ha Hk].
  split; [exact Ha|apply Hk; reflexivity].
Defined.

(** C1 as the specification words it fails: a note whose embedding is the
    zero vector is returned for the threshold 0.7, and its similarity, NaN,
    is not a number greater than 0.7. *)
Lemma match_memories_nan_similarity_counterexample :
  match_memories unit_cosine_distance (Some east) (Some threshold) (Some 5%Z)
    (Some alice) with_zero_vector = Ok zero_vector_matches /\
  ~ Forall (fun r => number_gt (similarity r) threshold) zero_vector_matches.
Proof.
  split; [vm_compute; reflexivity|].
  intro H. inversion H as [|? ? _ Hrest]; subst.
  inversion Hrest as [|? ? Hnan _]; subst.
  exact Hnan.
Qed.

Lemma match_memories_owner_isolation_witness :
  snd (call_match_memories unit_cosine_distance as_alice (Some east)
         (Some threshold) (Some 5%Z) (Some alice) library) = Ok library_matches /\
  Forall (fun r => Some alice = Some (out_user_id r)) library_matches /\
  Forall (fun r => out_user_id r <> bob) library_matches /\
  Forall (fun r => auth_uid as_alice = Some (out_user_id r)) library_matches.
Proof.
  assert (H : snd (call_match_memories unit_cosine_distance as_alice (Some east)
                     (Some threshold) (Some 5%Z) (Some alice) library)
              = Ok library_matches)
    by (vm_compute; reflexivity).
  split; [exact H|].
  destruct (match_memories_owner_isolation unit_cosine_distance as_alice
              (Some east) (Some threshold) (Some 5%Z) (Some alice) library)
    as [_ Hall].
  destruct (Hall _ H) as [Hown [Hother Hrls]].
  split; [exact Hown|]. split.
  - apply (Hother alice bob eq_refl). discriminate.
  - apply Hrls. reflexivity.
Defined.

Lemma match_memories_skips_null_embedding_witness :
  match_memories unit_cosine_distance (Some east) (Some threshold) (Some 5%Z)
    (Some alice) library = Ok library_matches /\
  In blank_note library /\ embedding blank_note = None /\
  ~ In (id blank_note) (map out_id library_matches).
Proof.
  assert (H : match_memories unit_cosine_distance (Some east) (Some threshold)
                (Some 5%Z) (Some alice) library = Ok library_matches)
    by (vm_compute; reflexivity).
  assert (Hin : In blank_note library).
  { do 4 right. left. vm_compute. reflexivity. }
  split; [exact H|]. split; [exact Hin|]. split; [reflexivity|].
  destruct (match_memories_skips_null_embedding unit_cosine_distance _ _ _ _ _ _ H)
    as [rows [_ [_ [_ [_ Hid]]]]].
  apply Hid; [|exact Hin|reflexivity].
  change (NoDup [1; 2; 3; 4; 5]%Z).
  repeat (constructor; [simpl; intuition discriminate|]). constructor.
Defined.



(** A note whose embedding is the zero vector has distance NaN: it passes
    every finite threshold and comes last, with similarity NaN. *)
Example match_memories_zero_vector_last :
  match_memories unit_cosine_distance (Some east) (Some threshold) (Some 5%Z)
    (Some alice) with_zero_vector
  = Ok [ mk_match 2 alice "text" "summary" one 20 20 0 0 (Finite 1);
         mk_match 1 alice "text" "summary" one 10 10 0 0 NaN ]%Z.
Proof. vm_compute. reflexivity. Qed.

End MatchFacts.

(* ------------------------------------------------------------------ *)
(** ** INSERT: column defaults and the dimension of [embedding] *)

Module InsertFacts.

Import Float8 Sql Schema Examples.
Local Open Scope Z_scope.

Lemma coerce_vector_ok (n : nat) (v r : option vector) :
  coerce_vector n v = Ok r ->
  r = v /\ (forall e, v = Some e -> dims e = n).
Proof.
  unfold coerce_vector. destruct v as [e|].
  - destruct (Nat.eqb (dims e) n) eqn:E; [|discriminate].
    intro H. inversion H; subst. split; [reflexivity|].
    intros e' He'. inversion He'; subst. apply Nat.eqb_eq, E.
  - intro H. inversion H. split; [reflexivity|discriminate].
Qed.

(** The row an INSERT stores holds the embedding that was given, which is
    NULL or of the dimension of the column. *)
Lemma build_row_embedding s now new_id v m :
  build_row s now new_id v = Ok m ->
  embedding m = with_default None (i_embedding v) /\ embedding_ok m.
Proof.
  unfold build_row.
  destruct (coerce_vector embedding_dims (with_default None (i_embedding v)))
    as [e|] eqn:Ee; [|discriminate]. simpl.
  apply coerce_vector_ok in Ee. destruct Ee as [-> Hd].
  destruct (coerce_int4 (with_default (Some 0%Z) (i_access_count v)))
    as [ac|]; [|discriminate]. simpl.
  destruct (coerce_int4 (with_default (Some 0%Z) (i_summary_count v)))
    as [sc|]; [|discriminate]. simpl.
  destruct (negb (bypass_rls s) &&
            negb (is_true (user_isolation_policy s
                             (with_default None (i_user_id v)))));
    [discriminate|].
  destruct (with_default None (i_user_id v)); [|discriminate]. simpl.
  destruct (with_default None (i_raw_text v)); [|discriminate]. simpl.
  destruct (with_default None (i_summary v)); [|discriminate]. simpl.
  destruct (with_default (Some one) (i_importance v)); [|discriminate]. simpl.
  destruct ac; [|discriminate]. simpl.
  destruct sc; [|discriminate]. simpl.
  destruct (with_default (Some now) (i_created_at v)); [|discriminate]. simpl.
  destruct (with_default (Some now) (i_last_accessed_at v)); [|discriminate].
  simpl. intro H. inversion H; subst; clear H. simpl. split; [reflexivity|].
  unfold embedding_ok. simpl.
  destruct (with_default None (i_embedding v)) as [e|]; [|exact I].
  apply Hd. reflexivity.
Qed.

(** C8, as the schema has it.  INSERT keeps every stored embedding either
    NULL or of exactly 1536 dimensions: an embedding of another dimension is
    refused with [DimensionMismatch] and the table stays as it was, and a row
    that is stored holds the embedding that was given. *)
Theorem insert_keeps_embedding_dimension s now new_id v t :
  (Forall embedding_ok t ->
   Forall embedding_ok (fst (exec_insert s now new_id v t))) /\
  (forall e, with_default None (i_embedding v) = Some e ->
             dims e <> embedding_dims ->
             exec_insert s now new_id v t
             = (t, Err (DimensionMismatch embedding_dims (dims e)))) /\
  (forall m, snd (exec_insert s now new_id v t) = Ok m ->
             embedding m = with_default None (i_embedding v) /\ embedding_ok m).
Proof.
  unfold exec_insert. split; [|split].
  - intro Ht. destruct (build_row s now new_id v) as [m|] eqn:Eb; [|exact Ht].
    destruct (existsb (fun m' => (id m' =? new_id)%Z) t); [exact Ht|]. simpl.
    apply Forall_app. split; [exact Ht|]. constructor; [|constructor].
    eapply build_row_embedding. exact Eb.
  - intros e He Hd. unfold build_row, coerce_vector. rewrite He.
    apply Nat.eqb_neq in Hd. rewrite Hd. reflexivity.
  - intros m. destruct (build_row s now new_id v) as [m'|] eqn:Eb;
      [|discriminate].
    destruct (existsb (fun m' => (id m' =? new_id)%Z) t); [discriminate|].
    simpl. intro H. inversion H; subst. eapply build_row_embedding. exact Eb.
Qed.

Lemma insert_keeps_embedding_dimension_witness :
  Forall embedding_ok [] /\
  Forall embedding_ok (fst (exec_insert service 10 1 (note alice (Some north)) [])) /\
  dims [1%Q; 0%Q] <> embedding_dims /\
  exec_insert service 60 6 (note alice (Some [1%Q; 0%Q])) library
  = (library, Err (DimensionMismatch embedding_dims 2)).
Proof.
  assert (H0 : Forall embedding_ok []) by constructor.
  assert (Hd : dims [1%Q; 0%Q] <> embedding_dims) by (vm_compute; discriminate).
  split; [exact H0|]. split; [|split; [exact Hd|]].
  - destruct (insert_keeps_embedding_dimension service 10 1
                (note alice (Some north)) []) as [Hkeep _].
    apply Hkeep, H0.
  - destruct (insert_keeps_embedding_dimension service 60 6
                (note alice (Some [1%Q; 0%Q])) library) as [_ [Hrefuse _]].
    apply (Hrefuse [1%Q; 0%Q] eq_refl Hd).
Defined.

(** C8 as the specification words it fails: the column may be NULL, so a
    note without embedding is stored. *)
Lemma insert_null_embedding_counterexample :
  exec_insert service 50 5 (note alice None) [] = ([blank_note], Ok blank_note)
  /\ ~ Forall has_embedding (fst (exec_insert service 50 5 (note alice None) [])).
Proof.
  split; [reflexivity|].
  intro H. inversion H as [|? ? [e [He _]] _]; subst.
  simpl in He. discriminate.
Qed.

(** C9.  The row that the ingestion path stores has importance 1.0, both
    counters at 0, and [last_accessed_at] equal to [created_at] (both are
    [now()]), so [created_at <= last_accessed_at]; it holds the owner, the
    text, the summary and the embedding that were given. *)
Theorem ingest_defaults s now new_id owner text sum e t m :
  snd (exec_insert s now new_id (ingest_values owner text sum e) t) = Ok m ->
  importance m = Finite 1 /\ access_count m = 0%Z /\ summary_count m = 0%Z /\
  created_at m = now /\ last_accessed_at m = created_at m /\
  (created_at m <= last_accessed_at m)%Z /\
  id m = new_id /\ user_id m = owner /\ raw_text m = text /\ summary m = sum /\
  embedding m = e /\
  fst (exec_insert s now new_id (ingest_values owner text sum e) t) = (t ++ [m])%list.
Proof.
  unfold exec_insert, build_row, ingest_values. simpl.
  destruct (coerce_vector embedding_dims e) as [e'|] eqn:Ee; [|discriminate].
  apply coerce_vector_ok in Ee. destruct Ee as [-> _]. simpl.
  destruct (negb (bypass_rls s) &&
            negb (is_true (user_isolation_policy s (Some owner))));
    [discriminate|]. simpl.
  destruct (existsb (fun m' => (id m' =? new_id)%Z) t); [discriminate|].
  simpl. intro H. inversion H; subst; clear H. simpl.
  repeat split; reflexivity.
Qed.

(** The ingestion succeeds when the policy lets the caller write for this
    owner, the embedding is NULL or of 1536 dimensions, and the identity
    value is new. *)
Lemma ingest_succeeds s now new_id owner text sum e t :
  (bypass_rls s = true \/ auth_uid s = Some owner) ->
  (forall v, e = Some v -> dims v = embedding_dims) ->
  ~ In new_id (map id t) ->
  exists m,
    exec_insert s now new_id (ingest_values owner text sum e) t
    = ((t ++ [m])%list, Ok m).
Proof.
  intros Hs He Hid. unfold exec_insert, build_row, ingest_values. simpl.
  assert (Hc : coerce_vector embedding_dims e = Ok e).
  { unfold coerce_vector. destruct e as [v|]; [|reflexivity].
    rewrite (He v eq_refl), Nat.eqb_refl. reflexivity. }
  rewrite Hc. simpl.
  assert (Hr : negb (bypass_rls s) &&
               negb (is_true (user_isolation_policy s (Some owner))) = false).
  { destruct Hs as [->| Hu]; [reflexivity|].
    unfold user_isolation_policy. rewrite Hu. simpl. rewrite N.eqb_refl.
    simpl. apply andb_false_r. }
  rewrite Hr. simpl.
  assert (Hx : existsb (fun m' => (id m' =? new_id)%Z) t = false).
  { destruct (existsb (fun m' => (id m' =? new_id)%Z) t) eqn:E; [|reflexivity].
    exfalso. apply Hid. apply existsb_exists in E. destruct E as [x [Hx E]].
    apply Z.eqb_eq in E. subst. apply in_map, Hx. }
  rewrite Hx. eexists. reflexivity.
Qed.

Lemma ingest_defaults_witness :
  snd (exec_insert as_alice 100 1 (ingest_values alice "text" "summary" (Some east)) [])
  = Ok (mk_row 1 alice "text" "summary" (Some east) (Finite 1) 0 0 100 100) /\
  importance (mk_row 1 alice "text" "summary" (Some east) (Finite 1) 0 0 100 100)
  = Finite 1.
Proof.
  assert (H : snd (exec_insert as_alice 100 1
                     (ingest_values alice "text" "summary" (Some east)) [])
              = Ok (mk_row 1 alice "text" "summary" (Some east) (Finite 1) 0 0 100 100))
    by (vm_compute; reflexivity).
  split; [exact H|].
  apply (ingest_defaults as_alice 100 1 alice "text" "summary" (Some east) [] _ H).
Defined.

End InsertFacts.

(* ------------------------------------------------------------------ *)
(** ** The retention scorer *)

Module ScorerFacts.

Import Engine.
Local Open Scope R_scope.

Lemma day_pos : 0 < IZR microseconds_per_day.
Proof. apply IZR_lt. reflexivity. Qed.

Lemma elapsed_days_nonneg (last now : Z) : 0 <= elapsed_days last now.
Proof. unfold elapsed_days. apply Rmax_l. Qed.

Lemma elapsed_days_zero (last now : Z) :
  (now <= last)%Z -> elapsed_days last now = 0.
Proof.
  intro H. unfold elapsed_days. apply Rmax_left.
  assert (Hd := day_pos).
  assert (Hz : IZR (now - last) <= 0) by (apply IZR_le; lia).
  unfold Rdiv. pose proof (Rinv_0_lt_compat _ Hd) as Hi. nra.
Qed.

Lemma elapsed_days_after (last now : Z) :
  (last <= now)%Z ->
  elapsed_days last now = IZR (now - last) / IZR microseconds_per_day.
Proof.
  intro H. unfold elapsed_days. apply Rmax_right.
  assert (Hd := day_pos).
  assert (Hz : 0 <= IZR (now - last)) by (apply IZR_le; lia).
  unfold Rdiv. pose proof (Rinv_0_lt_compat _ Hd) as Hi. nra.
Qed.

Lemma elapsed_days_lt (last n1 n2 : Z) :
  (last <= n1 < n2)%Z -> elapsed_days last n1 < elapsed_days last n2.
Proof.
  intro H. rewrite !elapsed_days_after by lia.
  assert (Hd := day_pos). pose proof (Rinv_0_lt_compat _ Hd) as Hi.
  assert (Hz : IZR (n1 - last) < IZR (n2 - last)) by (apply IZR_lt; lia).
  unfold Rdiv. nra.
Qed.

Lemma stability_pos (c : config) (ac : Z) :
  valid_config c -> (0 <= ac)%Z -> 0 < stability c ac.
Proof.
  intros [Hb _] Hac. unfold stability.
  assert (Hz : 0 <= IZR ac) by (apply IZR_le; exact Hac).
  nra.
Qed.

Lemma importance_normalized_range (c : config) (imp : R) :
  valid_config c -> 0 <= imp ->
  0 <= importance_normalized c imp <= 1.
Proof.
  intros [_ [Hc _]] Hi. unfold importance_normalized, Rdiv.
  pose proof (Rinv_0_lt_compat _ Hc) as Hinv.
  assert (Hr : importance_cap c * / importance_cap c = 1)
    by (apply Rinv_r; lra).
  unfold Rmin. destruct (Rle_dec imp (importance_cap c)); nra.
Qed.

Lemma importance_normalized_pos (c : config) (imp : R) :
  valid_config c -> 0 < imp -> 0 < importance_normalized c imp.
Proof.
  intros [_ [Hc _]] Hi. unfold importance_normalized, Rdiv.
  pose proof (Rinv_0_lt_compat _ Hc) as Hinv.
  unfold Rmin. destruct (Rle_dec imp (importance_cap c)); nra.
Qed.

Lemma exp_le_mono (x y : R) : x <= y -> exp x <= exp y.
Proof.
  intros [H | ->]; [left; apply exp_increasing, H | right; reflexivity].
Qed.

(** The decay factor lies in (0, 1]. *)
Lemma decay_range (e s : R) : 0 <= e -> 0 < s -> 0 < exp (- e / s) <= 1.
Proof.
  intros He Hs. split; [apply exp_pos|].
  rewrite <- exp_0. apply exp_le_mono.
  pose proof (Rinv_0_lt_compat _ Hs) as Hi. unfold Rdiv. nra.
Qed.

(** C4.  With a positive [base_stability] and [importance_cap], for every
    importance >= 0, every access_count >= 0 and every pair of instants the
    retention score lies in [0, 1]. *)
Theorem score_in_unit_interval (c : config) (importance : R)
  (access_count last_accessed_at now : Z) :
  valid_config c -> 0 <= importance -> (0 <= access_count)%Z ->
  0 <= score c importance access_count last_accessed_at now <= 1.
Proof.
  intros Hc Hi Ha. unfold score.
  pose proof (importance_normalized_range c importance Hc Hi) as [Hn0 Hn1].
  pose proof (decay_range (elapsed_days last_accessed_at now)
                (stability c access_count)
                (elapsed_days_nonneg _ _) (stability_pos c access_count Hc Ha))
    as [Hd0 Hd1].
  nra.
Qed.

Lemma example_config_valid : valid_config example_config.
Proof. unfold valid_config, example_config; simpl. lra. Qed.

Lemma score_in_unit_interval_witness :
  valid_config example_config /\ 0 <= 1 /\ (0 <= 0)%Z /\
  0 <= score example_config 1 0 0 fourteen_days <= 1.
Proof.
  assert (Hi : 0 <= 1) by lra.
  assert (Ha : (0 <= 0)%Z) by lia.
  split; [exact example_config_valid|]. split; [exact Hi|]. split; [exact Ha|].
  apply (score_in_unit_interval example_config 1 0 0 fourteen_days
           example_config_valid Hi Ha).
Defined.

Lemma score_decreasing (c : config) (imp : R) (ac last n1 n2 : Z) :
  valid_config c -> 0 < imp -> (0 <= ac)%Z -> (last <= n1 < n2)%Z ->
  score c imp ac last n2 < score c imp ac last n1.
Proof.
  intros Hc Hi Ha Hn. unfold score.
  apply Rmult_lt_compat_l; [apply importance_normalized_pos; assumption|].
  apply exp_increasing.
  pose proof (elapsed_days_lt last n1 n2 Hn) as He.
  pose proof (Rinv_0_lt_compat _ (stability_pos c ac Hc Ha)) as Hs.
  unfold Rdiv. nra.
Qed.

Lemma score_just_accessed (c : config) (imp : R) (ac last now : Z) :
  (now <= last)%Z -> score c imp ac last now = importance_normalized c imp.
Proof.
  intro H. unfold score. rewrite elapsed_days_zero by exact H.
  replace (- 0 / stability c ac) with 0 by (unfold Rdiv; ring).
  rewrite exp_0. ring.
Qed.

Lemma score_access_count (c : config) (imp : R) (ac ac' last now : Z) :
  valid_config c -> 0 <= imp -> (0 <= ac < ac')%Z ->
  score c imp ac last now <= score c imp ac' last now /\
  (0 < imp -> (last < now)%Z ->
   score c imp ac last now < score c imp ac' last now).
Proof.
  intros Hc Hi Ha.
  pose proof (stability_pos c ac Hc (proj1 Ha)) as Hs.
  assert (Hs' : stability c ac < stability c ac').
  { unfold stability. destruct Hc as [Hb _].
    assert (IZR ac < IZR ac') by (apply IZR_lt; lia). nra. }
  assert (Hinv : / stability c ac' < / stability c ac).
  { apply Rinv_lt_contravar; [nra|exact Hs']. }
  pose proof (elapsed_days_nonneg last now) as He.
  pose proof (importance_normalized_range c imp Hc Hi) as [Hn0 _].
  unfold score. split.
  - apply Rmult_le_compat_l; [exact Hn0|]. apply exp_le_mono.
    unfold Rdiv. nra.
  - intros Hpos Hlt.
    apply Rmult_lt_compat_l; [apply importance_normalized_pos; assumption|].
    apply exp_increasing.
    assert (0 < elapsed_days last now).
    { pose proof (elapsed_days_lt last last now) as Hl.
      rewrite (elapsed_days_zero last last) in Hl by lia. apply Hl. lia. }
    unfold Rdiv. nra.
Qed.

Lemma score_zero_importance (c : config) (ac last now : Z) :
  valid_config c -> score c 0 ac last now = 0.
Proof.
  intros [_ [Hc _]]. unfold score, importance_normalized.
  rewrite Rmin_left by lra. unfold Rdiv. ring.
Qed.

(** C5, as the formula has it.  With a positive importance the score is
    strictly decreasing in the elapsed time; it is exactly
    [importance_normalized] when no time has elapsed; and a higher
    access_count never gives a lower score: it gives a strictly higher one
    once time has elapsed and the importance is positive, and the same score
    otherwise, that is when the importance is 0 or no time has elapsed. *)
Theorem score_monotone (c : config) (importance : R) (access_count : Z) :
  valid_config c -> 0 <= importance -> (0 <= access_count)%Z ->
  (forall last n1 n2,
      0 < importance -> (last <= n1 < n2)%Z ->
      score c importance access_count last n2
      < score c importance access_count last n1) /\
  (forall last now,
      (now <= last)%Z ->
      score c importance access_count last now
      = importance_normalized c importance) /\
  (forall higher last now,
      (access_count < higher)%Z ->
      score c importance access_count last now
      <= score c importance higher last now /\
      (0 < importance -> (last < now)%Z ->
       score c importance access_count last now
       < score c importance higher last now) /\
      (importance = 0 \/ (now <= last)%Z ->
       score c importance access_count last now
       = score c importance higher last now)).
Proof.
  intros Hc Hi Ha. split; [|split].
  - intros last n1 n2 Hpos Hn. apply score_decreasing; assumption.
  - intros last now Hn. apply score_just_accessed, Hn.
  - intros higher last now Hh.
    destruct (score_access_count c importance access_count higher last now
                Hc Hi (conj Ha Hh)) as [Hle Hlt].
    split; [exact Hle|]. split; [exact Hlt|].
    intros [Hzero | Hnow].
    + rewrite Hzero. rewrite !(score_zero_importance _ _ _ _ Hc). reflexivity.
    + rewrite !(score_just_accessed _ _ _ _ _ Hnow). reflexivity.
Qed.

Lemma score_monotone_witness :
  valid_config example_config /\ 0 < 1 /\ (0 <= 0 < fourteen_days)%Z /\
  score example_config 1 0 0 fourteen_days < score example_config 1 0 0 0 /\
  score example_config 1 0 0 0 = importance_normalized example_config 1 /\
  score example_config 1 0 0 fourteen_days
  < score example_config 1 1 0 fourteen_days /\
  score example_config 1 0 0 0 = score example_config 1 1 0 0.
Proof.
  assert (Hi : 0 < 1) by lra.
  assert (Hn : (0 <= 0 < fourteen_days)%Z) by (vm_compute; split; congruence).
  assert (Hh : (0 < 1)%Z) by reflexivity.
  destruct (score_monotone example_config 1 0 example_config_valid
              (Rlt_le _ _ Hi) (Z.le_refl 0)) as [Hdec [Hzero Hacc]].
  split; [exact example_config_valid|]. split; [exact Hi|]. split; [exact Hn|].
  split; [exact (Hdec 0%Z 0%Z fourteen_days Hi Hn)|].
  split; [exact (Hzero 0%Z 0%Z (Z.le_refl 0))|].
  split.
  - exact (proj1 (proj2 (Hacc 1%Z 0%Z fourteen_days Hh)) Hi (proj2 Hn)).
  - exact (proj2 (proj2 (Hacc 1%Z 0%Z 0%Z Hh)) (or_intror (Z.le_refl 0))).
Defined.

(** C5 as the specification words it fails: a Memory of importance 0 scores
    0 at every instant, so its score does not strictly decrease. *)
Lemma score_zero_importance_counterexample :
  valid_config example_config /\ 0 <= 0 /\ (0 <= 0 < microseconds_per_day)%Z /\
  score example_config 0 0 0 0 = 0 /\
  score example_config 0 0 0 microseconds_per_day = 0 /\
  ~ score example_config 0 0 0 microseconds_per_day < score example_config 0 0 0 0.
Proof.
  split; [exact example_config_valid|]. split; [lra|].
  split; [vm_compute; split; congruence|].
  rewrite !(score_zero_importance _ _ _ _ example_config_valid).
  repeat split; lra.
Qed.

(** The scenario of the specification: importance 1.0, never accessed again,
    14 days later, scores [0.2 * exp(-2)], which is below 0.5. *)
Example score_after_fourteen_days :
  score example_config 1 0 0 fourteen_days = 1 / 5 * exp (- 2) /\
  score example_config 1 0 0 fourteen_days < 1 / 2.
Proof.
  assert (E : score example_config 1 0 0 fourteen_days = 1 / 5 * exp (- 2)).
  { unfold score, importance_normalized, stability. simpl.
    rewrite Rmin_left by lra.
    rewrite elapsed_days_after by (vm_compute; congruence).
    replace (- (IZR (fourteen_days - 0) / IZR microseconds_per_day) / (7 * (1 + 0)))
      with (- 2); [reflexivity|].
    unfold fourteen_days, microseconds_per_day.
    rewrite Z.sub_0_r, mult_IZR. field. }
  split; [exact E|]. rewrite E.
  assert (exp (- 2) < 1) by (rewrite <- exp_0; apply exp_increasing; lra).
  lra.
Qed.

End ScorerFacts.

(* ------------------------------------------------------------------ *)
(** ** The resurfacing selector *)

Module SelectorFacts.

Import Ordering OrderingFacts Engine.
Local Open Scope R_scope.

Lemma qualifies_iff (c : config) (now : Z) (m : Memory) :
  qualifies c now m = true <->
  retention_score c now m < resurface_threshold c /\
  resurface_importance_floor c <= importance m.
Proof.
  unfold qualifies.
  destruct (Rlt_dec (retention_score c now m) (resurface_threshold c));
    destruct (Rle_dec (resurface_importance_floor c) (importance m));
    split; intro H; try discriminate; try reflexivity; tauto.
Qed.

Lemma fades_before_iff (c : config) (now : Z) (a b : Memory) :
  fades_before c now a b = true <->
  retention_score c now a < retention_score c now b
  \/ (retention_score c now a = retention_score c now b
      /\ (created_at a <= created_at b)%Z).
Proof.
  unfold fades_before.
  destruct (Rlt_dec (retention_score c now a) (retention_score c now b)).
  - split; [left; assumption|reflexivity].
  - destruct (Rlt_dec (retention_score c now b) (retention_score c now a)).
    + split; [discriminate|]. intros [H|[H _]]; lra.
    + rewrite Z.leb_le. split.
      * intro H. right. split; [lra|exact H].
      * intros [H|[_ H]]; [lra|exact H].
Qed.

Lemma fades_before_total (c : config) (now : Z) (a b : Memory) :
  fades_before c now a b = true \/ fades_before c now b a = true.
Proof.
  rewrite !fades_before_iff.
  destruct (Rtotal_order (retention_score c now a) (retention_score c now b))
    as [H|[H|H]]; auto.
  destruct (Z.le_ge_cases (created_at a) (created_at b)); auto.
Qed.

Lemma fades_before_trans (c : config) (now : Z) (x y z : Memory) :
  fades_before c now x y = true -> fades_before c now y z = true ->
  fades_before c now x z = true.
Proof.
  rewrite !fades_before_iff.
  intros [H1|[H1 H1']] [H2|[H2 H2']].
  - left; lra.
  - left; lra.
  - left; lra.
  - right. split; [lra|lia].
Qed.

(** C6.  The selection leaves the store as it is.  Every Memory it returns
    belongs to the owner, is flagged, has a retention score below
    [resurface_threshold] and an importance of at least
    [resurface_importance_floor] (none below the floor is returned).  The
    returned list is ordered by retention score ascending, ties by
    [created_at] ascending, and holds the [n] qualifying Memories that come
    first in this order: all of them when fewer than [n] qualify, and every
    qualifying Memory left out comes after each returned one. *)
Theorem resurface_selects_fading (c : config) (now : Z) (n : nat) (owner : N)
  (store : list Memory) :
  let candidates := filter (qualifies c now) (list_memories owner store) in
  let out := snd (resurface c now n owner store) in
  fst (resurface c now n owner store) = store /\
  Forall (fun a =>
            In (memory a) store /\ owner_id (memory a) = owner /\
            is_resurfaced a = true /\
            retention a = retention_score c now (memory a) /\
            retention a < resurface_threshold c /\
            resurface_importance_floor c <= importance (memory a)) out /\
  (forall m, importance m < resurface_importance_floor c ->
             ~ In m (map memory out)) /\
  StronglySorted fading_order out /\
  List.length out = Nat.min n (List.length candidates) /\
  exists rest,
    Permutation candidates (map memory out ++ rest) /\
    Forall (fun r =>
              Forall (fun a => fades_before c now (memory a) r = true
                               /\ retention a <= retention_score c now r) out)
           rest.
Proof.
  intros candidates out.
  set (sorted := order_by (fades_before c now) candidates).
  assert (Hout : out = map (annotate c now) (firstn n sorted)) by reflexivity.
  assert (Hmem : map memory out = firstn n sorted).
  { rewrite Hout, map_map. simpl. apply map_id. }
  assert (Hsorted : StronglySorted (fun a b => fades_before c now a b = true) sorted).
  { apply order_by_sorted;
      [apply fades_before_total | apply fades_before_trans]. }
  assert (Hcand : forall m, In m (firstn n sorted) ->
                            In m store /\ owner_id m = owner /\
                            qualifies c now m = true).
  { intros m Hm.
    assert (Hs : In m sorted).
    { rewrite <- (firstn_skipn n sorted). apply in_or_app. left. exact Hm. }
    apply order_by_In in Hs. apply filter_In in Hs. destruct Hs as [Hl Hq].
    apply filter_In in Hl. destruct Hl as [Hin Ho].
    apply N.eqb_eq in Ho. auto. }
  assert (Hall : Forall (fun a =>
            In (memory a) store /\ owner_id (memory a) = owner /\
            is_resurfaced a = true /\
            retention a = retention_score c now (memory a) /\
            retention a < resurface_threshold c /\
            resurface_importance_floor c <= importance (memory a)) out).
  { rewrite Hout. apply Forall_map. apply Forall_forall. intros m Hm.
    destruct (Hcand m Hm) as [Hin [Ho Hq]]. apply qualifies_iff in Hq.
    simpl. tauto. }
  split; [reflexivity|]. split; [exact Hall|]. split; [|split; [|split]].
  - intros m Hlow Hin. apply in_map_iff in Hin. destruct Hin as [a [<- Ha]].
    rewrite Forall_forall in Hall. specialize (Hall a Ha). lra.
  - rewrite Hout. apply StronglySorted_map.
    eapply StronglySorted_impl; [|apply StronglySorted_firstn, Hsorted].
    intros a b Hab. apply fades_before_iff in Hab. exact Hab.
  - rewrite Hout, length_map, length_firstn. unfold sorted.
    rewrite order_by_length. reflexivity.
  - exists (skipn n sorted). rewrite Hmem, firstn_skipn. split.
    + apply order_by_perm.
    + pose proof Hsorted as Hs. rewrite <- (firstn_skipn n sorted) in Hs.
      apply StronglySorted_app in Hs.
      eapply Forall_impl; [|exact Hs]. intros r Hr. rewrite Hout.
      apply Forall_map. eapply Forall_impl; [|exact Hr].
      intros m Hm. simpl. split; [exact Hm|].
      apply fades_before_iff in Hm. lra.
Qed.

Lemma resurface_selects_fading_witness :
  importance faint_memory < resurface_importance_floor example_config /\
  ~ In faint_memory
      (map memory
         (snd (resurface example_config fourteen_days 1 1
                 [fresh_memory; faint_memory]))) /\
  fst (resurface example_config fourteen_days 1 1 [fresh_memory; faint_memory])
  = [fresh_memory; faint_memory].
Proof.
  assert (Hlow : importance faint_memory < resurface_importance_floor example_config)
    by (simpl; lra).
  destruct (resurface_selects_fading example_config fourteen_days 1 1
              [fresh_memory; faint_memory]) as [Hstore [_ [Hfloor _]]].
  split; [exact Hlow|]. split; [exact (Hfloor faint_memory Hlow)|exact Hstore].
Defined.

(** The scenario of the specification: fourteen days on, the fresh Memory is
    the one selected; the faint one is below the floor. *)
Example resurface_after_fourteen_days :
  snd (resurface example_config fourteen_days 1 1 [fresh_memory; faint_memory])
  = [annotate example_config fourteen_days fresh_memory].
Proof.
  assert (H1 : qualifies example_config fourteen_days fresh_memory = true).
  { apply qualifies_iff. split; [|simpl; lra].
    apply ScorerFacts.score_after_fourteen_days. }
  assert (H2 : qualifies example_config fourteen_days faint_memory = false).
  { destruct (qualifies example_config fourteen_days faint_memory) eqn:E;
      [|reflexivity].
    apply qualifies_iff in E. simpl in E. lra. }
  unfold resurface, list_memories. simpl. rewrite H1, H2. reflexivity.
Qed.

End SelectorFacts.

(* ------------------------------------------------------------------ *)
(** ** The reinforcement updater *)

Module ReinforceFacts.

Import Engine ScorerFacts.
Local Open Scope R_scope.

Lemma not_decreased_refl (m : Memory) : not_decreased m m.
Proof. unfold not_decreased. repeat split; try reflexivity; lra. Qed.

Lemma not_decreased_trans (a b c : Memory) :
  not_decreased a b -> not_decreased b c -> not_decreased a c.
Proof.
  unfold not_decreased.
  intros [H1 [H2 [H3 [H4 H5]]]] [K1 [K2 [K3 [K4 K5]]]].
  repeat split; try congruence; try lia; lra.
Qed.

Lemma Forall2_not_decreased_refl (l : list Memory) : Forall2 not_decreased l l.
Proof. induction l; constructor; auto using not_decreased_refl. Qed.

Lemma Forall2_not_decreased_trans (l1 l2 l3 : list Memory) :
  Forall2 not_decreased l1 l2 -> Forall2 not_decreased l2 l3 ->
  Forall2 not_decreased l1 l3.
Proof.
  intro H. revert l3. induction H as [|a b l1 l2 Hab _ IH]; intros l3 H3;
    inversion H3; subst; constructor.
  - eapply not_decreased_trans; eassumption.
  - apply IH. assumption.
Qed.

(** What one reinforcement does to a Memory that is within the cap. *)
Lemma reinforce_memory_effects (c : config) (now : Z) (m : Memory) :
  valid_config c -> within_cap c m ->
  access_count (reinforce_memory c now m) = (access_count m + 1)%Z /\
  last_accessed_at (reinforce_memory c now m) = Z.max (last_accessed_at m) now /\
  importance (reinforce_memory c now m)
  = Rmin (importance m + reinforcement_increment c) (importance_cap c) /\
  not_decreased m (reinforce_memory c now m) /\
  within_cap c (reinforce_memory c now m).
Proof.
  intros [_ [_ Hinc]] Hcap. unfold within_cap in *.
  unfold not_decreased, reinforce_memory. simpl.
  assert (Hlast : (if (last_accessed_at m <? now)%Z then now else last_accessed_at m)
                  = Z.max (last_accessed_at m) now).
  { destruct (last_accessed_at m <? now)%Z eqn:E.
    - apply Z.ltb_lt in E. lia.
    - apply Z.ltb_ge in E. lia. }
  rewrite Hlast.
  assert (Hmin : importance m
                 <= Rmin (importance m + reinforcement_increment c) (importance_cap c)
                 <= importance_cap c).
  { unfold Rmin.
    destruct (Rle_dec (importance m + reinforcement_increment c) (importance_cap c));
      lra. }
  repeat split; try reflexivity; try lia; lra.
Qed.

(** A successful call replaces one Memory, the one asked for, by its
    reinforced version; the rest of the store is untouched. *)
Lemma reinforce_updated (c : config) (owner : N) (i now : Z)
  (store store' : list Memory) :
  reinforce c owner i now store = Updated store' ->
  exists l1 m l2,
    store = (l1 ++ m :: l2)%list /\
    store' = (l1 ++ reinforce_memory c now m :: l2)%list /\
    id m = i /\ owner_id m = owner.
Proof.
  revert store'. induction store as [|m rest IH]; intros store' H; simpl in H.
  - discriminate.
  - destruct ((id m =? i)%Z && N.eqb (owner_id m) owner)%bool eqn:E.
    + inversion H; subst. apply andb_true_iff in E. destruct E as [E1 E2].
      apply Z.eqb_eq in E1. apply N.eqb_eq in E2.
      exists [], m, rest. auto.
    + destruct (reinforce c owner i now rest) as [rest'|] eqn:Er; [|discriminate].
      inversion H; subst.
      destruct (IH rest' eq_refl) as [l1 [m' [l2 [-> [-> [Hi Ho]]]]]].
      exists (m :: l1), m', l2. auto.
Qed.

(** A call fails only with [NotFound], and only when no Memory has this id
    and this owner. *)
Lemma reinforce_failed (c : config) (owner : N) (i now : Z)
  (store : list Memory) (e : engine_error) :
  reinforce c owner i now store = Failed e ->
  e = NotFound /\ Forall (fun m => ~ (id m = i /\ owner_id m = owner)) store.
Proof.
  induction store as [|m rest IH]; simpl; intro H.
  - inversion H. split; [reflexivity|constructor].
  - destruct ((id m =? i)%Z && N.eqb (owner_id m) owner)%bool eqn:E; [discriminate|].
    destruct (reinforce c owner i now rest) as [rest'|e']; [discriminate|].
    inversion H; subst. destruct (IH eq_refl) as [-> Hall].
    split; [reflexivity|]. constructor; [|exact Hall].
    intros [Hi Ho]. apply andb_false_iff in E.
    destruct E as [E|E]; [apply Z.eqb_neq in E|apply N.eqb_neq in E]; congruence.
Qed.

Lemma after_call_monotone (c : config) (k : call) (store : list Memory) :
  valid_config c -> Forall (within_cap c) store ->
  Forall2 not_decreased store (after_call c store k) /\
  Forall (within_cap c) (after_call c store k).
Proof.
  intros Hc Hcap. unfold after_call.
  destruct (reinforce c (call_owner k) (call_id k) (call_now k) store)
    as [store'|e] eqn:E.
  - apply reinforce_updated in E.
    destruct E as [l1 [m [l2 [-> [-> _]]]]].
    apply Forall_app in Hcap. destruct Hcap as [H1 H2].
    inversion H2 as [|? ? Hm H2']; subst.
    destruct (reinforce_memory_effects c (call_now k) m Hc Hm)
      as [_ [_ [_ [Hnd Hw]]]].
    split.
    + apply Forall2_app; [apply Forall2_not_decreased_refl|].
      constructor; [exact Hnd|apply Forall2_not_decreased_refl].
    + apply Forall_app. split; [exact H1|]. constructor; assumption.
  - split; [apply Forall2_not_decreased_refl|exact Hcap].
Qed.

Lemma after_calls_monotone (c : config) (calls : list call) (store : list Memory) :
  valid_config c -> Forall (within_cap c) store ->
  Forall2 not_decreased store (after_calls c calls store).
Proof.
  intro Hc. revert store. unfold after_calls.
  induction calls as [|k calls IH]; intros store Hcap; simpl.
  - apply Forall2_not_decreased_refl.
  - destruct (after_call_monotone c k store Hc Hcap) as [Hstep Hcap'].
    eapply Forall2_not_decreased_trans; [exact Hstep|].
    apply IH, Hcap'.
Qed.

(** C7, as the formula has it.  For a Memory whose importance does not
    exceed [importance_cap], one reinforcement adds 1 to [access_count],
    moves [last_accessed_at] to [now] only when [now] is later, and raises
    [importance] by the increment up to the cap; a call changes these three
    fields of one Memory together or changes nothing; and along every
    sequence of calls none of the three fields of any Memory decreases. *)
Theorem reinforce_never_decreases (c : config) :
  valid_config c ->
  (forall now m,
      within_cap c m ->
      access_count (reinforce_memory c now m) = (access_count m + 1)%Z /\
      last_accessed_at (reinforce_memory c now m)
      = Z.max (last_accessed_at m) now /\
      importance (reinforce_memory c now m)
      = Rmin (importance m + reinforcement_increment c) (importance_cap c) /\
      not_decreased m (reinforce_memory c now m) /\
      within_cap c (reinforce_memory c now m)) /\
  (forall owner i now store,
      (exists l1 m l2,
          store = (l1 ++ m :: l2)%list /\ id m = i /\ owner_id m = owner /\
          reinforce c owner i now store
          = Updated (l1 ++ reinforce_memory c now m :: l2)%list)
      \/ (reinforce c owner i now store = Failed NotFound /\
          Forall (fun m => ~ (id m = i /\ owner_id m = owner)) store)) /\
  (forall calls store,
      Forall (within_cap c) store ->
      Forall2 not_decreased store (after_calls c calls store)).
Proof.
  intro Hc. split; [|split].
  - intros now m Hm. apply reinforce_memory_effects; assumption.
  - intros owner i now store.
    destruct (reinforce c owner i now store) as [store'|e] eqn:E.
    + left. apply reinforce_updated in E.
      destruct E as [l1 [m [l2 [-> [-> [Hi Ho]]]]]].
      exists l1, m, l2. auto.
    + right. apply reinforce_failed in E. destruct E as [-> Hall]. auto.
  - intros calls store Hcap. apply after_calls_monotone; assumption.
Qed.

Lemma fresh_within_cap : within_cap example_config fresh_memory.
Proof. unfold within_cap; simpl. lra. Qed.

Lemma reinforce_never_decreases_witness :
  valid_config example_config /\ within_cap example_config fresh_memory /\
  not_decreased fresh_memory (reinforce_memory example_config 5 fresh_memory) /\
  Forall2 not_decreased [fresh_memory]
    (after_calls example_config [mk_call 1 1 5; mk_call 1 1 3] [fresh_memory]).
Proof.
  destruct (reinforce_never_decreases example_config example_config_valid)
    as [Hone [_ Hmany]].
  split; [exact example_config_valid|]. split; [exact fresh_within_cap|].
  split.
  - apply (Hone 5%Z fresh_memory fresh_within_cap).
  - apply Hmany. constructor; [exact fresh_within_cap|constructor].
Defined.

(** C7 as the specification words it fails: above the cap, reinforcement
    brings the importance down to the cap. *)
Lemma reinforce_above_cap_counterexample :
  valid_config example_config /\
  reinforce example_config 1 2 0 [heavy_memory]
  = Updated [reinforce_memory example_config 0 heavy_memory] /\
  importance (reinforce_memory example_config 0 heavy_memory)
  < importance heavy_memory.
Proof.
  split; [exact example_config_valid|]. split; [reflexivity|].
  simpl. unfold Rmin. destruct (Rle_dec (6 + 1 / 10) 5); lra.
Qed.

(** The scenario of the specification: a fresh Memory reinforced at [now]
    has access_count 1, importance 1.1, and scores 1.1 / 5 = 0.22 at once. *)
Example reinforce_then_score :
  access_count (reinforce_memory example_config fourteen_days fresh_memory) = 1%Z /\
  importance (reinforce_memory example_config fourteen_days fresh_memory) = 11 / 10 /\
  last_accessed_at (reinforce_memory example_config fourteen_days fresh_memory)
  = fourteen_days /\
  retention_score example_config fourteen_days
    (reinforce_memory example_config fourteen_days fresh_memory) = 22 / 100.
Proof.
  assert (Hi : importance (reinforce_memory example_config fourteen_days fresh_memory)
               = 11 / 10).
  { simpl. rewrite Rmin_left by lra. lra. }
  split; [reflexivity|]. split; [exact Hi|]. split; [reflexivity|].
  unfold retention_score. rewrite score_just_accessed by (simpl; lia).
  rewrite Hi. unfold importance_normalized. simpl.
  rewrite Rmin_left by lra. lra.
Qed.

End ReinforceFacts.

(* ------------------------------------------------------------------ *)
(** ** [match_memories]: NULL arguments, LIMIT, dimensions, the policy *)

Module MatchEdgeFacts.

Import Float8 Sql Ordering Schema Float8Facts OrderingFacts MatchFacts.

Section Edge.

Variable cosine_distance : vector -> vector -> float8.

(** No distance is evaluated for the rows of other owners. *)
Lemma scan_other_owners q thr uid t :
  (forall m, In m t -> uid <> Some (user_id m)) ->
  scan cosine_distance q thr uid t = Ok [].
Proof.
  induction t as [|m t IH]; intro H; cbn [scan]; [reflexivity|].
  assert (Hm : is_true (strict2 N.eqb (Some (user_id m)) uid) = false).
  { destruct uid as [u|]; simpl; [|reflexivity].
    destruct (N.eqb (user_id m) u) eqn:E; [|reflexivity].
    apply N.eqb_eq in E. exfalso. apply (H m (or_introl eq_refl)). congruence. }
  rewrite Hm. apply IH. intros m' Hin. apply H. right. exact Hin.
Qed.

Lemma scan_null_query thr uid t : scan cosine_distance None thr uid t = Ok [].
Proof.
  induction t as [|m t IH]; cbn [scan]; [reflexivity|]. rewrite IH.
  destruct (is_true (strict2 N.eqb (Some (user_id m)) uid)); [|reflexivity].
  unfold cosine_op. destruct (embedding m); reflexivity.
Qed.

Lemma matching_rows_of_empty_scan q thr cnt uid t :
  (forall n, cnt = Some n -> (0 <= n)%Z) ->
  scan cosine_distance q thr uid t = Ok [] ->
  match_memories cosine_distance q thr cnt uid t = Ok [].
Proof.
  intros Hn Hs. unfold match_memories, matching_rows. rewrite Hs.
  destruct cnt as [n|]; [|reflexivity].
  specialize (Hn n eq_refl). apply Z.ltb_ge in Hn. rewrite Hn.
  destruct (n =? 0)%Z; [reflexivity|]. simpl. rewrite firstn_nil. reflexivity.
Qed.

(** X1.  A negative [match_count] is an error whatever the table holds, and
    a call with a count that is not negative answers the empty list when
    [match_count] is zero, when [p_user_id] is NULL or when
    [query_embedding] is NULL. *)
Theorem match_memories_null_arguments q thr cnt uid t :
  (forall n, cnt = Some n -> (n < 0)%Z ->
             match_memories cosine_distance q thr cnt uid t = Err LimitNegative) /\
  ((forall n, cnt = Some n -> (0 <= n)%Z) ->
   cnt = Some 0%Z \/ uid = None \/ q = None ->
   match_memories cosine_distance q thr cnt uid t = Ok []).
Proof.
  split.
  - intros n -> Hn. unfold match_memories, matching_rows.
    apply Z.ltb_lt in Hn. rewrite Hn. reflexivity.
  - intros Hn [->|[->| ->]].
    + reflexivity.
    + apply matching_rows_of_empty_scan; [exact Hn|].
      apply scan_other_owners. intros m _. discriminate.
    + apply matching_rows_of_empty_scan; [exact Hn|]. apply scan_null_query.
Qed.

(** Rows that no distance ties are told apart by the sort key. *)
Lemma no_ties_antisym (rows : list (memories_row * float8)) a b :
  no_ties rows -> In a rows -> In b rows ->
  by_distance a b = true -> by_distance b a = true -> a = b.
Proof.
  intros Hn Ha Hb Hab Hba.
  assert (He : float8_eq (snd a) (snd b) = true)
    by (apply float8_le_antisym; assumption).
  assert (He' : float8_eq (snd b) (snd a) = true)
    by (apply float8_le_antisym; assumption).
  destruct (ForallOrdPairs_In Hn a b Ha Hb) as [E|[E|E]];
    [exact E|congruence|congruence].
Qed.

(** X2.  When no two rows that pass the WHERE clause are at the same
    distance, the answer is fixed by the sort key, whatever the sort does
    with ties: any arrangement of those rows by ascending distance is the
    list returned for a NULL count, and for a count [n] that is not negative
    the function returns its first [n] rows. *)
Theorem match_memories_limit_is_prefix q thr uid t rows sorted n :
  scan cosine_distance q thr uid t = Ok rows ->
  no_ties rows ->
  Permutation rows sorted ->
  StronglySorted (fun a b => by_distance a b = true) sorted ->
  (0 <= n)%Z ->
  match_memories cosine_distance q thr None uid t
  = Ok (map select_row sorted) /\
  match_memories cosine_distance q thr (Some n) uid t
  = Ok (firstn (Z.to_nat n) (map select_row sorted)).
Proof.
  intros Hs Hties Hp Hsorted Hn.
  assert (Hu : order_by by_distance rows = sorted).
  { apply (@sorted_perm_unique _ by_distance).
    - intros a b Ha Hb. apply (no_ties_antisym rows); try assumption.
      + apply (order_by_In _ _ _ _ Ha).
      + apply (order_by_In _ _ _ _ Hb).
    - apply (@order_by_sorted _ by_distance by_distance_total by_distance_trans).
    - exact Hsorted.
    - eapply Permutation_trans; [|exact Hp].
      apply Permutation_sym, order_by_perm. }
  unfold match_memories, matching_rows. rewrite Hs. simpl. rewrite Hu.
  split; [reflexivity|].
  apply Z.ltb_ge in Hn. rewrite Hn.
  destruct (n =? 0)%Z eqn:E0.
  - apply Z.eqb_eq in E0. subst n. reflexivity.
  - simpl. rewrite firstn_map. reflexivity.
Qed.

(** Unless LIMIT cuts it, the answer is built from all the rows the scan
    kept. *)
Lemma uncut_rows_permute q thr cnt uid t rows :
  matching_rows cosine_distance q thr cnt uid t = Ok rows ->
  (cnt = None \/ exists n, cnt = Some n /\ (Z.of_nat (List.length rows) < n)%Z) ->
  exists scanned,
    scan cosine_distance q thr uid t = Ok scanned /\ Permutation scanned rows.
Proof.
  unfold matching_rows. intros Hr [->|[n [-> Hlen]]].
  - destruct (scan cosine_distance q thr uid t) as [scanned|]; [|discriminate].
    inversion Hr; subst. exists scanned. split; [reflexivity|].
    apply order_by_perm.
  - destruct (n <? 0)%Z; [discriminate|].
    destruct (n =? 0)%Z eqn:E0.
    { inversion Hr; subst. simpl in Hlen. apply Z.eqb_eq in E0. lia. }
    destruct (scan cosine_distance q thr uid t) as [scanned|]; [|discriminate].
    inversion Hr as [Hrows]; subst. exists scanned. split; [reflexivity|].
    rewrite length_firstn, order_by_length in Hlen.
    rewrite firstn_all2 by (rewrite order_by_length; lia).
    apply order_by_perm.
Qed.

(** X3.  Nothing that qualifies is left out unless LIMIT cuts it: when the
    count is NULL, or fewer rows than the count come back, every row of the
    owner whose similarity is above the threshold is in the answer. *)
Theorem match_memories_complete q thr cnt uid t out :
  match_memories cosine_distance q thr cnt uid t = Ok out ->
  (cnt = None \/ exists n, cnt = Some n /\ (Z.of_nat (List.length out) < n)%Z) ->
  forall m e qv th,
    In m t -> uid = Some (user_id m) -> embedding m = Some e ->
    q = Some qv -> thr = Some th ->
    float8_gt (similarity_of (cosine_distance e qv)) th = true ->
    In (select_row (m, cosine_distance e qv)) out.
Proof.
  intros H Hcnt m e qv th Hin Hu He Hq Ht Hgt.
  apply match_memories_inv in H. destruct H as [rows [Hr ->]].
  rewrite length_map in Hcnt.
  destruct (uncut_rows_permute q thr cnt uid t rows Hr Hcnt)
    as [scanned [Hs Hp]].
  apply in_map. eapply Permutation_in; [exact Hp|].
  eapply scan_complete; eassumption.
Qed.

Lemma scan_dimension_error q thr uid t m e qv :
  In m t -> uid = Some (user_id m) -> embedding m = Some e -> q = Some qv ->
  dims e <> dims qv ->
  exists a b, scan cosine_distance q thr uid t = Err (DifferentDimensions a b)
              /\ a <> b.
Proof.
  intros Hin -> He -> Hd.
  induction t as [|m' t IH]; [contradiction|]. simpl.
  destruct Hin as [->|Hin].
  - rewrite N.eqb_refl. simpl. unfold cosine_op. rewrite He.
    apply Nat.eqb_neq in Hd. rewrite Hd. simpl.
    exists (dims e), (dims qv). split; [reflexivity|].
    apply Nat.eqb_neq, Hd.
  - destruct (IH Hin) as [a [b [Hs Hab]]]. rewrite Hs.
    destruct (N.eqb (user_id m') (user_id m)); simpl;
      [|exists a, b; auto].
    unfold cosine_op. destruct (embedding m') as [e'|]; simpl;
      [|exists a, b; auto].
    destruct (Nat.eqb (dims e') (dims qv)) eqn:E; simpl.
    + exists a, b; auto.
    + exists (dims e'), (dims qv). split; [reflexivity|].
      apply Nat.eqb_neq, E.
Qed.

(** X4.  With a threshold that is not NULL, a query whose dimension differs
    from that of a stored embedding of the requested owner is refused with
    an error, not answered by an empty list (unless the count is zero, when
    no row is read). *)
Theorem match_memories_dimension_error q thr cnt uid t m e qv th :
  In m t -> uid = Some (user_id m) -> embedding m = Some e -> q = Some qv ->
  thr = Some th ->
  dims e <> dims qv ->
  (forall n, cnt = Some n -> (0 < n)%Z) ->
  exists a b,
    match_memories cosine_distance q thr cnt uid t
    = Err (DifferentDimensions a b) /\ a <> b.
Proof.
  intros Hin Hu He Hq Hth Hd Hn.
  destruct (scan_dimension_error q thr uid t m e qv Hin Hu He Hq Hd)
    as [a [b [Hs Hab]]].
  exists a, b. split; [|exact Hab].
  unfold match_memories, matching_rows. rewrite Hs.
  destruct cnt as [n|]; [|reflexivity].
  specialize (Hn n eq_refl).
  assert (E1 : (n <? 0)%Z = false) by (apply Z.ltb_ge; lia).
  assert (E2 : (n =? 0)%Z = false) by (apply Z.eqb_neq; lia).
  rewrite E1, E2. reflexivity.
Qed.

(** X5.  On a table whose embeddings are NULL or of 1536 dimensions (what
    INSERT keeps), a call with a query of 1536 dimensions, or a NULL one, and
    a count that is not negative always returns rows, never an error. *)
Theorem match_memories_answers_on_stored_rows q thr cnt uid t :
  Forall embedding_ok t ->
  (forall qv, q = Some qv -> dims qv = embedding_dims) ->
  (forall n, cnt = Some n -> (0 <= n)%Z) ->
  exists out, match_memories cosine_distance q thr cnt uid t = Ok out.
Proof.
  intros Ht Hq Hn. apply match_memories_returns; [exact Hn|].
  intros m e qv Hin He Hqv. rewrite (Hq qv Hqv).
  rewrite Forall_forall in Ht. specialize (Ht m Hin).
  unfold embedding_ok in Ht. rewrite He in Ht. exact Ht.
Qed.

Lemma scan_visible_own s a q thr t :
  auth_uid s = Some a ->
  scan cosine_distance q thr (Some a) (visible s t)
  = scan cosine_distance q thr (Some a) t.
Proof.
  intro Ha. unfold visible. destruct (bypass_rls s); [reflexivity|].
  unfold user_isolation_policy. rewrite Ha.
  set (keep := fun m : memories_row =>
                 is_true (strict2 N.eqb (Some a) (Some (user_id m)))).
  induction t as [|m t IH]; [reflexivity|].
  cbn [filter].
  assert (Hk : keep m = N.eqb a (user_id m)).
  { unfold keep. simpl. destruct (N.eqb a (user_id m)); reflexivity. }
  assert (Hs : is_true (strict2 N.eqb (Some (user_id m)) (Some a))
               = N.eqb a (user_id m)).
  { simpl. rewrite N.eqb_sym. destruct (N.eqb a (user_id m)); reflexivity. }
  rewrite Hk. destruct (N.eqb a (user_id m)) eqn:E.
  - cbn [scan]. rewrite IH. reflexivity.
  - rewrite IH. cbn [scan]. rewrite Hs. reflexivity.
Qed.

(** X6.  The policy costs the owner nothing: a signed-in caller who asks for
    the own memories gets exactly what the function returns on the whole
    table. *)
Theorem match_memories_policy_keeps_own_rows s a q thr cnt t :
  auth_uid s = Some a ->
  snd (call_match_memories cosine_distance s q thr cnt (Some a) t)
  = match_memories cosine_distance q thr cnt (Some a) t.
Proof.
  intro Ha. simpl. unfold match_memories, matching_rows.
  rewrite (scan_visible_own s a q thr t Ha). reflexivity.
Qed.

(** X7.  Under the policy a caller who asks for the memories of anyone else,
    or who is not signed in, gets the empty list: no row, and no error that
    would tell whether the other owner has rows. *)
Theorem match_memories_policy_hides_other_owners s q thr cnt uid t :
  bypass_rls s = false ->
  auth_uid s <> uid ->
  (forall n, cnt = Some n -> (0 <= n)%Z) ->
  snd (call_match_memories cosine_distance s q thr cnt uid t) = Ok [].
Proof.
  intros Hb Hne Hn. simpl.
  apply matching_rows_of_empty_scan; [exact Hn|].
  apply scan_other_owners. intros m Hin Hu.
  apply (visible_owner s t m Hb) in Hin. congruence.
Qed.

Lemma scan_app_other_owner q thr a t m :
  user_id m <> a ->
  scan cosine_distance q thr (Some a) (t ++ [m])
  = scan cosine_distance q thr (Some a) t.
Proof.
  intro Hm.
  assert (Hlast : scan cosine_distance q thr (Some a) [m] = Ok []).
  { apply scan_other_owners. intros m' [<-|[]] H. congruence. }
  induction t as [|m' t IH]; [exact Hlast|].
  rewrite <- app_comm_cons. cbn [scan]. rewrite IH. reflexivity.
Qed.

(** The row the ingestion path stores, column by column. *)
Lemma ingest_stored_row s now new_id owner text sum e t t' m :
  exec_insert s now new_id (ingest_values owner text sum e) t = (t', Ok m) ->
  t' = (t ++ [m])%list /\
  m = mk_row new_id owner text sum e one 0 0 now now.
Proof.
  unfold exec_insert, build_row, ingest_values. simpl.
  unfold coerce_vector.
  destruct e as [v|].
  - destruct (Nat.eqb (dims v) embedding_dims); simpl;
      [|intro H; inversion H].
    destruct (negb (bypass_rls s) &&
              negb (is_true (user_isolation_policy s (Some owner))));
      simpl; [intro H; inversion H|].
    destruct (existsb (fun m' => (id m' =? new_id)%Z) t);
      intro H; inversion H; subst. auto.
  - simpl.
    destruct (negb (bypass_rls s) &&
              negb (is_true (user_isolation_policy s (Some owner))));
      simpl; [intro H; inversion H|].
    destruct (existsb (fun m' => (id m' =? new_id)%Z) t);
      intro H; inversion H; subst. auto.
Qed.

(** X8.  A note that was ingested with an embedding is found by its owner:
    a search with a NULL count whose query is nearer than the threshold
    returns it, under the id it was stored with and with both counters
    at 0. *)
Theorem ingest_then_match s now new_id owner text sum e t t' m qv th out :
  exec_insert s now new_id (ingest_values owner text sum (Some e)) t
  = (t', Ok m) ->
  match_memories cosine_distance (Some qv) (Some th) None (Some owner) t'
  = Ok out ->
  float8_gt (similarity_of (cosine_distance e qv)) th = true ->
  In (mk_match new_id owner text sum one now now 0 0
        (similarity_of (cosine_distance e qv))) out.
Proof.
  intros Hi Hm Hgt. apply ingest_stored_row in Hi. destruct Hi as [-> Hrow].
  assert (Hin : In m (t ++ [m])) by (apply in_or_app; right; left; reflexivity).
  apply match_memories_inv in Hm. destruct Hm as [rows [Hr ->]].
  destruct (uncut_rows_permute (Some qv) (Some th) None (Some owner)
              (t ++ [m]) rows Hr (or_introl eq_refl)) as [scanned [Hs Hp]].
  assert (Hrow' : In (m, cosine_distance e qv) rows).
  { eapply Permutation_in; [exact Hp|].
    eapply scan_complete; try eassumption; try reflexivity;
      rewrite Hrow; reflexivity. }
  apply (in_map select_row) in Hrow'. rewrite Hrow in Hrow' at 1.
  exact Hrow'.
Qed.

(** X9.  What one owner stores does not change what another owner finds:
    after a note was ingested for [owner], every call for another
    [p_user_id] answers as it did before, rows and errors alike. *)
Theorem ingest_leaves_other_owners_answers s now new_id owner text sum e t t' m
  q thr cnt a :
  exec_insert s now new_id (ingest_values owner text sum e) t = (t', Ok m) ->
  owner <> a ->
  match_memories cosine_distance q thr cnt (Some a) t'
  = match_memories cosine_distance q thr cnt (Some a) t.
Proof.
  intros Hi Hne. apply ingest_stored_row in Hi. destruct Hi as [-> Hrow].
  unfold match_memories, matching_rows.
  rewrite scan_app_other_owner; [reflexivity|].
  rewrite Hrow. simpl. exact Hne.
Qed.

End Edge.

Import Examples Samples.
Local Open Scope Z_scope.

Lemma library_rows :
  library
  = [ mk_row 1 alice "text" "summary" (Some north) one 0 0 10 10;
      mk_row 2 bob "text" "summary" (Some east) one 0 0 20 20;
      mk_row 3 alice "text" "summary" (Some north_east) one 0 0 30 30;
      mk_row 4 alice "text" "summary" (Some east) one 0 0 40 40;
      mk_row 5 alice "text" "summary" None one 0 0 50 50 ].
Proof. vm_compute. reflexivity. Qed.

Lemma east_note_in_library :
  In (mk_row 4 alice "text" "summary" (Some east) one 0 0 40 40) library.
Proof. rewrite library_rows. right. right. right. left. reflexivity. Qed.

Lemma match_memories_null_arguments_witness :
  match_memories unit_cosine_distance (Some east) (Some threshold)
    (Some (-1)%Z) (Some alice) library = Err LimitNegative /\
  match_memories unit_cosine_distance (Some east) (Some threshold)
    (Some 5%Z) None library = Ok [].
Proof.
  destruct (match_memories_null_arguments unit_cosine_distance (Some east)
              (Some threshold) (Some (-1)%Z) (Some alice) library) as [Hneg _].
  destruct (match_memories_null_arguments unit_cosine_distance (Some east)
              (Some threshold) (Some 5%Z) None library) as [_ Hnull].
  split.
  - apply (Hneg (-1)%Z eq_refl). reflexivity.
  - apply Hnull; [|right; left; reflexivity].
    intros n Hn. inversion Hn. discriminate.
Defined.

Lemma match_memories_limit_is_prefix_witness :
  scan unit_cosine_distance (Some east) (Some threshold) (Some alice) library
  = Ok library_scan /\
  no_ties library_scan /\
  match_memories unit_cosine_distance (Some east) (Some threshold) None
    (Some alice) library = Ok library_matches /\
  match_memories unit_cosine_distance (Some east) (Some threshold) (Some 1%Z)
    (Some alice) library = Ok (firstn 1 library_matches).
Proof.
  assert (Hs : scan unit_cosine_distance (Some east) (Some threshold)
                 (Some alice) library = Ok library_scan)
    by (vm_compute; reflexivity).
  assert (Hties : no_ties library_scan).
  { unfold no_ties, library_scan.
    constructor; [|constructor; [constructor|constructor]].
    constructor; [reflexivity|constructor]. }
  assert (Hp : Permutation library_scan (rev library_scan))
    by apply Permutation_rev.
  assert (Hsorted : StronglySorted (fun a b => by_distance a b = true)
                      (rev library_scan)).
  { unfold library_scan. simpl.
    constructor; [constructor; [constructor|constructor]|].
    constructor; [reflexivity|constructor]. }
  assert (Hn : (0 <= 1)%Z) by discriminate.
  split; [exact Hs|]. split; [exact Hties|].
  exact (match_memories_limit_is_prefix unit_cosine_distance (Some east)
           (Some threshold) (Some alice) library library_scan
           (rev library_scan) 1%Z Hs Hties Hp Hsorted Hn).
Defined.

Lemma match_memories_complete_witness :
  In (mk_row 4 alice "text" "summary" (Some east) one 0 0 40 40) library /\
  float8_gt (similarity_of (unit_cosine_distance east east)) threshold = true /\
  In (select_row (mk_row 4 alice "text" "summary" (Some east) one 0 0 40 40,
                  unit_cosine_distance east east)) library_matches.
Proof.
  assert (H : match_memories unit_cosine_distance (Some east) (Some threshold)
                (Some 5%Z) (Some alice) library = Ok library_matches)
    by (vm_compute; reflexivity).
  assert (Hgt : float8_gt (similarity_of (unit_cosine_distance east east))
                  threshold = true) by (vm_compute; reflexivity).
  assert (Hcut : Some 5 = None \/
                 exists n, Some 5 = Some n /\
                           Z.of_nat (List.length library_matches) < n).
  { right. exists 5. split; reflexivity. }
  split; [exact east_note_in_library|]. split; [exact Hgt|].
  exact (match_memories_complete unit_cosine_distance (Some east)
           (Some threshold) (Some 5) (Some alice) library library_matches
           H Hcut (mk_row 4 alice "text" "summary" (Some east) one 0 0 40 40)
           east east threshold east_note_in_library
           eq_refl eq_refl eq_refl eq_refl Hgt).
Defined.

Lemma match_memories_dimension_error_witness :
  dims east <> dims short_query /\
  exists a b,
    match_memories unit_cosine_distance (Some short_query) (Some threshold)
      (Some 5%Z) (Some alice) library = Err (DifferentDimensions a b) /\ a <> b.
Proof.
  assert (Hd : dims east <> dims short_query) by (vm_compute; discriminate).
  split; [exact Hd|].
  assert (Hn : forall n, Some 5 = Some n -> 0 < n)
    by (intros n Hn; inversion Hn; reflexivity).
  exact (match_memories_dimension_error unit_cosine_distance
           (Some short_query) (Some threshold) (Some 5) (Some alice) library
           (mk_row 4 alice "text" "summary" (Some east) one 0 0 40 40)
           east short_query threshold east_note_in_library eq_refl eq_refl
           eq_refl eq_refl Hd Hn).
Defined.

Lemma library_embeddings_ok : Forall embedding_ok library.
Proof.
  rewrite library_rows. repeat constructor; vm_compute; reflexivity.
Qed.

Lemma match_memories_answers_on_stored_rows_witness :
  Forall embedding_ok library /\ dims north = embedding_dims /\
  exists out,
    match_memories unit_cosine_distance (Some north) (Some threshold)
      (Some 3%Z) (Some bob) library = Ok out.
Proof.
  assert (Hd : dims north = embedding_dims) by (vm_compute; reflexivity).
  split; [exact library_embeddings_ok|]. split; [exact Hd|].
  apply (match_memories_answers_on_stored_rows unit_cosine_distance
           (Some north) (Some threshold) (Some 3%Z) (Some bob) library
           library_embeddings_ok).
  - intros qv Hq. inversion Hq; subst. exact Hd.
  - intros n Hn. inversion Hn. discriminate.
Defined.

Lemma match_memories_policy_keeps_own_rows_witness :
  auth_uid as_alice = Some alice /\
  snd (call_match_memories unit_cosine_distance as_alice (Some east)
         (Some threshold) (Some 5%Z) (Some alice) library)
  = match_memories unit_cosine_distance (Some east) (Some threshold)
      (Some 5%Z) (Some alice) library.
Proof.
  split; [reflexivity|].
  apply (match_memories_policy_keeps_own_rows unit_cosine_distance as_alice
           alice). reflexivity.
Defined.

Lemma match_memories_policy_hides_other_owners_witness :
  bypass_rls as_bob = false /\ auth_uid as_bob <> Some alice /\
  snd (call_match_memories unit_cosine_distance as_bob (Some east)
         (Some threshold) (Some 5%Z) (Some alice) library) = Ok [] /\
  snd (call_match_memories unit_cosine_distance anonymous (Some east)
         (Some threshold) (Some 5%Z) (Some alice) library) = Ok [].
Proof.
  assert (Hn : forall n, Some 5%Z = Some n -> (0 <= n)%Z)
    by (intros n Hn; inversion Hn; discriminate).
  split; [reflexivity|]. split; [discriminate|]. split.
  - apply (match_memories_policy_hides_other_owners unit_cosine_distance as_bob);
      [reflexivity|discriminate|exact Hn].
  - apply (match_memories_policy_hides_other_owners unit_cosine_distance
             anonymous); [reflexivity|discriminate|exact Hn].
Defined.

Lemma ingest_then_match_witness :
  exec_insert service 40 4 (ingest_values alice "text" "summary" (Some east)) []
  = ([mk_row 4 alice "text" "summary" (Some east) one 0 0 40 40],
     Ok (mk_row 4 alice "text" "summary" (Some east) one 0 0 40 40)) /\
  float8_gt (similarity_of (unit_cosine_distance east north_east)) threshold
  = true /\
  In (mk_match 4 alice "text" "summary" one 40 40 0 0
        (similarity_of (unit_cosine_distance east north_east)))
     [mk_match 4 alice "text" "summary" one 40 40 0 0 (Finite (4 # 5))].
Proof.
  assert (Hi : exec_insert service 40 4
                 (ingest_values alice "text" "summary" (Some east)) []
               = ([mk_row 4 alice "text" "summary" (Some east) one 0 0 40 40],
                  Ok (mk_row 4 alice "text" "summary" (Some east) one 0 0 40 40)))
    by (vm_compute; reflexivity).
  assert (Hm : match_memories unit_cosine_distance (Some north_east)
                 (Some threshold) None (Some alice)
                 [mk_row 4 alice "text" "summary" (Some east) one 0 0 40 40]
               = Ok [mk_match 4 alice "text" "summary" one 40 40 0 0
                       (Finite (4 # 5))])
    by (vm_compute; reflexivity).
  assert (Hgt : float8_gt (similarity_of (unit_cosine_distance east north_east))
                  threshold = true) by (vm_compute; reflexivity).
  split; [exact Hi|]. split; [exact Hgt|].
  exact (ingest_then_match unit_cosine_distance service 40 4 alice "text"
           "summary" east [] _ _ north_east threshold _ Hi Hm Hgt).
Defined.

Lemma ingest_leaves_other_owners_answers_witness :
  exec_insert service 40 4 (ingest_values alice "text" "summary" (Some east)) []
  = ([mk_row 4 alice "text" "summary" (Some east) one 0 0 40 40],
     Ok (mk_row 4 alice "text" "summary" (Some east) one 0 0 40 40)) /\
  alice <> bob /\
  match_memories unit_cosine_distance (Some short_query) (Some threshold)
    (Some 5%Z) (Some bob)
    [mk_row 4 alice "text" "summary" (Some east) one 0 0 40 40]
  = match_memories unit_cosine_distance (Some short_query) (Some threshold)
      (Some 5%Z) (Some bob) [].
Proof.
  assert (Hi : exec_insert service 40 4
                 (ingest_values alice "text" "summary" (Some east)) []
               = ([mk_row 4 alice "text" "summary" (Some east) one 0 0 40 40],
                  Ok (mk_row 4 alice "text" "summary" (Some east) one 0 0 40 40)))
    by (vm_compute; reflexivity).
  assert (Hne : alice <> bob) by discriminate.
  split; [exact Hi|]. split; [exact Hne|].
  exact (ingest_leaves_other_owners_answers unit_cosine_distance service 40 4
           alice "text" "summary" (Some east) [] _ _ (Some short_query)
           (Some threshold) (Some 5%Z) bob Hi Hne).
Defined.

End MatchEdgeFacts.

(* ------------------------------------------------------------------ *)
(** ** INSERT: the policy, NOT NULL, the primary key *)

Module InsertEdgeFacts.

Import Float8 Sql Schema Examples Samples.
Local Open Scope Z_scope.

Lemma coerce_vector_accepts (e : option vector) :
  (forall v, e = Some v -> dims v = embedding_dims) ->
  coerce_vector embedding_dims e = Ok e.
Proof.
  intro He. unfold coerce_vector. destruct e as [v|]; [|reflexivity].
  rewrite (He v eq_refl), Nat.eqb_refl. reflexivity.
Qed.

(** X10.  Under the policy nobody writes for someone else: an INSERT by a
    signed-in caller for another owner, or by a caller who is not signed in,
    is refused with a policy violation and leaves the table as it was. *)
Theorem insert_policy_refuses_other_owner s now new_id owner text sum e t :
  bypass_rls s = false ->
  auth_uid s <> Some owner ->
  (forall v, e = Some v -> dims v = embedding_dims) ->
  exec_insert s now new_id (ingest_values owner text sum e) t
  = (t, Err RlsViolation).
Proof.
  intros Hb Hu He. unfold exec_insert, build_row, ingest_values. simpl.
  rewrite (coerce_vector_accepts e He). simpl. rewrite Hb. simpl.
  unfold user_isolation_policy.
  destruct (auth_uid s) as [a|]; simpl; [|reflexivity].
  destruct (N.eqb a owner) eqn:E; [|reflexivity].
  apply N.eqb_eq in E. congruence.
Qed.

Lemma insert_policy_refuses_other_owner_witness :
  bypass_rls as_bob = false /\ auth_uid as_bob <> Some alice /\
  exec_insert as_bob 60 6 (ingest_values alice "text" "summary" None) library
  = (library, Err RlsViolation).
Proof.
  assert (Hu : auth_uid as_bob <> Some alice) by discriminate.
  split; [reflexivity|]. split; [exact Hu|].
  apply (insert_policy_refuses_other_owner as_bob 60 6 alice "text" "summary"
           None library eq_refl Hu).
  intros v Hv. discriminate.
Defined.

(** X11.  The three content columns are required: for a caller the policy
    does not bind, an INSERT whose [user_id], [raw_text] or [summary] is NULL
    is refused with a NOT NULL violation that names the first such column,
    and the table stays as it was. *)
Theorem insert_requires_content s now new_id u text sum e t :
  bypass_rls s = true ->
  (forall v, e = Some v -> dims v = embedding_dims) ->
  (u = None ->
   exec_insert s now new_id (partial_note u text sum e) t
   = (t, Err (NotNullViolation "user_id"))) /\
  (u <> None -> text = None ->
   exec_insert s now new_id (partial_note u text sum e) t
   = (t, Err (NotNullViolation "raw_text"))) /\
  (u <> None -> text <> None -> sum = None ->
   exec_insert s now new_id (partial_note u text sum e) t
   = (t, Err (NotNullViolation "summary"))).
Proof.
  intros Hb He.
  assert (Hc := coerce_vector_accepts e He).
  unfold exec_insert, build_row, partial_note. simpl.
  rewrite Hc, Hb. simpl.
  split; [|split].
  - intros ->. reflexivity.
  - intros Hu ->. destruct u; [reflexivity|congruence].
  - intros Hu Ht ->. destruct u; [|congruence].
    destruct text; [reflexivity|congruence].
Qed.

Lemma insert_requires_content_witness :
  bypass_rls service = true /\
  exec_insert service 60 6
    (partial_note (Some alice) None (Some "summary"%string) None) library
  = (library, Err (NotNullViolation "raw_text")).
Proof.
  split; [reflexivity|].
  destruct (insert_requires_content service 60 6 (Some alice) None
              (Some "summary"%string) None library eq_refl) as [_ [Htext _]].
  - intros v Hv. discriminate.
  - apply Htext; [discriminate|reflexivity].
Defined.

(** X12.  [id] stays a key: INSERT keeps the ids of the table pairwise
    distinct, and an INSERT that draws an id already in the table stores
    nothing. *)
Theorem insert_keeps_primary_key s now new_id v t :
  NoDup (map id t) ->
  NoDup (map id (fst (exec_insert s now new_id v t))) /\
  (In new_id (map id t) ->
   fst (exec_insert s now new_id v t) = t /\
   forall m, snd (exec_insert s now new_id v t) <> Ok m).
Proof.
  intro Hnd. unfold exec_insert.
  destruct (build_row s now new_id v) as [m|err] eqn:Eb.
  - assert (Hid : id m = new_id).
    { revert Eb. unfold build_row.
      destruct (coerce_vector embedding_dims (with_default None (i_embedding v)));
        [|discriminate]. simpl.
      destruct (coerce_int4 (with_default (Some 0) (i_access_count v)))
        as [ac|]; [|discriminate]. simpl.
      destruct (coerce_int4 (with_default (Some 0) (i_summary_count v)))
        as [sc|]; [|discriminate]. simpl.
      destruct (negb (bypass_rls s) &&
                negb (is_true (user_isolation_policy s
                                 (with_default None (i_user_id v)))));
        [discriminate|].
      destruct (with_default None (i_user_id v)); [|discriminate]. simpl.
      destruct (with_default None (i_raw_text v)); [|discriminate]. simpl.
      destruct (with_default None (i_summary v)); [|discriminate]. simpl.
      destruct (with_default (Some one) (i_importance v)); [|discriminate].
      simpl.
      destruct ac; [|discriminate]. simpl.
      destruct sc; [|discriminate]. simpl.
      destruct (with_default (Some now) (i_created_at v)); [|discriminate].
      simpl.
      destruct (with_default (Some now) (i_last_accessed_at v));
        [|discriminate].
      simpl. intro H. inversion H. reflexivity. }
    destruct (existsb (fun m' => id m' =? new_id) t) eqn:Ex.
    + simpl. split; [exact Hnd|]. intros _. split; [reflexivity|discriminate].
    + simpl. split.
      * rewrite map_app. simpl.
        apply (Permutation_NoDup (Permutation_cons_append (map id t) (id m))).
        constructor; [|exact Hnd].
        rewrite Hid. intro Hin. apply in_map_iff in Hin.
        destruct Hin as [m' [Hm' Hin]].
        assert (existsb (fun m' => id m' =? new_id) t = true).
        { apply existsb_exists. exists m'. split; [exact Hin|].
          apply Z.eqb_eq, Hm'. }
        congruence.
      * intro Hin. exfalso. apply in_map_iff in Hin.
        destruct Hin as [m' [Hm' Hin]].
        assert (existsb (fun m' => id m' =? new_id) t = true).
        { apply existsb_exists. exists m'. split; [exact Hin|].
          apply Z.eqb_eq, Hm'. }
        congruence.
  - simpl. split; [exact Hnd|]. intros _. split; [reflexivity|discriminate].
Qed.

Lemma insert_keeps_primary_key_witness :
  NoDup (map id library) /\ In 3 (map id library) /\
  NoDup (map id (fst (exec_insert service 60 6 (note alice None) library))) /\
  fst (exec_insert service 60 3 (note alice None) library) = library.
Proof.
  assert (Hnd : NoDup (map id library)).
  { rewrite MatchEdgeFacts.library_rows. simpl.
    repeat (constructor; [simpl; intuition discriminate|]). constructor. }
  assert (Hin : In 3 (map id library)).
  { rewrite MatchEdgeFacts.library_rows. simpl. auto. }
  split; [exact Hnd|]. split; [exact Hin|]. split.
  - apply (insert_keeps_primary_key service 60 6 (note alice None) library Hnd).
  - apply (insert_keeps_primary_key service 60 3 (note alice None) library Hnd).
    exact Hin.
Defined.

End InsertEdgeFacts.

(* ------------------------------------------------------------------ *)
(** ** The chronology view: years, months, items *)

Module ChronologyFacts.

Import Ordering OrderingFacts Chronology.
Local Open Scope Z_scope.

Lemma filter_partition_perm (A : Type) (p : A -> bool) (l : list A) :
  Permutation l (filter p l ++ filter (fun x => negb (p x)) l).
Proof.
  induction l as [|x l IH]; simpl; [constructor|].
  destruct (p x); simpl.
  - apply perm_skip, IH.
  - apply Permutation_cons_app, IH.
Qed.

Lemma entries_perm {K V : Type} (index_of : K -> option N) (o : object K V) :
  Permutation o (entries index_of o).
Proof.
  unfold entries.
  eapply Permutation_trans;
    [apply (filter_partition_perm _ (is_index index_of))|].
  apply Permutation_app_tail, order_by_perm.
Qed.

Lemma Permutation_concat (A : Type) (l l' : list (list A)) :
  Permutation l l' -> Permutation (List.concat l) (List.concat l').
Proof.
  induction 1; simpl.
  - constructor.
  - apply Permutation_app_head. assumption.
  - rewrite !app_assoc. apply Permutation_app_tail, Permutation_app_comm.
  - eapply Permutation_trans; eassumption.
Qed.

Lemma Permutation_concat_map (A B : Type) (f g : A -> list B) (l : list A) :
  (forall x, Permutation (f x) (g x)) ->
  Permutation (List.concat (map f l)) (List.concat (map g l)).
Proof.
  intro H. induction l as [|x l IH]; simpl; [constructor|].
  apply Permutation_app; [apply H|exact IH].
Qed.

Lemma StronglySorted_filter (A : Type) (R : A -> A -> Prop) (p : A -> bool)
  (l : list A) :
  StronglySorted R l -> StronglySorted R (filter p l).
Proof.
  induction 1 as [|x l Hs IH Hx]; simpl; [constructor|].
  destruct (p x); [|exact IH]. constructor; [exact IH|].
  rewrite Forall_forall in *. intros y Hy. apply Hx.
  apply filter_In in Hy. tauto.
Qed.

(** With distinct keys, an entry of the object is what [get] finds. *)
Lemma get_of_entry (K V : Type) (eqb : K -> K -> bool) (d : V) (o : object K V)
  (k : K) (v : V) :
  (forall a b, eqb a b = true <-> a = b) ->
  NoDup (map fst o) -> In (k, v) o -> get eqb d k o = v.
Proof.
  intros Heq. unfold get. induction o as [|[k' v'] o IH]; simpl; intros Hnd Hin.
  - contradiction.
  - inversion Hnd as [|? ? Hk' Hnd']; subst.
    destruct Hin as [Hin|Hin].
    + inversion Hin; subst.
      assert (E : eqb k k = true) by (apply Heq; reflexivity).
      rewrite E. reflexivity.
    + destruct (eqb k' k) eqn:E.
      * apply Heq in E. subst k'. exfalso. apply Hk'.
        change k with (fst (k, v)). apply in_map, Hin.
      * apply IH; assumption.
Qed.

Lemma string_eqb_iff (a b : string) : String.eqb a b = true <-> a = b.
Proof. apply String.eqb_eq. Qed.

Lemma z_eqb_iff (a b : Z) : Z.eqb a b = true <-> a = b.
Proof. apply Z.eqb_eq. Qed.

Section Facts.

Variable memory : Type.
Variable created_at : memory -> Z.
Variable year_of : Z -> Z.
Variable month_name : Z -> string.
Variable day_label : Z -> string.

(** The time value of the date of a memory, nothing when the date is
    invalid. *)
Variable date : memory -> option Z.

Lemma push_item_flat label (it : item memory) mo :
  Permutation (flat_months (push_item label it mo)) (it :: flat_months mo).
Proof.
  unfold flat_months. induction mo as [|[k its] mo IH]; simpl.
  - apply Permutation_refl.
  - destruct (String.eqb k label); simpl.
    + rewrite <- app_assoc. simpl.
      apply Permutation_sym, Permutation_middle.
    + eapply Permutation_trans; [apply Permutation_app_head, IH|].
      apply Permutation_sym, Permutation_middle.
Qed.

Lemma file_under_flat y label (it : item memory) yo :
  Permutation (flat_years (file_under y label it yo)) (it :: flat_years yo).
Proof.
  unfold flat_years. induction yo as [|[k mo] yo IH]; simpl.
  - apply Permutation_refl.
  - destruct (k =? y); simpl.
    + apply (Permutation_app_tail _ (push_item_flat label it mo)).
    + eapply Permutation_trans; [apply Permutation_app_head, IH|].
      apply Permutation_sym, Permutation_middle.
Qed.

Lemma fold_flat (l : list memory) yo :
  Permutation
    (flat_years (fold_left (file_memory created_at year_of month_name day_label) l yo))
    (map (as_item created_at day_label) l ++ flat_years yo).
Proof.
  revert yo. induction l as [|m l IH]; intro yo; simpl.
  - apply Permutation_refl.
  - eapply Permutation_trans; [apply IH|].
    unfold file_memory at 1.
    eapply Permutation_trans;
      [apply Permutation_app_head, file_under_flat|].
    apply Permutation_sym, Permutation_middle.
Qed.

Lemma push_item_get k label (it : item memory) mo :
  get String.eqb [] k (push_item label it mo)
  = if String.eqb k label then (get String.eqb [] k mo ++ [it])%list
    else get String.eqb [] k mo.
Proof.
  unfold get. induction mo as [|[k' its] mo IH]; simpl.
  - rewrite (String.eqb_sym label k). destruct (String.eqb k label); reflexivity.
  - destruct (String.eqb k' label) eqn:E; simpl.
    + apply String.eqb_eq in E. subst k'.
      rewrite (String.eqb_sym label k).
      destruct (String.eqb k label); reflexivity.
    + destruct (String.eqb k' k) eqn:E'; simpl.
      * apply String.eqb_eq in E'. subst k'. rewrite E. reflexivity.
      * exact IH.
Qed.

Lemma file_under_cell y' l' y label (it : item memory) yo :
  cell y' l' (file_under y label it yo)
  = if (y' =? y) && String.eqb l' label then (cell y' l' yo ++ [it])%list
    else cell y' l' yo.
Proof.
  unfold cell, get at 2 4 6. induction yo as [|[k mo] yo IH]; simpl.
  - rewrite (Z.eqb_sym y y'). destruct (y' =? y); simpl; [|reflexivity].
    unfold get. simpl. rewrite (String.eqb_sym label l').
    destruct (String.eqb l' label); reflexivity.
  - destruct (k =? y) eqn:E; simpl.
    + apply Z.eqb_eq in E. subst k. rewrite (Z.eqb_sym y y').
      destruct (y' =? y); simpl; [|reflexivity].
      apply push_item_get.
    + destruct (k =? y') eqn:E'; simpl.
      * apply Z.eqb_eq in E'. subst k. rewrite E. reflexivity.
      * exact IH.
Qed.

Lemma fold_cell y label (l : list memory) yo :
  cell y label (fold_left (file_memory created_at year_of month_name day_label) l yo)
  = (cell y label yo
     ++ map (as_item created_at day_label)
          (of_month created_at year_of month_name y label l))%list.
Proof.
  revert yo. induction l as [|m l IH]; intro yo; simpl.
  - rewrite app_nil_r. reflexivity.
  - rewrite IH. unfold file_memory at 1. rewrite file_under_cell.
    rewrite (Z.eqb_sym y), (String.eqb_sym label).
    destruct ((year_of (created_at m) =? y)
              && String.eqb (month_name (created_at m)) label); simpl.
    + rewrite <- app_assoc. reflexivity.
    + reflexivity.
Qed.

Lemma push_item_keys k label (it : item memory) mo :
  In k (map fst (push_item label it mo)) <-> k = label \/ In k (map fst mo).
Proof.
  induction mo as [|[k' its] mo IH]; simpl.
  - intuition.
  - destruct (String.eqb k' label) eqn:E; simpl.
    + apply String.eqb_eq in E. subst k'. intuition.
    + rewrite IH. intuition.
Qed.

Lemma push_item_well_formed label (it : item memory) mo :
  NoDup (map fst mo) -> Forall (fun mi => snd mi <> []) mo ->
  NoDup (map fst (push_item label it mo)) /\
  push_item label it mo <> [] /\
  Forall (fun mi => snd mi <> []) (push_item label it mo).
Proof.
  induction mo as [|[k its] mo IH]; simpl; intros Hnd Hne.
  - repeat split; try discriminate.
    + constructor; [intros []|constructor].
    + constructor; [discriminate|constructor].
  - inversion Hnd as [|? ? Hk Hnd']; subst.
    inversion Hne as [|? ? Hits Hne']; subst.
    destruct (String.eqb k label) eqn:E; simpl.
    + repeat split; try discriminate.
      * constructor; assumption.
      * constructor; [|exact Hne']. simpl. destruct its; discriminate.
    + destruct (IH Hnd' Hne') as [IH1 [_ IH3]].
      repeat split; try discriminate.
      * constructor; [|exact IH1]. rewrite push_item_keys.
        intros [->|Hin]; [|contradiction].
        rewrite String.eqb_refl in E. discriminate.
      * constructor; assumption.
Qed.

Lemma file_under_keys k y label (it : item memory) yo :
  In k (map fst (file_under y label it yo)) <-> k = y \/ In k (map fst yo).
Proof.
  induction yo as [|[k' mo] yo IH]; simpl.
  - intuition.
  - destruct (k' =? y) eqn:E; simpl.
    + apply Z.eqb_eq in E. subst k'. intuition.
    + rewrite IH. intuition.
Qed.

Lemma file_under_well_formed y label (it : item memory) yo :
  well_formed yo -> well_formed (file_under y label it yo).
Proof.
  unfold well_formed. induction yo as [|[k mo] yo IH]; simpl; intros [Hnd Hall].
  - split.
    + constructor; [intros []|constructor].
    + constructor; [|constructor]. simpl. repeat split; try discriminate.
      * constructor; [intros []|constructor].
      * constructor; [discriminate|constructor].
  - inversion Hnd as [|? ? Hk Hnd']; subst.
    inversion Hall as [|? ? [Hm1 [Hm2 Hm3]] Hall']; subst. simpl in *.
    destruct (k =? y) eqn:E; simpl.
    + split; [constructor; assumption|].
      constructor; [|exact Hall']. simpl.
      apply push_item_well_formed; assumption.
    + destruct (IH (conj Hnd' Hall')) as [IH1 IH2].
      split.
      * constructor; [|exact IH1]. rewrite file_under_keys.
        intros [->|Hin]; [|contradiction].
        rewrite Z.eqb_refl in E. discriminate.
      * constructor; [|exact IH2]. simpl. auto.
Qed.

Lemma year_groups_well_formed (ms : list memory) :
  well_formed (year_groups created_at year_of month_name day_label ms).
Proof.
  unfold year_groups.
  assert (H : forall l yo,
             well_formed yo ->
             well_formed
               (fold_left (file_memory created_at year_of month_name day_label)
                  l yo)).
  { induction l as [|m l IH]; intros yo Hyo; simpl; [exact Hyo|].
    apply IH. unfold file_memory. apply file_under_well_formed, Hyo. }
  apply H. split; constructor.
Qed.

Lemma newest_first_total (a b : memory) :
  newest_first created_at a b = true \/ newest_first created_at b a = true.
Proof. unfold newest_first. rewrite !Z.leb_le. lia. Qed.

Lemma newest_first_trans (a b c : memory) :
  newest_first created_at a b = true -> newest_first created_at b c = true ->
  newest_first created_at a c = true.
Proof. unfold newest_first. rewrite !Z.leb_le. lia. Qed.

Lemma latest_year_first_total (a b : Z * object string (list (item memory))) :
  latest_year_first a b = true \/ latest_year_first b a = true.
Proof. unfold latest_year_first. rewrite !Z.leb_le. lia. Qed.

Lemma latest_year_first_trans (a b c : Z * object string (list (item memory))) :
  latest_year_first a b = true -> latest_year_first b c = true ->
  latest_year_first a c = true.
Proof. unfold latest_year_first. rewrite !Z.leb_le. lia. Qed.

Lemma strictly_sorted_keys (V : Type) (l : list (Z * V)) :
  StronglySorted (fun a b => fst b <= fst a) l -> NoDup (map fst l) ->
  StronglySorted (fun a b => fst b < fst a) l.
Proof.
  induction 1 as [|x l Hs IH Hx]; simpl; intro Hnd; constructor.
  - apply IH. inversion Hnd; assumption.
  - inversion Hnd as [|? ? Hnotin _]; subst.
    rewrite Forall_forall in *. intros y Hy.
    specialize (Hx y Hy).
    assert (fst y <> fst x).
    { intro E. apply Hnotin. rewrite <- E. apply in_map, Hy. }
    lia.
Qed.

(** The years object behind a group of the result, and the months entry
    behind a month group. *)
Lemma group_origin (ms : list memory) g mg :
  In g (groupMemories created_at year_of month_name day_label ms) ->
  In mg (months g) ->
  exists mo,
    In (year g, mo) (year_groups created_at year_of month_name day_label ms) /\
    In (month mg, items mg) mo /\
    months g = map (fun mi => mk_month_group (fst mi) (snd mi))
                 (entries array_index mo).
Proof.
  unfold groupMemories. intros Hg Hmg.
  apply in_map_iff in Hg. destruct Hg as [[y mo] [<- Hin]]. simpl in *.
  apply order_by_In in Hin.
  apply (Permutation_in _ (Permutation_sym (entries_perm year_index _))) in Hin.
  apply in_map_iff in Hmg. destruct Hmg as [[l its] [<- Hmi]]. simpl.
  apply (Permutation_in _ (Permutation_sym (entries_perm array_index _))) in Hmi.
  exists mo. auto.
Qed.

(** No year group without month, no month twice in a year, no month group
    without item. *)
Lemma groups_well_formed (ms : list memory) :
  Forall (fun g => NoDup (map month (months g)) /\ months g <> [] /\
                   Forall (fun mg => items mg <> []) (months g))
    (groupMemories created_at year_of month_name day_label ms).
Proof.
  pose proof (year_groups_well_formed ms) as [Hnd Hall].
  set (yg := year_groups created_at year_of month_name day_label ms) in *.
  apply Forall_forall. intros g Hg.
  unfold groupMemories in Hg. fold yg in Hg.
  apply in_map_iff in Hg. destruct Hg as [[y mo] [<- Hin]]. simpl.
  apply order_by_In in Hin.
  apply (Permutation_in _ (Permutation_sym (entries_perm year_index _))) in Hin.
  rewrite Forall_forall in Hall. destruct (Hall _ Hin) as [H1 [H2 H3]].
  simpl in *.
  pose proof (entries_perm array_index mo) as Hp.
  repeat split.
  - rewrite map_map. simpl.
    eapply Permutation_NoDup; [|exact H1]. apply Permutation_map, Hp.
  - intro E. apply map_eq_nil in E.
    apply H2. apply Permutation_sym in Hp. rewrite E in Hp.
    apply Permutation_nil in Hp. exact Hp.
  - apply Forall_map. simpl.
    eapply Permutation_Forall; [exact Hp|exact H3].
Qed.

(** The items of a month group are the memories of its year and month, as
    the sort left them. *)
Lemma group_items_of_month (ms : list memory) g mg :
  In g (groupMemories created_at year_of month_name day_label ms) ->
  In mg (months g) ->
  items mg
  = map (as_item created_at day_label)
      (of_month created_at year_of month_name (year g) (month mg)
         (order_by (newest_first created_at) ms)).
Proof.
  intros Hg Hmg.
  destruct (group_origin ms g mg Hg Hmg) as [mo [Hy [Hm _]]].
  pose proof (year_groups_well_formed ms) as [Hnd Hall].
  assert (Hmo : get Z.eqb [] (year g)
                  (year_groups created_at year_of month_name day_label ms) = mo).
  { apply get_of_entry; [apply z_eqb_iff|exact Hnd|exact Hy]. }
  assert (Hits : cell (year g) (month mg)
                   (year_groups created_at year_of month_name day_label ms)
                 = items mg).
  { unfold cell. rewrite Hmo.
    apply get_of_entry; [apply string_eqb_iff| |exact Hm].
    rewrite Forall_forall in Hall. apply (Hall _ Hy). }
  unfold year_groups in Hits. rewrite fold_cell in Hits. simpl in Hits.
  symmetry. exact Hits.
Qed.

(** Each item of a month group is of the year and the month of the group. *)
Lemma group_items_labelled (ms : list memory) g mg :
  In g (groupMemories created_at year_of month_name day_label ms) ->
  In mg (months g) ->
  Forall (fun it =>
            year_of (created_at (item_memory it)) = year g /\
            month_name (created_at (item_memory it)) = month mg /\
            dayLabel it = day_label (created_at (item_memory it)))
         (items mg).
Proof.
  intros Hg Hmg. rewrite (group_items_of_month ms g mg Hg Hmg).
  apply Forall_map. apply Forall_forall. intros m Hm'.
  apply filter_In in Hm'. destruct Hm' as [_ Hm'].
  apply andb_true_iff in Hm'. destruct Hm' as [H1 H2].
  apply Z.eqb_eq in H1. apply String.eqb_eq in H2. simpl. auto.
Qed.

(** Each item of a month group holds one of the memories given. *)
Lemma group_item_given (ms : list memory) g mg it :
  In g (groupMemories created_at year_of month_name day_label ms) ->
  In mg (months g) -> In it (items mg) -> In (item_memory it) ms.
Proof.
  intros Hg Hmg Hit. rewrite (group_items_of_month ms g mg Hg Hmg) in Hit.
  apply in_map_iff in Hit. destruct Hit as [m [<- Hm]]. simpl.
  unfold of_month in Hm. apply filter_In in Hm. destruct Hm as [Hm _].
  apply (order_by_In _ _ _ _ Hm).
Qed.

Lemma valid_date_of (ms : list memory) m :
  valid_dates created_at date ms -> In m ms -> date m = Some (created_at m).
Proof. unfold valid_dates. rewrite Forall_forall. auto. Qed.

(** X13.  For memories whose dates are all valid, the groups come by year,
    latest first, no year twice, and every year shown is the year of the
    date of one of the memories; within a year no month comes twice, and no
    group is empty. *)
Theorem groupMemories_years_descending (ms : list memory) :
  valid_dates created_at date ms ->
  StronglySorted (fun a b => year b < year a)
    (groupMemories created_at year_of month_name day_label ms) /\
  Forall (fun g => NoDup (map month (months g)) /\ months g <> [] /\
                   Forall (fun mg => items mg <> []) (months g))
    (groupMemories created_at year_of month_name day_label ms) /\
  Forall (fun g => exists m t,
                     In m ms /\ date m = Some t /\ year_of t = year g)
    (groupMemories created_at year_of month_name day_label ms).
Proof.
  intro Hv.
  pose proof (year_groups_well_formed ms) as [Hnd _].
  pose proof (groups_well_formed ms) as Hwf.
  split; [|split; [exact Hwf|]].
  - unfold groupMemories.
    apply StronglySorted_map. simpl.
    apply strictly_sorted_keys.
    + eapply StronglySorted_impl;
        [|apply (@order_by_sorted _ latest_year_first
                   latest_year_first_total latest_year_first_trans)].
      intros a b H. unfold latest_year_first in H. apply Z.leb_le, H.
    + eapply Permutation_NoDup; [|exact Hnd].
      apply Permutation_map.
      eapply Permutation_trans; [apply (entries_perm year_index)|].
      apply order_by_perm.
  - apply Forall_forall. intros g Hg.
    rewrite Forall_forall in Hwf. destruct (Hwf g Hg) as [_ [Hne Hitems]].
    destruct (months g) as [|mg rest] eqn:Em; [congruence|].
    assert (Hmg : In mg (months g)) by (rewrite Em; left; reflexivity).
    inversion Hitems as [|? ? Hmgne _]; subst.
    destruct (items mg) as [|it its] eqn:Ei; [congruence|].
    assert (Hit : In it (items mg)) by (rewrite Ei; left; reflexivity).
    pose proof (group_items_labelled ms g mg Hg Hmg) as Hl.
    rewrite Forall_forall in Hl. destruct (Hl it Hit) as [Hy _].
    pose proof (group_item_given ms g mg it Hg Hmg Hit) as Hin.
    exists (item_memory it), (created_at (item_memory it)).
    split; [exact Hin|]. split; [|exact Hy].
    apply (valid_date_of ms); assumption.
Qed.

(** X14.  For memories whose dates are all valid, a month group holds
    exactly the memories of its year and month, in the order of the sort:
    newest first, memories of the same instant in the order they were given;
    each has a date of the year and the month of the group and carries the
    day label of that date. *)
Theorem groupMemories_group_content (ms : list memory) g mg :
  valid_dates created_at date ms ->
  In g (groupMemories created_at year_of month_name day_label ms) ->
  In mg (months g) ->
  items mg
  = map (as_item created_at day_label)
      (of_month created_at year_of month_name (year g) (month mg)
         (order_by (newest_first created_at) ms)) /\
  StronglySorted
    (fun a b => not_later (date (item_memory b)) (date (item_memory a)))
    (items mg) /\
  Forall (fun it =>
            exists t,
              date (item_memory it) = Some t /\
              year_of t = year g /\ month_name t = month mg /\
              dayLabel it = day_label t)
         (items mg).
Proof.
  intros Hv Hg Hmg.
  pose proof (group_items_of_month ms g mg Hg Hmg) as Hits.
  assert (Hdate : forall it, In it (items mg) ->
                    date (item_memory it) = Some (created_at (item_memory it))).
  { intros it Hit. apply (valid_date_of ms); [exact Hv|].
    apply (group_item_given ms g mg it); assumption. }
  split; [exact Hits|]. split.
  - apply (@StronglySorted_impl_In _
             (fun a b => created_at (item_memory b) <= created_at (item_memory a))).
    + intros a b Ha Hb Hle. rewrite (Hdate a Ha), (Hdate b Hb). exact Hle.
    + rewrite Hits.
      apply StronglySorted_map. apply StronglySorted_filter.
      eapply StronglySorted_impl;
        [|apply (@order_by_sorted _ (newest_first created_at)
                   newest_first_total newest_first_trans)].
      intros a b H. simpl. unfold newest_first in H. apply Z.leb_le, H.
  - pose proof (group_items_labelled ms g mg Hg Hmg) as Hl.
    rewrite Forall_forall in *. intros it Hit.
    destruct (Hl it Hit) as [H1 [H2 H3]].
    exists (created_at (item_memory it)). rewrite (Hdate it Hit). auto.
Qed.

(** The items of the result are the items of the object it is read off. *)
Lemma grouped_items_flat (ms : list memory) :
  Permutation
    (all_items (groupMemories created_at year_of month_name day_label ms))
    (flat_years (year_groups created_at year_of month_name day_label ms)).
Proof.
  unfold all_items, groupMemories, flat_years. rewrite map_map. simpl.
  eapply Permutation_trans.
  - apply Permutation_concat_map with (g := fun ym => flat_months (snd ym)).
    intros [y mo]. simpl. rewrite map_map. simpl. unfold flat_months.
    apply Permutation_concat, Permutation_map, Permutation_sym, entries_perm.
  - apply Permutation_concat, Permutation_map, Permutation_sym.
    eapply Permutation_trans; [apply (entries_perm year_index)|].
    apply order_by_perm.
Qed.

(** X15.  Grouping loses nothing and repeats nothing: the memories of all
    the groups together are the memories that were given, each once. *)
Theorem groupMemories_keeps_every_memory (ms : list memory) :
  Permutation
    (map item_memory
       (all_items (groupMemories created_at year_of month_name day_label ms)))
    ms.
Proof.
  eapply Permutation_trans; [apply Permutation_map, grouped_items_flat|].
  unfold year_groups.
  eapply Permutation_trans; [apply Permutation_map, fold_flat|].
  simpl. rewrite app_nil_r, map_map. simpl. rewrite map_id.
  apply Permutation_sym, order_by_perm.
Qed.

Lemma newest_app (its : list (item memory)) it :
  its <> [] -> newest created_at (its ++ [it]) = newest created_at its.
Proof. destruct its; [congruence|reflexivity]. Qed.

Lemma push_item_newest a label (it : item memory) mo :
  Forall (fun mi => snd mi <> []) mo ->
  Forall (newest_month_first created_at a) (map snd mo) ->
  newest_month_first created_at a [it] ->
  Forall (newest_month_first created_at a) (map snd (push_item label it mo)).
Proof.
  intros Hne Hall Hit.
  induction mo as [|[k its] mo IH]; simpl.
  - constructor; [exact Hit|constructor].
  - inversion Hne as [|? ? Hits Hne']; subst.
    inversion Hall as [|? ? Ha Hall']; subst. simpl in *.
    destruct (String.eqb k label); simpl.
    + constructor; [|exact Hall'].
      unfold newest_month_first in *. rewrite newest_app by exact Hits.
      exact Ha.
    + constructor; [exact Ha|]. apply IH; assumption.
Qed.

Lemma push_item_sorted label (it : item memory) mo :
  Forall (fun mi => snd mi <> []) mo ->
  StronglySorted (newest_month_first created_at) (map snd mo) ->
  Forall (fun it' => created_at (item_memory it) <= created_at (item_memory it'))
         (flat_months mo) ->
  StronglySorted (newest_month_first created_at)
    (map snd (push_item label it mo)).
Proof.
  induction mo as [|[k its] mo IH]; simpl; intros Hne Hs Hold.
  - constructor; constructor.
  - inversion Hne as [|? ? Hits Hne']; subst.
    inversion Hs as [|? ? Hs' Hhead]; subst.
    unfold flat_months in Hold. simpl in Hold.
    apply Forall_app in Hold. destruct Hold as [Hold1 Hold2].
    simpl in *.
    destruct (String.eqb k label); simpl.
    + constructor; [exact Hs'|].
      eapply Forall_impl; [|exact Hhead].
      intros b Hb. unfold newest_month_first in *.
      rewrite newest_app by exact Hits. exact Hb.
    + constructor; [apply IH; assumption|].
      apply push_item_newest; [exact Hne'|exact Hhead|].
      unfold newest_month_first. destruct its as [|i its]; [congruence|].
      simpl. inversion Hold1; assumption.
Qed.

Lemma file_under_sorted y label (it : item memory) yo :
  well_formed yo ->
  Forall (fun ym => StronglySorted (newest_month_first created_at)
                      (map snd (snd ym))) yo ->
  Forall (fun it' => created_at (item_memory it) <= created_at (item_memory it'))
         (flat_years yo) ->
  Forall (fun ym => StronglySorted (newest_month_first created_at)
                      (map snd (snd ym)))
         (file_under y label it yo).
Proof.
  intros [_ Hwf]. induction yo as [|[k mo] yo IH]; simpl; intros Hs Hold.
  - constructor; [|constructor]. simpl. constructor; constructor.
  - inversion Hwf as [|? ? [_ [_ Hne]] Hwf']; subst.
    inversion Hs as [|? ? Hmo Hs']; subst.
    unfold flat_years in Hold. simpl in Hold.
    apply Forall_app in Hold. destruct Hold as [Hold1 Hold2]. simpl in *.
    destruct (k =? y); simpl.
    + constructor; [|exact Hs']. simpl.
      apply push_item_sorted; assumption.
    + constructor; [exact Hmo|]. apply IH; assumption.
Qed.

Lemma fold_sorted (l : list memory) yo :
  well_formed yo ->
  Forall (fun ym => StronglySorted (newest_month_first created_at)
                      (map snd (snd ym))) yo ->
  StronglySorted (fun a b => created_at b <= created_at a) l ->
  Forall (fun it' => Forall (fun m => created_at m <= created_at (item_memory it')) l)
         (flat_years yo) ->
  Forall (fun ym => StronglySorted (newest_month_first created_at)
                      (map snd (snd ym)))
         (fold_left (file_memory created_at year_of month_name day_label) l yo).
Proof.
  revert yo. induction l as [|m l IH]; intros yo Hwf Hs Hl Hold; simpl.
  - exact Hs.
  - inversion Hl as [|? ? Hl' Hm]; subst.
    apply IH.
    + unfold file_memory. apply file_under_well_formed, Hwf.
    + unfold file_memory. apply file_under_sorted; [exact Hwf|exact Hs|].
      eapply Forall_impl; [|exact Hold]. intros it' H.
      inversion H; assumption.
    + exact Hl'.
    + unfold file_memory.
      eapply Permutation_Forall;
        [apply Permutation_sym, file_under_flat|].
      constructor.
      * simpl. rewrite Forall_forall in *. intros x Hx. apply Hm, Hx.
      * eapply Forall_impl; [|exact Hold]. intros it' H.
        inversion H; assumption.
Qed.

Lemma entries_without_index (K V : Type) (index_of : K -> option N)
  (o : object K V) :
  Forall (fun kv => index_of (fst kv) = None) o -> entries index_of o = o.
Proof.
  intro H. unfold entries.
  assert (H1 : filter (is_index index_of) o = []).
  { induction H as [|kv o Hkv _ IH]; simpl; [reflexivity|].
    assert (Hk : is_index index_of kv = false)
      by (unfold is_index; rewrite Hkv; reflexivity).
    rewrite Hk. exact IH. }
  assert (H2 : filter (fun kv => negb (is_index index_of kv)) o = o).
  { clear H1. induction H as [|kv o Hkv _ IH]; simpl; [reflexivity|].
    assert (Hk : is_index index_of kv = false)
      by (unfold is_index; rewrite Hkv; reflexivity).
    rewrite Hk. simpl. now rewrite IH. }
  rewrite H1, H2. reflexivity.
Qed.

(** X16.  For memories whose dates are all valid, and when no month label
    reads as an array index, the months of a year come in the order of their
    newest memory, latest first. *)
Theorem groupMemories_months_newest_first (ms : list memory) g :
  valid_dates created_at date ms ->
  (forall t, array_index (month_name t) = None) ->
  In g (groupMemories created_at year_of month_name day_label ms) ->
  StronglySorted
    (fun a b => not_later (newest_date date b) (newest_date date a))
    (map items (months g)).
Proof.
  intros Hv Hidx Hg.
  pose proof (year_groups_well_formed ms) as Hwf.
  assert (Hsorted : Forall (fun ym => StronglySorted (newest_month_first created_at)
                                        (map snd (snd ym)))
                      (year_groups created_at year_of month_name day_label ms)).
  { unfold year_groups. apply fold_sorted.
    - split; constructor.
    - constructor.
    - eapply StronglySorted_impl;
        [|apply (@order_by_sorted _ (newest_first created_at)
                   newest_first_total newest_first_trans)].
      intros a b H. unfold newest_first in H. apply Z.leb_le, H.
    - constructor. }
  pose proof Hg as Hg'. unfold groupMemories in Hg'.
  apply in_map_iff in Hg'. destruct Hg' as [[y mo] [Eg Hin]].
  apply order_by_In in Hin.
  apply (Permutation_in _ (Permutation_sym (entries_perm year_index _))) in Hin.
  rewrite Forall_forall in Hsorted. specialize (Hsorted _ Hin). simpl in Hsorted.
  assert (Hkeys : Forall (fun kv : string * list (item memory) =>
                            array_index (fst kv) = None) mo).
  { apply Forall_forall. intros [l its] Hl. simpl.
    assert (Hmg : In (mk_month_group l its) (months g)).
    { rewrite <- Eg. simpl. apply in_map_iff. exists (l, its). split; [reflexivity|].
      apply (Permutation_in _ (entries_perm array_index mo)). exact Hl. }
    pose proof (group_items_labelled ms g _ Hg Hmg) as Hall.
    destruct Hwf as [_ Hwf]. rewrite Forall_forall in Hwf.
    destruct (Hwf _ Hin) as [_ [_ Hne]]. rewrite Forall_forall in Hne.
    specialize (Hne _ Hl). simpl in *.
    destruct its as [|it its]; [congruence|].
    inversion Hall as [|? ? Hhead _]; subst. destruct Hhead as [_ [Hm _]].
    simpl in Hm. rewrite <- Hm. apply Hidx. }
  assert (Hold : StronglySorted (newest_month_first created_at)
                   (map items (months g))).
  { rewrite <- Eg. simpl. rewrite (entries_without_index _ _ _ _ Hkeys).
    rewrite map_map. simpl. exact Hsorted. }
  assert (Hfirst : forall its, In its (map items (months g)) ->
                     exists it rest,
                       its = it :: rest /\
                       date (item_memory it) = Some (created_at (item_memory it))).
  { intros its Hits. apply in_map_iff in Hits. destruct Hits as [mg [<- Hmg]].
    pose proof (groups_well_formed ms) as Hgw. rewrite Forall_forall in Hgw.
    destruct (Hgw g Hg) as [_ [_ Hne]]. rewrite Forall_forall in Hne.
    specialize (Hne mg Hmg).
    destruct (items mg) as [|it rest] eqn:Ei; [congruence|].
    exists it, rest. split; [reflexivity|].
    apply (valid_date_of ms); [exact Hv|].
    apply (group_item_given ms g mg it Hg Hmg). rewrite Ei. left. reflexivity. }
  apply (@StronglySorted_impl_In _ (newest_month_first created_at)); [|exact Hold].
  intros a b Ha Hb Hab.
  destruct (Hfirst a Ha) as [ia [ra [-> Hda]]].
  destruct (Hfirst b Hb) as [ib [rb [-> Hdb]]].
  unfold newest_month_first in Hab. simpl in *. rewrite Hda, Hdb. exact Hab.
Qed.

End Facts.

Import ChronologySamples.

(** The fallback memories, grouped by a browser in UTC and in English. *)
Example mock_grouping : group_in_english mock_memories = mock_groups.
Proof. vm_compute. reflexivity. Qed.

(** The dates of the fallback memories are valid. *)
Lemma mock_dates_valid :
  valid_dates note_created_at (fun n => Some (note_created_at n)) mock_memories.
Proof. apply Forall_forall. intros n _. reflexivity. Qed.

Lemma groupMemories_years_descending_witness :
  valid_dates note_created_at (fun n => Some (note_created_at n)) mock_memories /\
  StronglySorted (fun a b => year b < year a) (group_in_english mock_memories) /\
  Forall (fun g => NoDup (map month (months g)) /\ months g <> [] /\
                   Forall (fun mg => items mg <> []) (months g))
    (group_in_english mock_memories) /\
  Forall (fun g => exists m t,
                     In m mock_memories /\ Some (note_created_at m) = Some t /\
                     utc_year t = year g)
    (group_in_english mock_memories).
Proof.
  split; [exact mock_dates_valid|].
  exact (groupMemories_years_descending note note_created_at utc_year
           english_month english_day (fun n => Some (note_created_at n))
           mock_memories mock_dates_valid).
Defined.

Lemma groupMemories_group_content_witness :
  valid_dates note_created_at (fun n => Some (note_created_at n)) mock_memories /\
  In (mk_year_group 2023 [november; october]) (group_in_english mock_memories) /\
  In november [november; october] /\
  items november
  = map (as_item note_created_at english_day)
      (of_month note_created_at utc_year english_month 2023 "November"
         (order_by (newest_first note_created_at) mock_memories)) /\
  StronglySorted
    (fun a b => not_later (Some (note_created_at (item_memory b)))
                  (Some (note_created_at (item_memory a))))
    (items november).
Proof.
  assert (Hg : In (mk_year_group 2023 [november; october])
                 (group_in_english mock_memories)).
  { rewrite mock_grouping. left. reflexivity. }
  assert (Hm : In november [november; october]) by (left; reflexivity).
  split; [exact mock_dates_valid|]. split; [exact Hg|]. split; [exact Hm|].
  destruct (groupMemories_group_content note note_created_at utc_year
              english_month english_day (fun n => Some (note_created_at n))
              mock_memories (mk_year_group 2023 [november; october]) november
              mock_dates_valid Hg Hm) as [H1 [H2 _]].
  split; [exact H1|exact H2].
Defined.

Lemma english_months_are_names (t : Z) : array_index (english_month t) = None.
Proof.
  unfold english_month.
  generalize (Z.to_nat (utc_month t - 1)). intro n.
  do 12 (destruct n as [|n]; [reflexivity|]). destruct n; reflexivity.
Qed.

Lemma groupMemories_months_newest_first_witness :
  valid_dates note_created_at (fun n => Some (note_created_at n)) mock_memories /\
  (forall t, array_index (english_month t) = None) /\
  In (mk_year_group 2023 [november; october]) (group_in_english mock_memories) /\
  StronglySorted
    (fun a b => not_later (newest_date (fun n => Some (note_created_at n)) b)
                  (newest_date (fun n => Some (note_created_at n)) a))
    (map items [november; october]).
Proof.
  assert (Hg : In (mk_year_group 2023 [november; october])
                 (group_in_english mock_memories)).
  { rewrite mock_grouping. left. reflexivity. }
  split; [exact mock_dates_valid|].
  split; [exact english_months_are_names|]. split; [exact Hg|].
  apply (groupMemories_months_newest_first note note_created_at utc_year
           english_month english_day (fun n => Some (note_created_at n))
           mock_memories (mk_year_group 2023 [november; october])
           mock_dates_valid english_months_are_names Hg).
Defined.

End ChronologyFacts.

(* ------------------------------------------------------------------ *)
(** ** The session: sign-in, sign-out, the token on requests *)

Module ClientFacts.

Import Client.
Local Open Scope string_scope.

Lemma getItem_setItem_same (k v : string) (st : store) :
  getItem k (setItem k v st) = Some v.
Proof. unfold getItem, setItem. simpl. rewrite String.eqb_refl. reflexivity. Qed.

Lemma getItem_removeItem_same (k : string) (st : store) :
  getItem k (removeItem k st) = None.
Proof.
  unfold getItem, removeItem. induction st as [|[k' v] st IH]; simpl.
  - reflexivity.
  - destruct (String.eqb k' k) eqn:E; simpl; [exact IH|].
    rewrite E. exact IH.
Qed.

Lemma getItem_removeItem_other (k k' : string) (st : store) :
  k <> k' -> getItem k (removeItem k' st) = getItem k st.
Proof.
  intro Hne. unfold getItem, removeItem.
  induction st as [|[k0 v] st IH]; simpl; [reflexivity|].
  destruct (String.eqb k0 k') eqn:E; simpl.
  - apply String.eqb_eq in E. subst k0.
    assert (E' : String.eqb k' k = false)
      by (apply String.eqb_neq; congruence).
    rewrite E'. exact IH.
  - destruct (String.eqb k0 k); [reflexivity|exact IH].
Qed.

Lemma getItem_setItem_other (k k' v : string) (st : store) :
  k <> k' -> getItem k (setItem k' v st) = getItem k st.
Proof.
  intro Hne.
  assert (E : String.eqb k' k = false) by (apply String.eqb_neq; congruence).
  unfold setItem, getItem at 1. simpl. rewrite E.
  apply (getItem_removeItem_other k k' st Hne).
Qed.

Lemma removeItem_idempotent (k : string) (st : store) :
  removeItem k (removeItem k st) = removeItem k st.
Proof.
  unfold removeItem. induction st as [|[k' v] st IH]; simpl; [reflexivity|].
  destruct (String.eqb k' k) eqn:E; simpl; [exact IH|].
  rewrite E. simpl. now rewrite IH.
Qed.

Lemma removeItem_comm (k k' : string) (st : store) :
  removeItem k (removeItem k' st) = removeItem k' (removeItem k st).
Proof.
  unfold removeItem. induction st as [|[k0 v] st IH]; simpl; [reflexivity|].
  destruct (String.eqb k0 k') eqn:E'; destruct (String.eqb k0 k) eqn:E; simpl;
    rewrite ?E, ?E'; simpl; rewrite ?IH; reflexivity.
Qed.

(** A truthy boolean or string is stored as a string that is not empty;
    not so every truthy value: the empty array is stored as the empty
    string. *)
Lemma truthy_to_string (v : value) :
  (forall b s, v <> Other b s) -> truthy v = true ->
  exists t, to_string v = Some t /\ t <> "".
Proof.
  intros Hv. destruct v as [| |[|]|s|b o]; simpl; try discriminate.
  - intros _. exists "true". split; [reflexivity|discriminate].
  - intros H. exists s. split; [reflexivity|].
    intro E. subst s. discriminate.
  - exfalso. apply (Hv b o). reflexivity.
Qed.

Lemma logout_clears (session : store) :
  getItem TOKEN_KEY (logout session) = None /\
  getItem EMAIL_KEY (logout session) = None /\
  (forall k, k <> TOKEN_KEY -> k <> EMAIL_KEY ->
             getItem k (logout session) = getItem k session).
Proof.
  unfold logout. repeat split.
  - rewrite getItem_removeItem_other by discriminate.
    apply getItem_removeItem_same.
  - apply getItem_removeItem_same.
  - intros k H1 H2. rewrite !getItem_removeItem_other by assumption.
    reflexivity.
Qed.

Lemma logout_idempotent (session : store) :
  logout (logout session) = logout session.
Proof.
  unfold logout.
  rewrite (removeItem_comm TOKEN_KEY EMAIL_KEY (removeItem TOKEN_KEY session)).
  rewrite (removeItem_idempotent TOKEN_KEY).
  apply removeItem_idempotent.
Qed.

(** X17.  Signing out leaves no session: afterwards [isAuthenticated] is
    false and [getUserEmail] finds nothing, every other entry of the storage
    is untouched, and signing out again changes nothing. *)
Theorem logout_ends_session (session : store) :
  isAuthenticated (logout session) = false /\
  getUserEmail (logout session) = None /\
  (forall k, k <> TOKEN_KEY -> k <> EMAIL_KEY ->
             getItem k (logout session) = getItem k session) /\
  logout (logout session) = logout session.
Proof.
  destruct (logout_clears session) as [Ht [He Ho]].
  unfold isAuthenticated, getUserEmail. rewrite Ht, He.
  repeat split; auto. apply logout_idempotent.
Qed.

(** X18.  The request interceptor sends the token of the session and
    nothing else: a request carries [Authorization: Bearer <token>] exactly
    when the session holds a token that is not empty; without one the
    headers go out as they are, and no other header is ever changed. *)
Theorem inject_jwt_sends_session_token (session hs : store) :
  (isAuthenticated session = true ->
   exists token,
     getItem TOKEN_KEY session = Some token /\ token <> "" /\
     getItem "Authorization" (inject_jwt session hs) = Some ("Bearer " ++ token)) /\
  (isAuthenticated session = false -> inject_jwt session hs = hs) /\
  (forall k, k <> "Authorization" ->
             getItem k (inject_jwt session hs) = getItem k hs).
Proof.
  unfold isAuthenticated, inject_jwt.
  destruct (getItem TOKEN_KEY session) as [token|].
  - destruct (String.eqb token "") eqn:E; simpl.
    + repeat split; auto. discriminate.
    + repeat split.
      * intros _. exists token. split; [reflexivity|]. split.
        -- apply String.eqb_neq, E.
        -- apply getItem_setItem_same.
      * discriminate.
      * intros k Hk. apply getItem_setItem_other, Hk.
  - repeat split; auto. discriminate.
Qed.

Lemma sign_in_granted (token email : value) (t a : string) (session : store) :
  truthy token = true -> to_string token = Some t -> to_string email = Some a ->
  sign_in (Resolved (Body token email)) session
  = (setItem EMAIL_KEY a (setItem TOKEN_KEY t session),
     false, Returned (Body token email)).
Proof.
  intros H Ht Ha. unfold sign_in. simpl. rewrite H, Ht, Ha. reflexivity.
Qed.

Lemma stored_session (t a : string) (session : store) :
  let after := setItem EMAIL_KEY a (setItem TOKEN_KEY t session) in
  getItem TOKEN_KEY after = Some t /\
  getItem EMAIL_KEY after = Some a /\
  (forall k, k <> TOKEN_KEY -> k <> EMAIL_KEY ->
             getItem k after = getItem k session).
Proof.
  intros after.
  split; [|split].
  - unfold after. rewrite getItem_setItem_other by discriminate.
    apply getItem_setItem_same.
  - apply getItem_setItem_same.
  - intros k Hk1 Hk2. unfold after.
    rewrite !getItem_setItem_other by assumption. reflexivity.
Qed.

(** X19.  A sign-in that is granted stores the session: when the server
    answers [login] with data whose [access_token] is truthy, and the token
    and the address convert to the strings [t] and [a], both are stored and
    the answer is returned, the rest of the storage being untouched.  The
    session is open, [isAuthenticated] holding and the next request
    carrying the token, exactly when [t] is not the empty string; for a
    token stored as the empty string, as the empty array is, no session is
    open and no [Authorization] header is sent. *)
Theorem login_opens_session (auth_key : option string) (email password : string)
  (server : request -> reply body) (session : store) (token address : value)
  (t a : string) :
  server (login_request auth_key session email password)
  = Resolved (Body token address) ->
  truthy token = true ->
  to_string token = Some t -> to_string address = Some a ->
  exists after,
    login auth_key email password server session
    = (after, false, Returned (Body token address)) /\
    getItem TOKEN_KEY after = Some t /\
    getUserEmail after = Some a /\
    (forall k, k <> TOKEN_KEY -> k <> EMAIL_KEY ->
               getItem k after = getItem k session) /\
    isAuthenticated after = negb (String.eqb t "") /\
    (t <> "" ->
     forall hs, getItem "Authorization" (inject_jwt after hs)
                = Some ("Bearer " ++ t)) /\
    (t = "" -> forall hs, inject_jwt after hs = hs).
Proof.
  intros Hs Htruthy Ht Ha. unfold login.
  rewrite Hs, (sign_in_granted _ _ _ _ _ Htruthy Ht Ha).
  eexists. split; [reflexivity|].
  destruct (stored_session t a session) as [H1 [H2 H3]].
  split; [exact H1|]. split; [exact H2|]. split; [exact H3|].
  split; [unfold isAuthenticated; rewrite H1; reflexivity|].
  split.
  - intros Hne hs. unfold inject_jwt. rewrite H1.
    apply String.eqb_neq in Hne. rewrite Hne. simpl.
    apply getItem_setItem_same.
  - intros -> hs. unfold inject_jwt. rewrite H1. reflexivity.
Qed.

Lemma sign_in_failed (r : reply body) (session : store) :
  (r = Resolved NullData \/ exists e, r = Rejected e) ->
  exists reload,
    sign_in r session = (logout session, reload, Threw) /\
    (reload = true <-> exists e, r = Rejected e /\ status e = Some 401%Z).
Proof.
  intros [->|[e ->]]; unfold sign_in; simpl.
  - exists false. split; [reflexivity|].
    split; [discriminate|]. intros [e [He _]]. discriminate.
  - unfold on_failure.
    assert (Hl : logout (removeItem EMAIL_KEY (removeItem TOKEN_KEY session))
                 = logout session).
    { change (removeItem EMAIL_KEY (removeItem TOKEN_KEY session))
        with (logout session).
      apply logout_idempotent. }
    destruct (status e) as [code|] eqn:Ec.
    + destruct (Z.eq_dec code 401) as [->|Hne].
      * exists true. simpl. rewrite Hl. split; [reflexivity|].
        split; [|reflexivity]. intros _. exists e. auto.
      * exists false.
        assert (Hm : match code with
                     | 401%Z => (removeItem EMAIL_KEY (removeItem TOKEN_KEY session), true)
                     | _ => (session, false)
                     end = (session, false)).
        { destruct code as [|p|p]; try reflexivity.
          do 9 (destruct p as [p|p|]; try reflexivity). congruence. }
        rewrite Hm. split; [reflexivity|].
        split; [discriminate|]. intros [e' [He' Hs']].
        inversion He'; subst e'. congruence.
    + exists false. split; [reflexivity|].
      split; [discriminate|]. intros [e' [He' Hs']].
      inversion He'; subst e'. congruence.
Qed.

(** X20.  A sign-in that fails closes the session: when the request of
    [register] is rejected, or is answered with null for data, the call
    throws and leaves the storage signed out, whatever session there was
    before; the other entries stay, and the page reloads exactly on a 401.
    (An answer with an empty body has the empty string for data and is no
    such case: [register] returns it and leaves the storage alone.) *)
Theorem register_failure_closes_session (auth_key : option string)
  (email password name : string) (server : request -> reply body)
  (session : store) :
  (server (register_request auth_key session email password name)
   = Resolved NullData
   \/ exists e, server (register_request auth_key session email password name)
                = Rejected e) ->
  exists reload,
    register auth_key email password name server session
    = (logout session, reload, Threw) /\
    (reload = true <->
     exists e, server (register_request auth_key session email password name)
               = Rejected e /\ status e = Some 401%Z) /\
    isAuthenticated (logout session) = false /\
    getUserEmail (logout session) = None /\
    (forall k, k <> TOKEN_KEY -> k <> EMAIL_KEY ->
               getItem k (logout session) = getItem k session).
Proof.
  intro Hr. unfold register.
  destruct (sign_in_failed _ session Hr) as [reload [Hs Hreload]].
  exists reload. split; [exact Hs|]. split; [exact Hreload|].
  destruct (logout_clears session) as [Ht [He Ho]].
  unfold isAuthenticated, getUserEmail. rewrite Ht, He. auto.
Qed.

(** X21.  An answer without token changes nothing: when the server answers
    [login] or [register] with an object whose [access_token] is missing or
    falsy, the call returns the answer and the storage stays as it was, a
    session that was open included. *)
Theorem sign_in_without_token_keeps_storage (auth_key : option string)
  (email password name : string) (server : request -> reply body)
  (session : store) (token address : value) :
  truthy token = false ->
  (server (login_request auth_key session email password)
   = Resolved (Body token address) ->
   login auth_key email password server session
   = (session, false, Returned (Body token address))) /\
  (server (register_request auth_key session email password name)
   = Resolved (Body token address) ->
   register auth_key email password name server session
   = (session, false, Returned (Body token address))).
Proof.
  intro Ht. split; intro Hs.
  - unfold login. rewrite Hs. unfold sign_in. simpl. rewrite Ht. reflexivity.
  - unfold register. rewrite Hs. unfold sign_in. simpl. rewrite Ht. reflexivity.
Qed.

Lemma on_failure_cases (e : failure) (session : store) :
  (status e = Some 401%Z /\ on_failure e session = (logout session, true))
  \/ (status e <> Some 401%Z /\ on_failure e session = (session, false)).
Proof.
  unfold on_failure. destruct (status e) as [code|].
  - destruct (Z.eq_dec code 401) as [->|Hne].
    + left. split; reflexivity.
    + right. split; [congruence|].
      destruct code as [|p|p]; try reflexivity.
      do 9 (destruct p as [p|p|]; try reflexivity). congruence.
  - right. split; [discriminate|reflexivity].
Qed.

(** X22.  A 401 signs the user out, no other failure does: when a request
    fails with status 401 the interceptor leaves the storage without session
    and reloads the page; on any other failure, and on every success, the
    storage is untouched and nothing reloads.  The caller gets the same
    success or failure in every case. *)
Theorem interceptors_sign_out_on_401 (A : Type) (r : reply A) (session : store) :
  (forall e, r = Rejected e -> status e = Some 401%Z ->
             through_interceptors r session = (logout session, true, r) /\
             isAuthenticated (logout session) = false /\
             getUserEmail (logout session) = None) /\
  ((forall e, r = Rejected e -> status e <> Some 401%Z) ->
   through_interceptors r session = (session, false, r)).
Proof.
  split.
  - intros e -> He. unfold through_interceptors.
    destruct (on_failure_cases e session) as [[_ H]|[H _]]; [|contradiction].
    rewrite H. destruct (logout_clears session) as [Ht [Hm _]].
    unfold isAuthenticated, getUserEmail. rewrite Ht, Hm. auto.
  - intro Hr. destruct r as [d|e]; simpl; [reflexivity|].
    destruct (on_failure_cases e session) as [[H _]|[_ H]].
    + exfalso. apply (Hr e eq_refl H).
    + rewrite H. reflexivity.
Qed.

Lemma paired_logout (session : store) : paired (logout session).
Proof.
  destruct (logout_clears session) as [Ht [He _]]. unfold paired.
  rewrite Ht, He. tauto.
Qed.

Lemma paired_sign_in (r : reply body) (session : store) :
  paired session -> paired (fst (fst (sign_in r session))).
Proof.
  intro Hp. unfold sign_in.
  destruct r as [[|token address]|e]; simpl.
  - apply paired_logout.
  - destruct (truthy token) eqn:Ht; simpl; [|exact Hp].
    destruct (to_string token) as [t|]; simpl; [|apply paired_logout].
    destruct (to_string address) as [a|]; simpl; [|apply paired_logout].
    destruct (stored_session t a session) as [H1 [H2 _]].
    unfold paired. rewrite H1, H2. split; discriminate.
  - destruct (on_failure_cases e session) as [[_ H]|[_ H]]; rewrite H; simpl.
    + rewrite logout_idempotent. apply paired_logout.
    + apply paired_logout.
Qed.

(** X23.  The token and the address are stored together or not at all: if
    that holds of the storage, it holds after [login], after [register],
    after [logout] and after the response interceptor, however the server
    answers. *)
Theorem session_stays_paired (auth_key : option string)
  (email password name : string) (server : request -> reply body)
  (session : store) :
  paired session ->
  paired (fst (fst (login auth_key email password server session))) /\
  paired (fst (fst (register auth_key email password name server session))) /\
  paired (logout session) /\
  (forall (A : Type) (r : reply A),
      paired (fst (fst (through_interceptors r session)))).
Proof.
  intro Hp. split; [apply paired_sign_in, Hp|].
  split; [apply paired_sign_in, Hp|]. split; [apply paired_logout|].
  intros A [d|e]; simpl; [exact Hp|].
  destruct (on_failure_cases e session) as [[_ H]|[_ H]]; rewrite H; simpl.
  - apply paired_logout.
  - exact Hp.
Qed.

Lemma inject_jwt_sends_session_token_witness :
  isAuthenticated signed_in = true /\
  exists token,
    getItem TOKEN_KEY signed_in = Some token /\ token <> "" /\
    getItem "Authorization" (inject_jwt signed_in (default_headers None))
    = Some ("Bearer " ++ token).
Proof.
  split; [reflexivity|].
  apply (inject_jwt_sends_session_token signed_in (default_headers None)).
  reflexivity.
Defined.

Lemma login_opens_session_witness :
  grant "abc" "a@archive.ai" (login_request None [] "a@archive.ai" "secret")
  = Resolved (Body (Str "abc") (Str "a@archive.ai")) /\
  truthy (Str "abc") = true /\
  (exists after,
      login None "a@archive.ai" "secret" (grant "abc" "a@archive.ai") []
      = (after, false, Returned (Body (Str "abc") (Str "a@archive.ai"))) /\
      isAuthenticated after = true /\
      getUserEmail after = Some "a@archive.ai") /\
  truthy empty_array = true /\
  (exists after,
      login None "a@archive.ai" "secret"
        (fun _ => Resolved (Body empty_array (Str "a@archive.ai"))) []
      = (after, false, Returned (Body empty_array (Str "a@archive.ai"))) /\
      isAuthenticated after = false /\
      inject_jwt after (default_headers None) = default_headers None).
Proof.
  split; [reflexivity|]. split; [reflexivity|]. split; [|split; [reflexivity|]].
  - destruct (login_opens_session None "a@archive.ai" "secret"
                (grant "abc" "a@archive.ai") [] (Str "abc") (Str "a@archive.ai")
                "abc" "a@archive.ai" eq_refl eq_refl eq_refl eq_refl)
      as [after [H1 [_ [H3 [_ [H5 _]]]]]].
    exists after. auto.
  - destruct (login_opens_session None "a@archive.ai" "secret"
                (fun _ => Resolved (Body empty_array (Str "a@archive.ai"))) []
                empty_array (Str "a@archive.ai")
                "" "a@archive.ai" eq_refl eq_refl eq_refl eq_refl)
      as [after [H1 [_ [_ [_ [H5 [_ H7]]]]]]].
    exists after. split; [exact H1|]. split; [exact H5|].
    apply H7. reflexivity.
Defined.

Lemma register_failure_closes_session_witness :
  (exists e, refuse 401 (register_request None signed_in "a@archive.ai" "secret" "A")
             = Rejected e) /\
  (exists reload,
      register None "a@archive.ai" "secret" "A" (refuse 401) signed_in
      = (logout signed_in, reload, Threw) /\
      isAuthenticated (logout signed_in) = false) /\
  exists reload,
    register None "a@archive.ai" "secret" "A" (fun _ => Resolved NullData)
      signed_in
    = (logout signed_in, reload, Threw) /\
    (reload = true <->
     exists e, Resolved NullData = Rejected e /\ status e = Some 401%Z).
Proof.
  assert (Hr : exists e,
             refuse 401 (register_request None signed_in "a@archive.ai" "secret" "A")
             = Rejected e) by (eexists; reflexivity).
  split; [exact Hr|]. split.
  - destruct (register_failure_closes_session None "a@archive.ai" "secret" "A"
                (refuse 401) signed_in (or_intror Hr))
      as [reload [H1 [_ [H2 _]]]].
    exists reload. auto.
  - destruct (register_failure_closes_session None "a@archive.ai" "secret" "A"
                (fun _ => Resolved NullData) signed_in (or_introl eq_refl))
      as [reload [H1 [H2 _]]].
    exists reload. auto.
Defined.

Lemma sign_in_without_token_keeps_storage_witness :
  truthy Undefined = false /\
  login None "a@archive.ai" "secret"
    (fun _ => Resolved (Body Undefined (Str "a@archive.ai"))) signed_in
  = (signed_in, false, Returned (Body Undefined (Str "a@archive.ai"))).
Proof.
  split; [reflexivity|].
  apply (sign_in_without_token_keeps_storage None "a@archive.ai" "secret" "A"
           (fun _ => Resolved (Body Undefined (Str "a@archive.ai"))) signed_in
           Undefined (Str "a@archive.ai") eq_refl).
  reflexivity.
Defined.

Lemma interceptors_sign_out_on_401_witness :
  status (mk_failure (Some 401%Z) Undefined (Str "Request failed")) = Some 401%Z /\
  through_interceptors
    (Rejected (A := list Z) (mk_failure (Some 401%Z) Undefined (Str "Request failed")))
    signed_in
  = (logout signed_in, true,
     Rejected (mk_failure (Some 401%Z) Undefined (Str "Request failed"))).
Proof.
  split; [reflexivity|].
  apply (interceptors_sign_out_on_401 (list Z)
           (Rejected (mk_failure (Some 401%Z) Undefined (Str "Request failed")))
           signed_in) with
    (e := mk_failure (Some 401%Z) Undefined (Str "Request failed"));
    reflexivity.
Defined.

Lemma signed_in_paired : paired signed_in.
Proof. unfold paired. simpl. split; discriminate. Qed.

Lemma session_stays_paired_witness :
  paired signed_in /\
  paired (fst (fst (login None "a@archive.ai" "secret" (refuse 500) signed_in))).
Proof.
  split; [exact signed_in_paired|].
  apply (session_stays_paired None "a@archive.ai" "secret" "A" (refuse 500)
           signed_in signed_in_paired).
Defined.

End ClientFacts.

(* ------------------------------------------------------------------ *)
(** ** The views: what is posted, what is kept, what is shown *)

Module ViewsFacts.

Import Client Views.
Local Open Scope string_scope.
Local Open Scope list_scope.

Lemma trim_start_split (s : text) :
  exists spaces,
    s = (spaces ++ trim_start s)%list /\ forallb is_space spaces = true.
Proof.
  induction s as [|c s IH]; simpl.
  - exists []. auto.
  - destruct (is_space c) eqn:E.
    + destruct IH as [sp [Hs Hsp]]. exists (c :: sp). simpl.
      rewrite E, Hsp. split; [congruence|reflexivity].
    + exists []. auto.
Qed.

Lemma trim_start_head (s : text) c rest :
  trim_start s = c :: rest -> is_space c = false.
Proof.
  induction s as [|c' s IH]; simpl; [discriminate|].
  destruct (is_space c') eqn:E; [exact IH|].
  intro H. inversion H; subst. exact E.
Qed.

(** Stripping the front leaves a last unit that is no space where it is. *)
Lemma trim_start_keeps_last (front : text) c :
  is_space c = false ->
  exists front', trim_start (front ++ [c]) = (front' ++ [c])%list.
Proof.
  intro Hc. induction front as [|c' front IH]; simpl.
  - rewrite Hc. exists []. reflexivity.
  - destruct (is_space c'); [exact IH|].
    exists (c' :: front). reflexivity.
Qed.

Lemma trim_trimmed (s : text) : trimmed (trim s).
Proof.
  unfold trimmed, trim, trim_end.
  set (t := trim_start s).
  split.
  - intros c rest H.
    destruct t as [|c0 t0] eqn:Et.
    + simpl in H. discriminate.
    + assert (Hc0 : is_space c0 = false).
      { eapply trim_start_head. unfold t in Et. exact Et. }
      simpl rev in H.
      destruct (trim_start_keeps_last (rev t0) c0 Hc0) as [front' Hf].
      rewrite Hf, rev_app_distr in H. simpl in H.
      inversion H; subst. exact Hc0.
  - intros c front H.
    assert (Hr : trim_start (rev t) = c :: rev front).
    { rewrite <- (rev_involutive (trim_start (rev t))), H, rev_app_distr.
      reflexivity. }
    eapply trim_start_head. exact Hr.
Qed.

(** [trim] takes white space off both ends and nothing else. *)
Lemma trim_split (s : text) :
  exists before after,
    s = (before ++ trim s ++ after)%list /\
    forallb is_space before = true /\ forallb is_space after = true.
Proof.
  unfold trim, trim_end.
  destruct (trim_start_split s) as [before [Hs Hb]].
  destruct (trim_start_split (rev (trim_start s))) as [sp [Hr Hsp]].
  exists before, (rev sp). split; [|split; [exact Hb|]].
  - rewrite Hs at 1. f_equal.
    rewrite <- (rev_involutive (trim_start s)) at 1.
    rewrite Hr at 1. rewrite rev_app_distr. reflexivity.
  - rewrite forallb_forall in *. intros x Hx. apply Hsp.
    apply in_rev. exact Hx.
Qed.

Lemma blank_iff (s : text) : blank s = false <-> trim s <> [].
Proof.
  unfold blank. destruct (trim s); split; congruence.
Qed.

(** X24.  The oracle calls nothing for a query of white space and leaves
    its state alone; for any other query it hands [api.post] the query
    without the white space around it, asking for 5 results with a summary.
    Once the call has ended the oracle is not loading; it shows the answer
    and no error when the call succeeded, and the error and no answer, not
    even an earlier one, when it failed. *)
Theorem handleInquiry_posts_trimmed_query (A : Type)
  (post : inquiry -> reply A) (st : oracle A) (session : store) :
  (blank (query st) = true ->
   handleInquiry post st session = (None, st, session, false)) /\
  (blank (query st) = false ->
   trimmed (trim (query st)) /\ trim (query st) <> [] /\
   (exists before after,
       query st = before ++ trim (query st) ++ after /\
       forallb is_space before = true /\ forallb is_space after = true) /\
   exists st' session' reload,
     handleInquiry post st session
     = (Some (mk_inquiry (trim (query st)) true 5), st', session', reload) /\
     query st' = query st /\ oracle_loading st' = false /\
     ((exists data,
          post (mk_inquiry (trim (query st)) true 5) = Resolved data /\
          result st' = Some data /\ oracle_error st' = "")
      \/ (exists e,
             post (mk_inquiry (trim (query st)) true 5) = Rejected e /\
             result st' = None /\ oracle_error st' = silent))).
Proof.
  unfold handleInquiry. split; intro Hb; rewrite Hb; [reflexivity|].
  split; [apply trim_trimmed|]. split; [apply blank_iff, Hb|].
  split; [apply trim_split|].
  destruct (post (mk_inquiry (trim (query st)) true 5)) as [data|e] eqn:Es;
    simpl.
  - do 3 eexists. split; [reflexivity|]. simpl.
    repeat split. left. exists data. auto.
  - destruct (on_failure e session) as [session' reload].
    do 3 eexists. split; [reflexivity|]. simpl.
    repeat split. right. exists e. auto.
Qed.

(** X25.  The studio never loses what was written: the text is cleared, and
    the parent told, only when the call of [api.post] succeeded; when it
    failed the text stays as it was typed and the parent is not told.  What
    is handed to [api.post] is the text without the white space around it,
    and nothing is for a text of white space, for which the seal button is
    disabled. *)
Theorem handleCommit_keeps_text_on_failure (A : Type) (has_callback : bool)
  (post : text -> reply A) (st : studio) (session : store) :
  (blank (content st) = true ->
   handleCommit has_callback post st session = (None, st, false, session, false)
   /\ seal_disabled st = true) /\
  (blank (content st) = false ->
   trimmed (trim (content st)) /\
   (exists before after,
       content st = before ++ trim (content st) ++ after /\
       forallb is_space before = true /\ forallb is_space after = true) /\
   exists st' notified session' reload,
     handleCommit has_callback post st session
     = (Some (trim (content st)), st', notified, session', reload) /\
     studio_loading st' = false /\ isFocused st' = isFocused st /\
     ((exists data,
          post (trim (content st)) = Resolved data /\
          content st' = [] /\ notified = has_callback)
      \/ (exists e,
             post (trim (content st)) = Rejected e /\
             content st' = content st /\ notified = false))).
Proof.
  unfold handleCommit, seal_disabled. split; intro Hb; rewrite Hb.
  - split; [reflexivity|apply orb_true_r].
  - split; [apply trim_trimmed|]. split; [apply trim_split|].
    destruct (post (trim (content st))) as [data|e] eqn:Es; simpl.
    + do 4 eexists. split; [reflexivity|]. simpl.
      repeat split. left. exists data. auto.
    + destruct (on_failure e session) as [session' reload].
      do 4 eexists. split; [reflexivity|]. simpl.
      repeat split. right. exists e. auto.
Qed.

(** X26.  The feed never shows the memories it falls back to: when the
    fetch fails the component renders the error message, whatever the
    fallback holds; when it succeeds it renders the memories it was sent, in
    the order they came, or the empty notice when there are none. *)
Theorem feed_never_shows_fallback (M : Type) (mock : list M)
  (r : reply (list M)) (session : store) :
  (forall e, r = Rejected e ->
             render_feed (fst (fst (fetchMemories mock r feed_mounted session)))
             = Failed unreachable) /\
  (forall data, r = Resolved data ->
                render_feed (fst (fst (fetchMemories mock r feed_mounted session)))
                = match data with [] => Silent | _ => Stack data end).
Proof.
  split.
  - intros e ->. unfold fetchMemories. simpl.
    destruct (on_failure e session). reflexivity.
  - intros data ->. destruct data; reflexivity.
Qed.

Lemma less_asymmetric_chain (x : option Q) :
  less x (Some half) && less (Some four_fifths) x = false.
Proof.
  destruct x as [q|]; [|reflexivity]. unfold less.
  destruct (q ?= half)%Q eqn:E1; try reflexivity.
  destruct (four_fifths ?= q)%Q eqn:E2; try reflexivity.
  exfalso. apply Qlt_alt in E1. apply Qlt_alt in E2.
  assert (H : (half < four_fifths)%Q) by reflexivity.
  pose proof (Qlt_trans _ _ _ E2 E1) as H1.
  pose proof (Qlt_trans _ _ _ H1 H) as H2.
  apply (Qlt_irrefl _ H2).
Qed.

(** X27.  A card is never fading and strong at once, and it is neither when
    the memory has no retention score. *)
Theorem card_never_fading_and_strong (retention_score : score_field) :
  isFading retention_score && isStrong retention_score = false /\
  (retention_score = Absent ->
   isFading retention_score = false /\ isStrong retention_score = false).
Proof.
  split.
  - apply less_asymmetric_chain.
  - intros ->. split; reflexivity.
Qed.

Lemma handleInquiry_posts_trimmed_query_witness :
  blank padded = false /\
  handleInquiry (fun _ => Resolved 7%Z) (mk_oracle padded None false "") []
  = (Some (mk_inquiry [104; 105]%N true 5),
     mk_oracle padded (Some 7%Z) false "", [], false) /\
  trimmed (trim padded).
Proof.
  assert (Hb : blank padded = false) by reflexivity.
  split; [exact Hb|]. split; [reflexivity|].
  destruct (handleInquiry_posts_trimmed_query Z (fun _ => Resolved 7%Z)
              (mk_oracle padded None false "") []) as [_ H].
  apply (H Hb).
Defined.

Lemma handleCommit_keeps_text_on_failure_witness :
  blank padded = false /\
  handleCommit (A := Z) true down (mk_studio padded false true) []
  = (Some [104; 105]%N, mk_studio padded false true, false, [], false) /\
  trimmed (trim padded).
Proof.
  assert (Hb : blank padded = false) by reflexivity.
  split; [exact Hb|]. split; [reflexivity|].
  destruct (handleCommit_keeps_text_on_failure Z true down
              (mk_studio padded false true) []) as [_ H].
  apply (H Hb).
Defined.

Lemma feed_never_shows_fallback_witness :
  render_feed
    (fst (fst (fetchMemories [1%Z; 2%Z; 3%Z]
                 (Rejected (mk_failure None Undefined (Str "Network Error")))
                 feed_mounted [])))
  = Failed unreachable.
Proof.
  apply (feed_never_shows_fallback Z [1%Z; 2%Z; 3%Z]
           (Rejected (mk_failure None Undefined (Str "Network Error"))) [])
    with (e := mk_failure None Undefined (Str "Network Error")).
  reflexivity.
Defined.

Lemma card_never_fading_and_strong_witness :
  isFading Absent = false /\ isStrong Absent = false.
Proof.
  apply (card_never_fading_and_strong Absent). reflexivity.
Defined.

End ViewsFacts.

(* ------------------------------------------------------------------ *)
(** ** The chronology component and the session across a reload *)

Module AppFacts.

Import Client Views ClientFacts.
Local Open Scope string_scope.
Local Open Scope list_scope.

Section ChronologyView.

Variable memory : Type.
Variable created_at : memory -> Z.
Variable year_of : Z -> Z.
Variable month_name : Z -> string.
Variable day_label : Z -> string.

(** X28.  The chronology shows each memory it fetched once: after a fetch
    that succeeded the memories of all the sections together are the
    memories the server sent, none lost and none twice; after a fetch that
    failed the component shows the error and none of the memories it falls
    back to. *)
Theorem chronology_shows_each_memory_once (mock : list memory)
  (r : reply (list memory)) (session : store) :
  (forall data, r = Resolved data ->
     Permutation
       (shown (render_chronology
                 (fst (fst (fetchAndGroupMemories created_at year_of month_name
                              day_label mock r chronology_mounted session)))))
       data) /\
  (forall e, r = Rejected e ->
     render_chronology
       (fst (fst (fetchAndGroupMemories created_at year_of month_name
                    day_label mock r chronology_mounted session)))
     = Unreadable unrolled).
Proof.
  split.
  - intros data ->. unfold fetchAndGroupMemories. simpl.
    eapply Permutation_trans;
      [apply Permutation_map, ChronologyFacts.grouped_items_flat|].
    unfold Chronology.year_groups.
    eapply Permutation_trans;
      [apply Permutation_map, ChronologyFacts.fold_flat|].
    simpl. rewrite app_nil_r, map_map. simpl. rewrite map_id.
    apply Permutation_sym, OrderingFacts.order_by_perm.
  - intros e ->. unfold fetchAndGroupMemories. simpl.
    destruct (on_failure e session). reflexivity.
Qed.

End ChronologyView.

Lemma chronology_shows_each_memory_once_witness :
  Permutation
    (shown (render_chronology
              (fst (fst (fetchAndGroupMemories
                           ChronologySamples.note_created_at
                           ChronologySamples.utc_year
                           ChronologySamples.english_month
                           ChronologySamples.english_day []
                           (Resolved ChronologySamples.mock_memories)
                           chronology_mounted [])))))
    ChronologySamples.mock_memories.
Proof.
  apply (chronology_shows_each_memory_once ChronologySamples.note
           ChronologySamples.note_created_at ChronologySamples.utc_year
           ChronologySamples.english_month ChronologySamples.english_day []
           (Resolved ChronologySamples.mock_memories) []).
  reflexivity.
Defined.

Lemma logged_out (session : store) : isAuthenticated (logout session) = false.
Proof.
  destruct (logout_clears session) as [Ht _].
  unfold isAuthenticated. rewrite Ht. reflexivity.
Qed.

Lemma sign_in_threw (r : reply body) (session after : store) (reload : bool) :
  sign_in r session = (after, reload, Threw) ->
  isAuthenticated after = false.
Proof.
  unfold sign_in. destruct r as [[|token address]|e]; simpl.
  - intro H. inversion H; subst. apply logged_out.
  - destruct (truthy token); [|intro H; inversion H].
    destruct (to_string token) as [t|];
      [|intro H; inversion H; subst; apply logged_out].
    destruct (to_string address) as [a|]; intro H; inversion H; subst.
    apply logged_out.
  - destruct (on_failure e session) as [session' reload'].
    intro H. inversion H; subst. apply logged_out.
Qed.

Lemma sign_in_returned (r : reply body) (session after : store) (reload : bool)
  (token address : value) :
  sign_in r session = (after, reload, Returned (Body token address)) ->
  truthy token = true ->
  exists t a,
    to_string token = Some t /\ to_string address = Some a /\
    getItem TOKEN_KEY after = Some t /\ getItem EMAIL_KEY after = Some a.
Proof.
  unfold sign_in. destruct r as [[|token' address']|e]; simpl.
  - intro H. inversion H.
  - destruct (truthy token') eqn:Ht'.
    + destruct (to_string token') as [t|] eqn:Et; [|intro H; inversion H].
      destruct (to_string address') as [a|] eqn:Ea; intros H _;
        inversion H; subst.
      destruct (stored_session t a session) as [H1 [H2 _]].
      exists t, a. auto.
    + intros H Ht. inversion H; subst. congruence.
  - destruct (on_failure e session). intro H. inversion H.
Qed.

(** X29.  A session survives a reload, a failed sign-in does not: after a
    [login] that returned an answer with a truthy token, the token and the
    address were stored as strings, and the application loaded afresh shows
    the user under the stored address if the stored token is not the empty
    string, and the sign-in form if it is (the token was an empty array);
    after a [login] that threw it shows the sign-in form. *)
Theorem reload_after_login (auth_key : option string) (email password : string)
  (server : request -> reply body) (session after : store) (reload : bool)
  (outcome : ending) :
  login auth_key email password server session = (after, reload, outcome) ->
  (outcome = Threw -> user (reloaded after) = None) /\
  (forall token address,
      outcome = Returned (Body token address) -> truthy token = true ->
      exists t a,
        to_string token = Some t /\ to_string address = Some a /\
        user (reloaded after)
        = if String.eqb t "" then None else Some (Some a)).
Proof.
  unfold login. intro H. split.
  - intros ->. apply sign_in_threw in H.
    unfold reloaded, on_mount. rewrite H. reflexivity.
  - intros token address -> Ht.
    destruct (sign_in_returned _ _ _ _ _ _ H Ht) as [t [a [Et [Ea [H1 H2]]]]].
    exists t, a. split; [exact Et|]. split; [exact Ea|].
    unfold reloaded, on_mount, isAuthenticated, getUserEmail. rewrite H1.
    destruct (String.eqb t ""); simpl; [reflexivity|].
    rewrite H2. reflexivity.
Qed.

Lemma reload_after_login_witness :
  login None "a@archive.ai" "secret" (grant "abc" "a@archive.ai") []
  = ([("user_email", "a@archive.ai"); ("access_token", "abc")], false,
     Returned (Body (Str "abc") (Str "a@archive.ai"))) /\
  truthy (Str "abc") = true /\
  user (reloaded [("user_email", "a@archive.ai"); ("access_token", "abc")])
  = Some (Some "a@archive.ai").
Proof.
  assert (H : login None "a@archive.ai" "secret" (grant "abc" "a@archive.ai") []
              = ([("user_email", "a@archive.ai"); ("access_token", "abc")],
                 false, Returned (Body (Str "abc") (Str "a@archive.ai"))))
    by reflexivity.
  split; [exact H|]. split; [reflexivity|].
  destruct (reload_after_login None "a@archive.ai" "secret"
              (grant "abc" "a@archive.ai") [] _ _ _ H) as [_ Hr].
  destruct (Hr (Str "abc") (Str "a@archive.ai") eq_refl eq_refl)
    as [t [a [Et [Ea Hu]]]].
  injection Et as <-. injection Ea as <-. exact Hu.
Defined.

(** X30.  Closing the archive signs out for good: [handleLogout] shows the
    sign-in form with its fields empty and the feed as the view to come,
    leaves no session in the storage, and a reload afterwards starts the
    application signed out. *)
Theorem handleLogout_signs_out (a : app) (session : store) :
  user (fst (handleLogout a session)) = None /\
  email (fst (handleLogout a session)) = "" /\
  password (fst (handleLogout a session)) = "" /\
  name (fst (handleLogout a session)) = "" /\
  view (fst (handleLogout a session)) = "feed" /\
  isAuthenticated (snd (handleLogout a session)) = false /\
  reloaded (snd (handleLogout a session)) = app_started.
Proof.
  destruct (logout_clears session) as [Ht _].
  assert (Ha : isAuthenticated (logout session) = false).
  { unfold isAuthenticated. rewrite Ht. reflexivity. }
  simpl. repeat split; try exact Ha.
  unfold reloaded, on_mount. rewrite Ha. reflexivity.
Qed.

End AppFacts.
